(** * Bitcoin address clustering: builder, graph codec and analyzer

    A shallow embedding of the C++ programs of the repository:
    - [builder.cpp] version 1.0 (edge vector, star of edges to the first
      input, sort and skip of duplicates, byte-swapped output),
    - [builder.cpp] version 0.2 (node map, edge set, path through the sorted
      unique inputs, byte-swapped output),
    - [analyzer.cpp] version 0.2 and [clustering.cpp] version 1.0
      (byte-swapped input), [analyzer.cc] version 0.1 (native input),
    together with the properties of the design document that they decide. *)

From Stdlib Require Import ZArith Lia List Ascii String.
From Stdlib Require Strings.Byte.
From stdpp Require Import base option list sorting gmap.

Local Open Scope Z_scope.

(** ** Machine integers *)

Module Int32.

Definition modulus : Z := 2 ^ 32.
Definition half_modulus : Z := 2 ^ 31.
Definition INT_MAX : Z := 2 ^ 31 - 1.
Definition INT_MIN : Z := - 2 ^ 31.

(** A C [int] is a [Z] in [[INT_MIN, INT_MAX]]. *)
Definition in_range (x : Z) : Prop := INT_MIN <= x <= INT_MAX.

(** Two's-complement wrap-around of a mathematical integer. *)
Definition wrap (x : Z) : Z := (x + half_modulus) mod modulus - half_modulus.

(** The unsigned reading of the 32 bits of an [int]. *)
Definition to_unsigned (x : Z) : Z := x mod modulus.

Definition add (x y : Z) : Z := wrap (x + y).
Definition mul (x y : Z) : Z := wrap (x * y).

End Int32.

(** ** Bytes and the in-memory representation of an [int] *)

Module Bytes.

Abbreviation byte := Byte.byte.

Definition Z_of_byte (b : byte) : Z := Z.of_N (Byte.to_N b).

Definition byte_of_Z (z : Z) : byte :=
  match Byte.of_N (Z.to_N (z mod 256)) with
  | Some b => b
  | None => Byte.x00
  end.

(** The [n] low-order bytes of [u], least significant first. *)
Fixpoint le_bytes (n : nat) (u : Z) : list byte :=
  match n with
  | O => []
  | S n => byte_of_Z u :: le_bytes n (u / 256)
  end.

(** The number whose little-endian bytes are [bs]. *)
Fixpoint le_value (bs : list byte) : Z :=
  match bs with
  | [] => 0
  | b :: bs => Z_of_byte b + 256 * le_value bs
  end.

End Bytes.

(** ** Byte order and [__builtin_bswap32] *)

Module Codec.
Import Bytes.

(** The byte order of the machine the programs run on.  The programs never
    name it: they store the memory image of their [int] buffers as it is. *)
Inductive byte_order : Set := LittleEndian | BigEndian.

(** The four bytes that [fwrite]/[ostream::write] copy out of an [int]. *)
Definition store_int (host : byte_order) (x : Z) : list byte :=
  match host with
  | LittleEndian => le_bytes 4 (Int32.to_unsigned x)
  | BigEndian => rev (le_bytes 4 (Int32.to_unsigned x))
  end.

(** The [int] that [fread]/[istream::read] leave in a four-byte slot. *)
Definition load_int (host : byte_order) (bs : list byte) : Z :=
  Int32.wrap (le_value (match host with
                        | LittleEndian => bs
                        | BigEndian => rev bs
                        end)).

(** [__builtin_bswap32]: the value whose four bytes are those of [x] in
    reverse order. *)
Definition bswap32 (x : Z) : Z :=
  load_int LittleEndian (rev (store_int LittleEndian x)).

(** Whether the machine that reads a file has the byte order of the
    machine that wrote it. *)
Definition same_order (writer reader : byte_order) : bool :=
  match writer, reader with
  | LittleEndian, LittleEndian | BigEndian, BigEndian => true
  | _, _ => false
  end.

(** A pair of [int]s with the bytes of each one reversed. *)
Definition swap_pair (e : Z * Z) : Z * Z := (bswap32 e.1, bswap32 e.2).

End Codec.

(** ** C strings: [getline], [strsep], [strtok_r], [strtok], [atoi] *)

Module CString.

Abbreviation text := (list ascii).

Definition txt (s : string) : text := list_ascii_of_string s.

Definition code (c : ascii) : Z := Z.of_N (N_of_ascii c).

Definition is_char (d c : ascii) : bool := Ascii.eqb c d.

(** A C string ends at its first NUL character. *)
Fixpoint cstr (s : text) : text :=
  match s with
  | [] => []
  | c :: s' => if is_char Ascii.zero c then [] else c :: cstr s'
  end.

(** The lines that successive calls of [getline] return: each one with its
    newline, the last one possibly without. *)
Fixpoint getlines (s : text) : list text :=
  match s with
  | [] => []
  | c :: s' =>
      if is_char "010"%char c then [c] :: getlines s'
      else match getlines s' with
           | [] => [[c]]
           | l :: ls => (c :: l) :: ls
           end
  end.

(** The fields that successive calls of [strsep] return for one delimiter:
    empty fields are kept and there is always at least one field. *)
Fixpoint fields (d : ascii) (s : text) : list text :=
  match s with
  | [] => [[]]
  | c :: s' =>
      if is_char d c then [] :: fields d s'
      else match fields d s' with
           | [] => [[c]]
           | f :: fs => (c :: f) :: fs
           end
  end.

Definition nonempty_list {A} (s : list A) : bool :=
  match s with [] => false | _ :: _ => true end.

Definition nonempty (s : text) : bool := nonempty_list s.

(** The tokens that successive calls of [strtok_r] return for one
    delimiter: the non-empty fields. *)
Definition tokens (d : ascii) (s : text) : list text :=
  List.filter nonempty (fields d s).

(** [strtok(s, d)] on a fresh string: the first token, or NULL. *)
Definition strtok (d : ascii) (s : text) : option text :=
  head (tokens d s).

Definition isspace (c : ascii) : bool :=
  (code c =? 32) || ((9 <=? code c) && (code c <=? 13)).

Definition digit (c : ascii) : option Z :=
  if (48 <=? code c) && (code c <=? 57) then Some (code c - 48) else None.

Fixpoint skip_spaces (s : text) : text :=
  match s with
  | c :: s' => if isspace c then skip_spaces s' else s
  | [] => []
  end.

Fixpoint digits_value (acc : Z) (s : text) : Z :=
  match s with
  | c :: s' =>
      match digit c with
      | Some d => digits_value (10 * acc + d) s'
      | None => acc
      end
  | [] => acc
  end.

Definition LONG_MAX : Z := 2 ^ 63 - 1.
Definition LONG_MIN : Z := - 2 ^ 63.

Definition clamp_long (x : Z) : Z := Z.max LONG_MIN (Z.min LONG_MAX x).

(** [strtol(s, NULL, 10)]: optional white space, optional sign, the longest
    run of decimal digits (value 0 when there is none), saturating. *)
Definition strtol10 (s : text) : Z :=
  match skip_spaces s with
  | c :: r =>
      if is_char "-"%char c then clamp_long (- digits_value 0 r)
      else if is_char "+"%char c then clamp_long (digits_value 0 r)
      else clamp_long (digits_value 0 (c :: r))
  | [] => 0
  end.

(** [atoi(s)] is [(int) strtol(s, NULL, 10)]. *)
Definition atoi (s : text) : Z := Int32.wrap (strtol10 s).

End CString.

(** ** Strings in memory: [strsep], [strtok_r] and [strtok]

    These functions write into the string they scan and keep pointers into
    it.  A block of memory is the list of its characters and a pointer into
    it is an offset from its start. *)

Module CMem.
Import CString.

Definition NUL : ascii := Ascii.zero.

(** The character at a position.  A position past the written part of the
    block reads as NUL: every scan below stops there at the latest. *)
Definition peek (b : text) (p : nat) : ascii := default NUL (b !! p).

(** [strspn(s, d)] and [strcspn(s, d)] for a one-character [d]: the length
    of the run of [d] at the start of the string, and of the run of
    characters other than [d]. *)
Fixpoint strspn (d : ascii) (s : text) : nat :=
  match s with
  | c :: s' =>
      if is_char NUL c then O
      else if is_char d c then S (strspn d s') else O
  | [] => O
  end.

Fixpoint strcspn (d : ascii) (s : text) : nat :=
  match s with
  | c :: s' =>
      if is_char NUL c then O
      else if is_char d c then O else S (strcspn d s')
  | [] => O
  end.

(** [strsep(&stringp, d)]: the token starts where [stringp] points; the
    delimiter that ends it is overwritten with NUL and [stringp] moves past
    it, or becomes NULL when the string ends first.  The result is the
    block, the new [stringp] and the token. *)
Definition strsep (d : ascii) (b : text) (stringp : option nat)
  : text * option nat * option nat :=
  match stringp with
  | None => (b, None, None)
  | Some begin =>
      let end_ := (begin + strcspn d (drop begin b))%nat in
      if is_char NUL (peek b end_) then (b, None, Some begin)
      else (<[end_ := NUL]> b, Some (S end_), Some begin)
  end.

(** [strtok_r] from the position [s] (the string argument, or the saved
    pointer when the argument is NULL), as the C library of the GNU system
    has it: leading delimiters are skipped, the delimiter that ends the
    token is overwritten with NUL, and the saved pointer is left behind it,
    or on the NUL that ends the string.  The result is the block, the saved
    pointer and the token. *)
Definition strtok_r (d : ascii) (b : text) (s : nat)
  : text * nat * option nat :=
  if is_char NUL (peek b s) then (b, s, None)
  else
    let s1 := (s + strspn d (drop s b))%nat in
    if is_char NUL (peek b s1) then (b, s1, None)
    else
      let end_ := (s1 + strcspn d (drop s1 b))%nat in
      if is_char NUL (peek b end_) then (b, end_, Some s1)
      else (<[end_ := NUL]> b, S end_, Some s1).

(** The C string that starts at a position. *)
Definition string_at (b : text) (p : nat) : text := cstr (drop p b).

(** A piece of a string that holds neither a NUL nor the delimiter. *)
Definition plain (d : ascii) (s : text) : Prop :=
  Forall (fun c => c <> NUL /\ c <> d) s.

End CMem.

(** ** [string.h] of version 0.1: [split] *)

Module StringUtil.
Import CString.

(** [s.find_first_of(d, pos)]: the first index at or after [pos] that holds
    [d]; [None] is [string::npos]. *)
Fixpoint find_first_of (d : ascii) (s : text) (pos : nat) : option nat :=
  match s with
  | [] => None
  | c :: s' =>
      match pos with
      | O => if is_char d c then Some O else S <$> find_first_of d s' O
      | S pos' => S <$> find_first_of d s' pos'
      end
  end.

(** [s.substr(pos, count)], the count being [npos - pos] when [count] is
    [None]: at most [count] characters from [pos] on. *)
Definition substr (s : text) (pos : nat) (count : option nat) : text :=
  match count with
  | Some n => take n (drop pos s)
  | None => drop pos s
  end.

(** The [while] loop of [split]; it is left by the [break] at [npos].  Each
    turn moves [start] past one delimiter, so the fuel [length s + 1] of
    [split] is never used up. *)
Fixpoint split_loop (fuel : nat) (s : text) (delimiter : ascii)
    (start : nat) (end_ : option nat) (output : list text) : list text :=
  match fuel with
  | O => output
  | S fuel' =>
      match end_ with
      | None => output ++ [substr s start None]
      | Some e =>
          split_loop fuel' s delimiter (e + 1)%nat
            (find_first_of delimiter s (e + 1)%nat)
            (output ++ [substr s start (Some (e - start)%nat)])
      end
  end.

Definition split (s : text) (delimiter : ascii) : list text :=
  split_loop (S (length s)) s delimiter 0 (find_first_of delimiter s 0) [].

(** The tokens put together again, with the delimiter between them. *)
Fixpoint join (d : ascii) (l : list text) : text :=
  match l with
  | [] => []
  | [x] => x
  | x :: l' => x ++ d :: join d l'
  end.

(** The number of occurrences of a character. *)
Definition count_char (d : ascii) (s : text) : nat :=
  length (List.filter (is_char d) s).

End StringUtil.

(** ** Transaction records as the builders read them *)

Module Tx.
Import CString.

(** [atoi(strtok(item, ","))]: the address of an input or output.
    [strtok] returns NULL on an item made of commas only, and [atoi(NULL)]
    is undefined: no result. *)
Definition address_of (item : text) : option Z :=
  atoi <$> strtok ","%char item.

Fixpoint addresses_of (items : list text) : option (list Z) :=
  match items with
  | [] => Some []
  | item :: items' =>
      a ← address_of item; l ← addresses_of items'; Some (a :: l)
  end.

(** The [k]-th colon-separated field of a line; empty when absent. *)
Definition field (k : nat) (line : text) : text :=
  default [] (fields ":"%char (cstr line) !! k).

(** The input and the output addresses of a line, in the order of the
    line; no result when some item has no address field. *)
Definition inputs (line : text) : option (list Z) :=
  addresses_of (tokens ";"%char (field 1 line)).
Definition outputs (line : text) : option (list Z) :=
  addresses_of (tokens ";"%char (field 2 line)).

(** [id_of] is a total bijection from the addresses [addrs] onto the
    identifiers [0 <= i < N]. *)
Definition bijection_onto (addrs : list Z) (N : Z) (id_of : Z -> option Z)
  : Prop :=
  (forall a, a ∈ addrs <-> is_Some (id_of a)) /\
  (forall a i, id_of a = Some i -> 0 <= i < N) /\
  (forall a b i, id_of a = Some i -> id_of b = Some i -> a = b) /\
  (forall i, 0 <= i < N -> exists a, id_of a = Some i).

(** Every address that the lines of a stream hold. *)
Definition observed_in_line (line : text) : list Z :=
  default [] (inputs line) ++ default [] (outputs line).
Definition observed (input : text) : list Z :=
  flat_map observed_in_line (getlines input).

(** A line on which no call of [atoi] gets NULL. *)
Definition parses (line : text) : bool :=
  bool_decide (is_Some (inputs line)) && bool_decide (is_Some (outputs line)).

(** A line whose inputs field is empty or holds at least one item. *)
Definition has_first_input (line : text) : bool :=
  match field 1 line with
  | [] => true
  | _ :: _ => nonempty_list (tokens ";"%char (field 1 line))
  end.

End Tx.

(** ** Binary output files: [fseek] and [fwrite] *)

Module Stdio.
Import Bytes.

Record FILE := mkFILE { content : list byte; position : nat }.

(** [fopen(path, "wb")]: an empty file. *)
Definition fopen_w : FILE := mkFILE [] 0.

(** [fseek(f, pos, SEEK_SET)]. *)
Definition fseek_set (pos : nat) (f : FILE) : FILE := mkFILE (content f) pos.

(** [fwrite]: the bytes go to the current position, over what is there;
    a gap between the end of the file and the position reads as zeros. *)
Definition fwrite (bs : list byte) (f : FILE) : FILE :=
  let padded :=
    content f ++ replicate (position f - length (content f)) Byte.x00 in
  mkFILE (take (position f) padded ++ bs
            ++ drop (position f + length bs) padded)
         (position f + length bs).

End Stdio.

(** ** The order of [std::pair<int,int>] and sorted duplicate-free lists *)

Module Edge.

Abbreviation t := (Z * Z)%type.

(** [operator<=] of [std::pair<int,int>]: lexicographic. *)
Definition le (a b : t) : Prop := a.1 < b.1 \/ (a.1 = b.1 /\ a.2 <= b.2).

#[export] Instance le_dec a b : Decision (le a b).
Proof. unfold le. apply _. Defined.

(** [std::sort] on a vector of pairs.  Two pairs that compare equal are the
    same pair, so the result does not depend on the sorting algorithm
    (see [sort_unique]). *)
Definition sort (l : list t) : list t := merge_sort le l.

(** What the standard asks of [std::sort]: the result is in
    non-descending order and is a rearrangement of the argument. *)
Definition is_std_sort (srt : list t -> list t) : Prop :=
  forall l, Sorted le (srt l) /\ srt l ≡ₚ l.

(** The strict order [operator<] of [std::pair<int,int>]. *)
Definition lt (a b : t) : Prop := a.1 < b.1 \/ (a.1 = b.1 /\ a.2 < b.2).

(** [std::minmax(a, b)]. *)
Definition minmax (a b : Z) : t := if b <? a then (b, a) else (a, b).

(** An edge as an unordered pair: the smaller endpoint first. *)
Definition unordered (e : t) : t := minmax e.1 e.2.

(** An edge list without self-loops and without two edges that join the
    same unordered pair of nodes. *)
Definition simple (es : list t) : Prop :=
  Forall (fun e => e.1 <> e.2) es /\ NoDup (unordered <$> es).

End Edge.

(** ** The builder, version 1.0 ([builder.cpp]) *)

Module Builder.
Import Bytes Codec CString Stdio.


(** The variables [max_id] and [edges] of [main], which the three
    [process_] functions update through a pointer and a reference. *)
Record state := mkState { max_id : Z; edges : list Edge.t }.

(** The memory that the parsing works in: the block that [line_buf] of
    [main] points to, as far as it has been written, its size [line_size],
    and the static pointer of [strtok].  That pointer is an offset into the
    block; it is absent while it is NULL and once the block it pointed
    into has been given back. *)
Record memory := mkMemory {
  buffer : text;
  line_size : nat;
  olds : option nat
}.

Definition with_buffer (b : text) (m : memory) : memory :=
  mkMemory b (line_size m) (olds m).

(** [getline(&line_buf, &line_size, input_file)] for the next line of the
    file, as the C library of the GNU system has it: the first call
    allocates 120 bytes; a line that does not fit with its final NUL makes
    the block at least twice as large, through [realloc], after which a
    pointer into the old block is no longer valid.  The line and the NUL go
    to the start of the block; what lies behind them stays. *)
Definition getline (line : text) (m : memory) : memory :=
  let n := if (line_size m =? 0)%nat then 120%nat else line_size m in
  let needed := S (length line) in
  let written := line ++ CMem.NUL :: drop needed (buffer m) in
  if (needed <=? n)%nat then mkMemory written n (olds m)
  else mkMemory written (Nat.max needed (2 * n)) None.

(** [strtok(s, ",")]: [strtok_r] on the static pointer.  With a NULL
    argument the scan goes on from that pointer, wherever an earlier call
    has left it; there is no result when there is no valid pointer to go
    on from. *)
Definition strtok (s : option nat) (m : memory) : option (memory * option nat) :=
  from ← match s with Some p => Some p | None => olds m end;
  let '(b, save_ptr, token) := CMem.strtok_r ","%char (buffer m) from in
  Some (mkMemory b (line_size m) (Some save_ptr), token).

(** [atoi(strtok(s, ","))]; [atoi(NULL)] has no result. *)
Definition address (s : option nat) (m : memory) : option (memory * Z) :=
  '(m', address_str) ← strtok s m;
  match address_str with
  | Some p => Some (m', atoi (CMem.string_at (buffer m') p))
  | None => None
  end.

(** [if (a >= *max_id) *max_id = a;] *)
Definition update_max (a : Z) (st : state) : state :=
  if max_id st <=? a then mkState a (edges st) else st.

(** The [while] loop of [process_inputs] over the inputs after the first.
    Every turn but the last moves [save_ptr] forward, so the loop takes at
    most as many turns as the block has characters, plus one. *)
Fixpoint process_rest (fuel : nat) (first_address : Z) (save_ptr : nat)
    (m : memory) (st : state) : option (memory * state) :=
  match fuel with
  | O => None
  | S fuel' =>
      let '(b, save_ptr', input) :=
        CMem.strtok_r ";"%char (buffer m) save_ptr in
      match input with
      | None => Some (with_buffer b m, st)
      | Some _ =>
          '(m', curr_address) ← address input (with_buffer b m);
          if curr_address =? first_address
          then process_rest fuel' first_address save_ptr' m' st
          else process_rest fuel' first_address save_ptr' m'
                 (update_max curr_address
                    (mkState (max_id st)
                       (edges st ++ [Edge.minmax first_address curr_address])))
      end
  end.

(** [process_inputs].  When the string holds no token the first [strtok_r]
    returns NULL, which is passed on to [strtok]. *)
Definition process_inputs (inputs : nat) (m : memory) (st : state)
  : option (memory * state) :=
  let '(b, save_ptr, input) := CMem.strtok_r ";"%char (buffer m) inputs in
  '(m', first_address) ← address input (with_buffer b m);
  process_rest (S (length (buffer m'))) first_address save_ptr m'
    (update_max first_address st).

(** The [for] loop of [process_outputs]; [s] is [outputs] in the first
    turn and the saved pointer in the later ones. *)
Fixpoint process_outputs_loop (fuel : nat) (s : nat) (m : memory) (st : state)
  : option (memory * state) :=
  match fuel with
  | O => None
  | S fuel' =>
      let '(b, save_ptr, output_str) := CMem.strtok_r ";"%char (buffer m) s in
      match output_str with
      | None => Some (with_buffer b m, st)
      | Some _ =>
          '(m', address) ← address output_str (with_buffer b m);
          process_outputs_loop fuel' save_ptr m' (update_max address st)
      end
  end.

Definition process_outputs (outputs : nat) (m : memory) (st : state)
  : option (memory * state) :=
  process_outputs_loop (S (length (buffer m))) outputs m st.

(** The [while] loop of [process_line]: of the colon-separated tokens, the
    second is the inputs and the third the outputs; an empty token is
    skipped.  [line_buf] is the parameter of [process_line], which
    [strsep] moves along the block. *)
Fixpoint process_line_loop (fuel : nat) (line_buf : option nat)
    (token_count : nat) (m : memory) (st : state) : option (memory * state) :=
  match fuel with
  | O => None
  | S fuel' =>
      let '(b, line_buf', token) := CMem.strsep ":"%char (buffer m) line_buf in
      match token with
      | None => Some (with_buffer b m, st)
      | Some token =>
          let filled := negb (is_char CMem.NUL (CMem.peek b token)) in
          '(m', st') ←
            match token_count with
            | 1%nat => if filled then process_inputs token (with_buffer b m) st
                       else Some (with_buffer b m, st)
            | 2%nat => if filled then process_outputs token (with_buffer b m) st
                       else Some (with_buffer b m, st)
            | _ => Some (with_buffer b m, st)
            end;
          process_line_loop fuel' line_buf' (S token_count) m' st'
      end
  end.

(** [process_line] on the line that [getline] has put at the start of the
    block. *)
Definition process_line (m : memory) (st : state) : option (memory * state) :=
  process_line_loop (S (S (length (buffer m)))) (Some 0%nat) 0 m st.

(** The loop of [main] over the lines of the input file. *)
Fixpoint process_lines (lines : list text) (m : memory) (st : state)
  : option (memory * state) :=
  match lines with
  | [] => Some (m, st)
  | l :: ls =>
      '(m', st') ← process_line (getline l m) st;
      process_lines ls m' st'
  end.

(** Before the first line: no block, and [strtok] has not been called. *)
Definition no_memory : memory := mkMemory [] 0 None.

(** The eight bytes written from [buf] after the two swaps. *)
Definition put_pair (host : byte_order) (a b : Z) : list byte :=
  store_int host (bswap32 a) ++ store_int host (bswap32 b).

(** The loop that writes the sorted edges and skips duplicates:
    [prev] is [edges[i-1]], absent when [i == 0]. *)
Fixpoint write_edges (host : byte_order) (prev : option Edge.t)
    (es : list Edge.t) (acc : FILE * Z) : FILE * Z :=
  match es with
  | [] => acc
  | e :: es' =>
      if decide (prev = Some e) then write_edges host (Some e) es' acc
      else write_edges host (Some e) es'
             (fwrite (put_pair host e.1 e.2) acc.1, Int32.add acc.2 1)
  end.

Record output := mkOutput { file : list byte; num_nodes : Z; num_edges : Z }.

(** The edges that one transaction adds: from the first input address to
    every later input address that differs from it. *)
Definition star_edges (first_address : Z) (rest : list Z) : list Edge.t :=
  Edge.minmax first_address
    <$> List.filter (fun a => negb (a =? first_address)) rest.

Definition line_edges (line : text) : list Edge.t :=
  match Tx.inputs line with
  | Some (a :: rest) => star_edges a rest
  | _ => []
  end.

(** The node that stands for an address of the stream in the edges and in
    the node count: the address itself. *)
Definition node_of (input : text) (a : Z) : option Z :=
  if decide (a ∈ Tx.observed input) then Some a else None.

(** The largest of [m] and the addresses [l]. *)
Definition max_with (m : Z) (l : list Z) : Z := foldl Z.max m l.

(** The edges that the loop keeps: an edge equal to its predecessor in the
    sorted vector is skipped. *)
Fixpoint unique_from (prev : option Edge.t) (es : list Edge.t) : list Edge.t :=
  match es with
  | [] => []
  | e :: es' =>
      if decide (prev = Some e) then unique_from (Some e) es'
      else e :: unique_from (Some e) es'
  end.

Definition written_edges (st : state) : list Edge.t :=
  unique_from None (Edge.sort (edges st)).

Definition encode_edges (host : byte_order) (es : list Edge.t) : list byte :=
  flat_map (fun e => put_pair host e.1 e.2) es.

Section Sort.
(** [std::sort]: the standard fixes the result up to the order of
    equivalent elements, not the algorithm. *)
Variable std_sort : list Edge.t -> list Edge.t.

(** [main], from the opened files on. *)
Definition main_with (host : byte_order) (input : text) : option output :=
  '(_, st) ← process_lines (getlines input) no_memory (mkState 0 []);
  let sorted := std_sort (edges st) in
  let num_nodes := Int32.add (max_id st) 1 in
  let '(f1, num_edges) :=
    write_edges host None sorted (fseek_set 8 fopen_w, 0) in
  let f2 := fwrite (put_pair host num_nodes num_edges) (fseek_set 0 f1) in
  Some (mkOutput (content f2) num_nodes num_edges).
End Sort.

Definition main : byte_order -> text -> option output := main_with Edge.sort.

End Builder.

(** ** The builder, version 0.2 (node map and edge set) *)

Module BuilderV02.
Import Bytes Codec CString Stdio.

(** [node_map_t nodes], [edge_set_t edges] and [int id_count] of [main]. *)
Record state := mkState {
  nodes : gmap Z Z;
  edges : gset Edge.t;
  id_count : Z
}.

(** Iteration over a [std::set<int>]: ascending. *)
Definition set_int_iter (s : gset Z) : list Z := merge_sort Z.le (elements s).

(** Iteration over a [std::set<pair<int,int>>]: ascending. *)
Definition edge_set_iter (s : gset Edge.t) : list Edge.t :=
  Edge.sort (elements s).

Definition contains_node (map : gmap Z Z) (address : Z) : Z :=
  match map !! address with
  | Some id => id
  | None => -1
  end.

(** The first loop of [process_inputs]: the set of the input addresses. *)
Fixpoint input_addresses (items : list text) (acc : gset Z) : option (gset Z) :=
  match items with
  | [] => Some acc
  | input_str :: items' =>
      address ← Tx.address_of input_str;
      input_addresses items' ({[address]} ∪ acc)
  end.

(** [nodes[a] = *id_count; *id_count = *id_count + 1;] *)
Definition add_node (a : Z) (st : state) : state :=
  mkState (<[a := id_count st]> (nodes st)) (edges st)
          (Int32.add (id_count st) 1).

Definition add_edge (e : Edge.t) (st : state) : state :=
  mkState (nodes st) ({[e]} ∪ edges st) (id_count st).

(** The second loop of [process_inputs]: a path through the addresses. *)
Fixpoint path_loop (addrs : list Z) (prev_id : Z) (st : state) : state :=
  match addrs with
  | [] => st
  | curr_addr :: addrs' =>
      let found := contains_node (nodes st) curr_addr in
      let st1 := if found =? -1 then add_node curr_addr st else st in
      let curr_id := if found =? -1 then id_count st else found in
      let st2 := if prev_id =? -1 then st1 else add_edge (prev_id, curr_id) st1 in
      path_loop addrs' curr_id st2
  end.

Definition process_inputs (inputs : text) (st : state) : option state :=
  addrs ← input_addresses (tokens ";"%char inputs) ∅;
  Some (path_loop (set_int_iter addrs) (-1) st).

Fixpoint process_outputs_loop (items : list text) (st : state) : option state :=
  match items with
  | [] => Some st
  | output_str :: items' =>
      address ← Tx.address_of output_str;
      process_outputs_loop items'
        (if contains_node (nodes st) address =? -1
         then add_node address st else st)
  end.

Definition process_outputs (outputs : text) (st : state) : option state :=
  process_outputs_loop (tokens ";"%char outputs) st.

Definition process_line (line_buf : text) (st : state) : option state :=
  let toks := fields ":"%char (cstr line_buf) in
  st1 ← match toks !! 1%nat with
        | Some (c :: s) => process_inputs (c :: s) st
        | _ => Some st
        end;
  match toks !! 2%nat with
  | Some (c :: s) => process_outputs (c :: s) st1
  | _ => Some st1
  end.

Fixpoint process_lines (lines : list text) (st : state) : option state :=
  match lines with
  | [] => Some st
  | l :: ls => st1 ← process_line l st; process_lines ls st1
  end.

(** The eight bytes written from [buf] after the two swaps, as in
    version 1.0. *)
Definition put_pair : byte_order -> Z -> Z -> list byte := Builder.put_pair.

Fixpoint write_edges (host : byte_order) (es : list Edge.t) (f : FILE) : FILE :=
  match es with
  | [] => f
  | e :: es' => write_edges host es' (fwrite (put_pair host e.1 e.2) f)
  end.

Record output := mkOutput {
  file : list byte;
  num_nodes : Z;
  num_edges : Z;
  final : state
}.

Definition initial : state := mkState ∅ ∅ 0.

(** The addresses in the order in which the node map is asked for them:
    for every line, the distinct inputs in ascending order, then the
    outputs in the order of the line. *)
Definition line_order (line : text) : list Z :=
  match Tx.inputs line, Tx.outputs line with
  | Some ins, Some outs => set_int_iter (list_to_set ins) ++ outs
  | _, _ => []
  end.

Definition processing_order (input : text) : list Z :=
  flat_map line_order (getlines input).

(** The distinct elements of a list in the order of their first
    occurrence. *)
Definition note (seen : list Z) (a : Z) : list Z :=
  if decide (a ∈ seen) then seen else seen ++ [a].

Definition first_occurrences (l : list Z) : list Z := foldl note [] l.

(** The node map numbers the addresses [seen] in that order from 0, and
    the counter is the next unused identifier. *)
Definition numbers (st : state) (seen : list Z) : Prop :=
  NoDup seen /\
  id_count st = Z.of_nat (length seen) /\
  forall a i, nodes st !! a = Some i <->
              0 <= i /\ seen !! Z.to_nat i = Some a.

(** Every edge of the set joins the nodes of two addresses, that of the
    smaller address first. *)
Definition edges_ascend (st : state) : Prop :=
  forall u v, (u, v) ∈ edges st ->
    exists a b, a < b /\ nodes st !! a = Some u /\ nodes st !! b = Some v.

Definition main (host : byte_order) (input : text) : option output :=
  st ← process_lines (getlines input) initial;
  let num_nodes := Int32.wrap (Z.of_nat (size (nodes st))) in
  let num_edges := Int32.wrap (Z.of_nat (size (edges st))) in
  let f1 := fwrite (put_pair host num_nodes num_edges) fopen_w in
  let f2 := write_edges host (edge_set_iter (edges st)) f1 in
  Some (mkOutput (content f2) num_nodes num_edges st).

End BuilderV02.


(** ** The builder, version 0.1: the output *)

Module BuilderV01.
Import Bytes Codec.

(** The two calls of [ostream::write] on [int_pair]: the memory image of
    the two [int]s, as it is. *)
Definition put_pair (host : byte_order) (a b : Z) : list byte :=
  store_int host a ++ store_int host b.

(** The file that [main] writes for [num_nodes], [num_edges] and the edges
    that [ListGraph::EdgeIt] yields. *)
Definition write_graph (host : byte_order) (num_nodes num_edges : Z)
    (es : list Edge.t) : list byte :=
  put_pair host num_nodes num_edges
    ++ flat_map (fun e => put_pair host e.1 e.2) es.

End BuilderV01.

(** ** Undirected graphs and connectivity *)

Module Graph.

(** A graph as the analyzers hold it: [vcount] nodes, numbered from 0, and
    the list of the edges added so far. *)
Record t := mk { vcount : nat; edge_list : list (nat * nat) }.

(** One step along an edge of [es], in either direction. *)
Definition adjacent {A} (es : list (A * A)) : relation A :=
  sc (fun u v => (u, v) ∈ es).

(** Two nodes are connected when some path of edges joins them. *)
Definition connected {A} (es : list (A * A)) : relation A :=
  rtc (adjacent es).

Definition valid_node (n : nat) (x : Z) : bool := (0 <=? x) && (x <? Z.of_nat n).

(** Every edge joins two nodes of the graph. *)
Definition well_formed (g : t) : Prop :=
  Forall (fun e => (e.1 < vcount g)%nat /\ (e.2 < vcount g)%nat) (edge_list g).

(** The consecutive pairs of an edge vector [u0; v0; u1; v1; ...]. *)
Fixpoint pairs (v : list Z) : list (nat * nat) :=
  match v with
  | a :: b :: v' => (Z.to_nat a, Z.to_nat b) :: pairs v'
  | _ => []
  end.

End Graph.

(** ** The connected-components engine *)

Module UnionFind.

(** Modelled from the spec: the connected-components routine itself is a
    call into a graph library ([igraph_connected_components],
    [lemon::connectedComponents]) whose code is not part of the repository.
    The design document describes the engine as a union-find over [N]
    elements with path compression and union by rank: every edge unites
    the sets of its endpoints, and the representative that [find] returns
    for a node is its component id.  The parent and rank arrays are lists
    indexed by node. *)
Record t := mk { parent : list nat; rank : list nat }.

Definition make (n : nat) : t := mk (seq 0 n) (replicate n 0%nat).

Definition rank_of (rk : list nat) (x : nat) : nat := default 0%nat (rk !! x).

(** The walk from [x] up to its representative.  A parent always has a
    larger rank than its child, so the largest rank bounds the walk. *)
Fixpoint find_root (fuel : nat) (p : list nat) (x : nat) : nat :=
  match fuel with
  | O => x
  | S fuel' =>
      match p !! x with
      | Some y => if (y =? x)%nat then x else find_root fuel' p y
      | None => x
      end
  end.

(** Path compression: every node on the walk from [x] is re-parented to
    the representative [r]. *)
Fixpoint compress (fuel : nat) (p : list nat) (x r : nat) : list nat :=
  match fuel with
  | O => p
  | S fuel' =>
      match p !! x with
      | Some y => if (y =? x)%nat then p else compress fuel' (<[x := r]> p) y r
      | None => p
      end
  end.

Definition fuel_of (u : t) : nat := S (max_list (rank u)).

Definition find (u : t) (x : nat) : t * nat :=
  let r := find_root (fuel_of u) (parent u) x in
  (mk (compress (fuel_of u) (parent u) x r) (rank u), r).

(** Union by rank of the sets of [x] and [y]. *)
Definition union (u : t) (x y : nat) : t :=
  let '(u1, rx) := find u x in
  let '(u2, ry) := find u1 y in
  if (rx =? ry)%nat then u2
  else if (rank_of (rank u2) rx <? rank_of (rank u2) ry)%nat
    then mk (<[rx := ry]> (parent u2)) (rank u2)
  else if (rank_of (rank u2) ry <? rank_of (rank u2) rx)%nat
    then mk (<[ry := rx]> (parent u2)) (rank u2)
  else mk (<[ry := rx]> (parent u2))
          (<[rx := S (rank_of (rank u2) rx)]> (rank u2)).

Fixpoint union_all (es : list (nat * nat)) (u : t) : t :=
  match es with
  | [] => u
  | (x, y) :: es' => union_all es' (union u x y)
  end.

(** The representatives of the nodes [xs], found one after the other. *)
Fixpoint find_all (xs : list nat) (u : t) : list nat :=
  match xs with
  | [] => []
  | x :: xs' => let '(u', r) := find u x in r :: find_all xs' u'
  end.

(** The component id of every node of the graph, by node id. *)
Definition connected_components (g : Graph.t) : list nat :=
  find_all (seq 0 (Graph.vcount g))
           (union_all (Graph.edge_list g) (make (Graph.vcount g))).

(** [root_of p x r]: the parent links of [p] lead from [x] to [r], and [r]
    is its own parent. *)
Inductive root_of (p : list nat) : nat -> nat -> Prop :=
| root_here x : p !! x = Some x -> root_of p x x
| root_step x y r :
    p !! x = Some y -> y <> x -> root_of p y r -> root_of p x r.

(** The invariant of the structure: one rank per element, every parent an
    element, and a parent other than the element itself of larger rank. *)
Definition ranked (u : t) : Prop :=
  length (rank u) = length (parent u) /\
  forall x y : nat, parent u !! x = Some y ->
    (y < length (parent u))%nat /\
    (y <> x -> (rank_of (rank u) x < rank_of (rank u) y)%nat).

(** Two elements are in the same set when they have the same
    representative. *)
Definition same_set (u : t) (x y : nat) : Prop :=
  exists r, root_of (parent u) x r /\ root_of (parent u) y r.

(** The structure after the edges [es]: the sets are the classes of
    connectivity among the [n] elements. *)
Definition partitions (n : nat) (es : list (nat * nat)) (u : t) : Prop :=
  ranked u /\ length (parent u) = n /\
  forall x y : nat, (x < n)%nat -> (y < n)%nat ->
    (same_set u x y <-> Graph.connected es x y).

End UnionFind.

(** ** Binary input files and the clustering output *)

Module Input.
Import Bytes Codec.

(** What successive reads of eight bytes consume: the file in blocks of
    eight bytes, the last one shorter when the size is not a multiple. *)
Fixpoint blocks (fuel : nat) (s : list byte) : list (list byte) :=
  match fuel with
  | O => []
  | S fuel' =>
      match s with
      | [] => []
      | _ :: _ => take 8 s :: blocks fuel' (drop 8 s)
      end
  end.

Definition read_blocks (s : list byte) : list (list byte) :=
  blocks (length s) s.

(** [buf[0]] and [buf[1]] of an eight-byte buffer. *)
Definition buf0 (host : byte_order) (buf : list byte) : Z :=
  load_int host (take 4 buf).
Definition buf1 (host : byte_order) (buf : list byte) : Z :=
  load_int host (take 4 (drop 4 buf)).

(** The pairs of [int]s that a reader gets from the whole eight-byte blocks
    of a file, each [int] passed through [decode]. *)
Definition int_pairs (host : byte_order) (decode : Z -> Z) (s : list byte)
  : list (Z * Z) :=
  (fun buf => (decode (buf0 host buf), decode (buf1 host buf)))
    <$> List.filter (fun buf => (8 <=? length buf)%nat) (read_blocks s).

(** A line of the clustering file. *)
Inductive csv_line : Set :=
| Header (text : string)
| Row (node_id comp_id : Z).

(** The node identifiers of the rows of a clustering file, in order. *)
Fixpoint node_column (out : list csv_line) : list Z :=
  match out with
  | [] => []
  | Header _ :: out' => node_column out'
  | Row n _ :: out' => n :: node_column out'
  end.

End Input.

(** ** The analyzer, version 1.0 ([clustering.cpp]) *)

Module Clustering.
Import Bytes Codec CString Input.

(** The graph library, as far as the program relies on it: creation of a
    graph and of a vector fail on a negative size, and adding edges fails
    when an endpoint is not a node of the graph.  A failure ends the
    program (the library's default error handler aborts). *)
Definition igraph_empty (n : Z) : option Graph.t :=
  if n <? 0 then None else Some (Graph.mk (Z.to_nat n) []).

Definition igraph_vector_int_init (size : Z) : option (list Z) :=
  if size <? 0 then None else Some (replicate (Z.to_nat size) 0).

Definition igraph_add_edges (g : Graph.t) (edges : list Z) : option Graph.t :=
  if forallb (Graph.valid_node (Graph.vcount g)) edges
  then Some (Graph.mk (Graph.vcount g) (Graph.edge_list g ++ Graph.pairs edges))
  else None.

Definition igraph_vcount (g : Graph.t) : Z := Z.of_nat (Graph.vcount g).

Definition igraph_connected_components (g : Graph.t) : list Z :=
  Z.of_nat <$> UnionFind.connected_components g.

(** The [while] loop of [read_graph_binary].  [fread] overwrites the start
    of [buf] with the block and returns the number of whole [int]s read;
    the two stores into the vector are unchecked, so a store past its end
    has no result. *)
Fixpoint read_edges (host : byte_order) (blks : list (list byte))
    (buf : list byte) (i : nat) (edges : list Z) : option (list Z) :=
  match blks with
  | [] => Some edges
  | blk :: blks' =>
      let buf' := blk ++ drop (length blk) buf in
      if (length blk <? 4)%nat then Some edges
      else if (S i <? length edges)%nat then
        read_edges host blks' buf' (i + 2)
          (<[S i := bswap32 (buf1 host buf')]>
             (<[i := bswap32 (buf0 host buf')]> edges))
      else None
  end.

(** [read_graph_binary].  The buffer is not initialised, so a header of
    fewer than eight bytes has no result. *)
Definition read_graph_binary (host : byte_order) (input_file : list byte)
    (forced_nodes : Z) : option Graph.t :=
  match read_blocks input_file with
  | [] => None
  | buf :: blks =>
      if (length buf <? 8)%nat then None
      else
        let num_nodes :=
          if forced_nodes =? 0 then bswap32 (buf0 host buf) else forced_nodes in
        let num_edges := bswap32 (buf1 host buf) in
        graph ← igraph_empty num_nodes;
        edges ← igraph_vector_int_init (Int32.mul 2 num_edges);
        edges' ← read_edges host blks buf 0 edges;
        igraph_add_edges graph edges'
  end.

(** The loop of [read_graph_binary] on whole records, in terms of the pairs
    of [int]s read. *)
Fixpoint store_edges (es : list (Z * Z)) (i : nat) (edges : list Z)
  : option (list Z) :=
  match es with
  | [] => Some edges
  | (u, v) :: es' =>
      if (S i <? length edges)%nat
      then store_edges es' (i + 2) (<[S i := v]> (<[i := u]> edges))
      else None
  end.

(** The graph that [read_graph_binary] makes of a node count, an edge count
    and the pairs read. *)
Definition build (num_nodes num_edges : Z) (es : list (Z * Z)) : option Graph.t :=
  graph ← igraph_empty num_nodes;
  edges ← igraph_vector_int_init (Int32.mul 2 num_edges);
  edges' ← store_edges es 0 edges;
  igraph_add_edges graph edges'.

(** An edge list as the vector [u0; v0; u1; v1; ...]. *)
Definition flatten (es : list (Z * Z)) : list Z :=
  flat_map (fun e => [e.1; e.2]) es.

(** The rows of the output loop, for [i] from 0 up to [num_nodes]. *)
Definition rows (num_nodes : Z) (comp_map : list Z) : list csv_line :=
  (fun i : nat => Row (Z.of_nat i) (default 0 (comp_map !! i)))
    <$> seq 0 (Z.to_nat num_nodes).

(** [main], from the opened files on; [argv3] is the optional third
    argument. *)
Definition num_addresses (argv3 : option text) : Z :=
  match argv3 with Some s => atoi s | None => 0 end.

Definition main (host : byte_order) (argv3 : option text)
    (input_file : list byte) : option (list csv_line) :=
  graph ← read_graph_binary host input_file (num_addresses argv3);
  let num_nodes := igraph_vcount graph in
  let comp_map := igraph_connected_components graph in
  Some (Header "node_id,comp_id" :: rows num_nodes comp_map).

End Clustering.

(** ** The analyzers, versions 0.2 ([analyzer.cpp]) and 0.1 *)

Module Lemon.
Import Bytes Codec Input.

(** The graph library, as far as the programs rely on it:
    [reserveNode]/[reserveEdge] reserve vector capacity and fail on a
    negative count, and [addEdge] has no result on an identifier that is
    not a node of the graph. *)
Definition reserve (n : Z) : option unit :=
  if n <? 0 then None else Some ().

Definition addEdge (g : Graph.t) (u v : Z) : option Graph.t :=
  if Graph.valid_node (Graph.vcount g) u && Graph.valid_node (Graph.vcount g) v
  then Some (Graph.mk (Graph.vcount g)
               (Graph.edge_list g ++ [(Z.to_nat u, Z.to_nat v)]))
  else None.

Definition connectedComponents (g : Graph.t) : list Z :=
  Z.of_nat <$> UnionFind.connected_components g.

Fixpoint add_edges (es : list (Z * Z)) (g : Graph.t) : option Graph.t :=
  match es with
  | [] => Some g
  | (u, v) :: es' => g' ← addEdge g u v; add_edges es' g'
  end.

(** The graph that the program makes of a node count, an edge count and
    the pairs read. *)
Definition build (num_nodes num_edges : Z) (es : list (Z * Z)) : option Graph.t :=
  _ ← reserve num_nodes;
  _ ← reserve (Int32.mul 2 num_edges);
  add_edges es (Graph.mk (Z.to_nat num_nodes) []).

(** [ListGraph::addNode] links the new node in at the head of the list of
    nodes, and [ListGraph::NodeIt] walks that list from its head: the nodes
    of a graph made by [n] calls of [addNode] are visited last one first. *)
Definition node_list (n : nat) : list nat := rev (seq 0 n).

Section Main.
(** [decode] is what the program applies to an [int] it has read:
    [__builtin_bswap32] in version 0.2, nothing in version 0.1. *)
Variable decode : Z -> Z.
(** The identifiers of the nodes of a graph of [n] nodes in the order in
    which [ListGraph::NodeIt] visits them; in the library it is
    [node_list]. *)
Variable NodeIt : nat -> list nat.
Variable host : byte_order.

(** The [while] loop: [istream::read] fails on fewer than eight bytes. *)
Fixpoint read_edges (blks : list (list byte)) (g : Graph.t) : option Graph.t :=
  match blks with
  | [] => Some g
  | buf :: blks' =>
      if (length buf <? 8)%nat then Some g
      else
        g' ← addEdge g (decode (buf0 host buf)) (decode (buf1 host buf));
        read_edges blks' g'
  end.

Definition read_graph (input_file : list byte) : option Graph.t :=
  match read_blocks input_file with
  | [] => None
  | buf :: blks =>
      if (length buf <? 8)%nat then None
      else
        let num_nodes := decode (buf0 host buf) in
        let num_edges := decode (buf1 host buf) in
        _ ← reserve num_nodes;
        _ ← reserve (Int32.mul 2 num_edges);
        read_edges blks (Graph.mk (Z.to_nat num_nodes) [])
  end.

Definition rows (g : Graph.t) (comp_map : list Z) : list csv_line :=
  (fun n : nat => Row (Z.of_nat n) (default 0 (comp_map !! n)))
    <$> NodeIt (Graph.vcount g).

Definition main (input_file : list byte) : option (list csv_line) :=
  graph ← read_graph input_file;
  Some (rows graph (connectedComponents graph)).
End Main.

End Lemon.

Module Analyzer.
(** [analyzer.cpp], version 0.2. *)
Definition read_graph := Lemon.read_graph Codec.bswap32.
Definition main := Lemon.main Codec.bswap32.
End Analyzer.

Module AnalyzerV01.
(** [analyzer.cc], version 0.1. *)
Definition read_graph := Lemon.read_graph (fun x => x).
Definition main := Lemon.main (fun x => x).
End AnalyzerV01.


(** ** Sample inputs *)

Module Samples.
Import CString.

(** Two transactions: inputs 5, 7, 5 and output 9; inputs 7, 3 and output 5. *)
Definition sample_stream : text :=
  txt "t1:5,10;7,20;5,30:9,1
t2:7,1;3,1:5,2
".

(** The first line of [sample_stream], as [getline] returns it. *)
Definition sample_line : text :=
  txt "t1:5,10;7,20;5,30:9,1
".

(** The rest of a graph file after the node count: edge count 2 and the
    edges (0,1) and (1,2), as version 1.0 of the builder writes them on a
    little-endian machine. *)
Definition small_graph_body : list Bytes.byte :=
  Codec.store_int Codec.LittleEndian (Codec.bswap32 2)
    ++ Builder.encode_edges Codec.LittleEndian [(0, 1); (1, 2)].

(** A graph file of three nodes and the edges (0,1) and (1,2). *)
Definition small_graph_header : list Bytes.byte :=
  Builder.put_pair Codec.LittleEndian 3 2.

Definition small_graph_records : list (list Bytes.byte) :=
  [Builder.put_pair Codec.LittleEndian 0 1;
   Builder.put_pair Codec.LittleEndian 1 2].

(** A graph file of four nodes and the edges (0,1) and (2,3). *)
Definition two_pairs_file : list Bytes.byte :=
  Builder.put_pair Codec.LittleEndian 4 2
    ++ Builder.encode_edges Codec.LittleEndian [(0, 1); (2, 3)].

(** Two lines, the second with an inputs field of one semicolon: the amount
    50 of the last output of the first line is still in the line buffer
    when the second line is read. *)
Definition stale_stream : text :=
  txt "t1:1,2:3,50
t:;:
".

(** The same with the amount 2147483647. *)
Definition stale_large_stream : text :=
  txt "t1:1,2:3,2147483647
t:;:
".

(** A transaction whose first input item starts with letters. *)
Definition malformed_line : text :=
  txt "t1:abc,10;7,20:9,1
".

Definition malformed_stream : text := malformed_line.

(** The header of a graph file of three nodes that announces seven edge
    records. *)
Definition seven_edges_header : list Bytes.byte :=
  Builder.put_pair Codec.LittleEndian 3 7.

End Samples.

(** * Properties *)

Module Steps.

Lemma bind_some {A B} (x : A) (f : A -> option B) : Some x ≫= f = f x.
Proof. reflexivity. Qed.

Lemma bind_none {A B} (f : A -> option B) : None ≫= f = None.
Proof. reflexivity. Qed.

Lemma full_block {A} (b : list A) :
  length b = 8%nat -> (length b <? 8)%nat = false.
Proof. now intros ->. Qed.

Lemma whole_int {A} (b : list A) :
  length b = 8%nat -> (length b <? 4)%nat = false.
Proof. now intros ->. Qed.

(** A property decided by a boolean test holds of every element of a list
    on which the test succeeds everywhere. *)
Lemma Forall_by_test {A} (f : A -> bool) (l : list A) :
  forallb f l = true -> Forall (fun x => f x = true) l.
Proof.
  intros H. apply Forall_forall. intros x Hx. apply list_elem_of_In in Hx.
  rewrite forallb_forall in H. auto.
Qed.

End Steps.

Module Int32Facts.
Import Int32.

Lemma wrap_in_range x : in_range (wrap x).
Proof.
  unfold in_range, wrap, INT_MIN, INT_MAX, half_modulus, modulus.
  pose proof (Z.mod_pos_bound (x + 2 ^ 31) (2 ^ 32)). lia.
Qed.

Lemma wrap_id x : in_range x -> wrap x = x.
Proof.
  unfold in_range, wrap, INT_MIN, INT_MAX, half_modulus, modulus. intros H.
  rewrite Z.mod_small; lia.
Qed.

Lemma wrap_to_unsigned x : in_range x -> wrap (to_unsigned x) = x.
Proof.
  unfold in_range, wrap, to_unsigned, INT_MIN, INT_MAX, half_modulus, modulus.
  intros H. Z.div_mod_to_equations. lia.
Qed.

Lemma to_unsigned_wrap u : 0 <= u < modulus -> to_unsigned (wrap u) = u.
Proof.
  unfold wrap, to_unsigned, half_modulus, modulus. intros H.
  Z.div_mod_to_equations. lia.
Qed.

End Int32Facts.

Module BytesFacts.
Import Bytes.

Lemma Z_of_byte_range b : 0 <= Z_of_byte b < 256.
Proof. unfold Z_of_byte. pose proof (Byte.to_N_bounded b). lia. Qed.

Lemma Z_of_byte_of_Z z : Z_of_byte (byte_of_Z z) = z mod 256.
Proof.
  unfold Z_of_byte, byte_of_Z.
  pose proof (Z.mod_pos_bound z 256 eq_refl) as Hb.
  pose proof (Byte.to_of_N_option_map (Z.to_N (z mod 256))) as Ho.
  destruct (Byte.of_N (Z.to_N (z mod 256))) as [b|] eqn:E; simpl in Ho.
  - destruct (N.leb_spec (Z.to_N (z mod 256)) 255); [|discriminate].
    injection Ho as ->. lia.
  - destruct (N.leb_spec (Z.to_N (z mod 256)) 255); [discriminate|lia].
Qed.

Lemma byte_of_Z_of_byte b : byte_of_Z (Z_of_byte b) = b.
Proof.
  unfold byte_of_Z, Z_of_byte. pose proof (Byte.to_N_bounded b).
  rewrite Z.mod_small by lia. rewrite N2Z.id, Byte.of_to_N. reflexivity.
Qed.

Lemma length_le_bytes n u : length (le_bytes n u) = n.
Proof. revert u; induction n; intros; simpl; auto. Qed.

Lemma le_value_range bs : 0 <= le_value bs < 256 ^ Z.of_nat (length bs).
Proof.
  induction bs as [|b bs IH]; [simpl; lia|].
  cbn [le_value length]. rewrite Nat2Z.inj_succ, Z.pow_succ_r by lia.
  pose proof (Z_of_byte_range b). lia.
Qed.

Lemma le_value_le_bytes n u :
  le_value (le_bytes n u) = u mod 256 ^ Z.of_nat n.
Proof.
  revert u; induction n as [|n IH]; intros u.
  - simpl. now rewrite Z.mod_1_r.
  - cbn [le_bytes le_value]. rewrite IH, Z_of_byte_of_Z.
    rewrite Nat2Z.inj_succ, Z.pow_succ_r by lia.
    rewrite Z.rem_mul_r by lia. reflexivity.
Qed.

Lemma le_bytes_le_value bs : le_bytes (length bs) (le_value bs) = bs.
Proof.
  induction bs as [|b bs IH]; [reflexivity|].
  cbn [length le_bytes le_value]. pose proof (Z_of_byte_range b) as Hb.
  assert (Hm : (Z_of_byte b + 256 * le_value bs) mod 256 = Z_of_byte b)
    by (Z.div_mod_to_equations; lia).
  assert (Hd : (Z_of_byte b + 256 * le_value bs) / 256 = le_value bs)
    by (Z.div_mod_to_equations; lia).
  rewrite Hd, IH. f_equal.
  rewrite <- (byte_of_Z_of_byte b) at 2. unfold byte_of_Z.
  rewrite Hm, Z.mod_small by lia. reflexivity.
Qed.

End BytesFacts.

Module CodecFacts.
Import Bytes Codec BytesFacts.

Lemma length_store_int host x : length (store_int host x) = 4%nat.
Proof. destruct host; reflexivity. Qed.

Lemma le_value_4_range bs : length bs = 4%nat -> 0 <= le_value bs < Int32.modulus.
Proof.
  intros H. pose proof (le_value_range bs) as Hr. rewrite H in Hr.
  exact Hr.
Qed.

Lemma to_unsigned_range x : 0 <= Int32.to_unsigned x < Int32.modulus.
Proof. apply Z.mod_pos_bound. reflexivity. Qed.

Lemma le_bytes_4_unsigned x :
  le_value (le_bytes 4 (Int32.to_unsigned x)) = Int32.to_unsigned x.
Proof.
  rewrite le_value_le_bytes. apply Z.mod_small. apply to_unsigned_range.
Qed.

Lemma load_store host x : Int32.in_range x -> load_int host (store_int host x) = x.
Proof.
  intros Hx. unfold load_int, store_int. destruct host.
  - rewrite le_bytes_4_unsigned. now apply Int32Facts.wrap_to_unsigned.
  - rewrite rev_involutive, le_bytes_4_unsigned. now apply Int32Facts.wrap_to_unsigned.
Qed.

Lemma store_load host bs : length bs = 4%nat -> store_int host (load_int host bs) = bs.
Proof.
  intros Hl. unfold load_int, store_int. destruct host.
  - rewrite Int32Facts.to_unsigned_wrap by now apply le_value_4_range.
    rewrite <- Hl. apply le_bytes_le_value.
  - rewrite Int32Facts.to_unsigned_wrap
      by (apply le_value_4_range; now rewrite length_rev).
    replace 4%nat with (length (rev bs)) by now rewrite length_rev.
    rewrite le_bytes_le_value. apply rev_involutive.
Qed.

Lemma bswap32_in_range x : Int32.in_range (bswap32 x).
Proof. apply Int32Facts.wrap_in_range. Qed.

Lemma bswap32_involutive x : Int32.in_range x -> bswap32 (bswap32 x) = x.
Proof.
  intros Hx. unfold bswap32.
  rewrite (store_load LittleEndian) by now rewrite length_rev, length_store_int.
  rewrite rev_involutive. now apply load_store.
Qed.

(** On a little-endian machine the stored image of a swapped value is the
    big-endian image of the value, and conversely. *)
Lemma store_bswap32 host x :
  store_int host (bswap32 x) = rev (store_int host x).
Proof.
  assert (HL : store_int LittleEndian (bswap32 x) = rev (store_int LittleEndian x)).
  { unfold bswap32. apply store_load. now rewrite length_rev, length_store_int. }
  destruct host; [exact HL|].
  change (store_int BigEndian (bswap32 x))
    with (rev (store_int LittleEndian (bswap32 x))).
  now rewrite HL.
Qed.

Lemma load_bswap32 host bs :
  length bs = 4%nat -> bswap32 (load_int host bs) = load_int host (rev bs).
Proof.
  intros Hl. unfold bswap32.
  assert (HL : forall cs, length cs = 4%nat ->
    load_int LittleEndian (rev (store_int LittleEndian (load_int LittleEndian cs)))
    = load_int LittleEndian (rev cs)).
  { intros cs Hc. now rewrite (store_load LittleEndian). }
  destruct host; [now apply HL|].
  change (load_int BigEndian bs) with (load_int LittleEndian (rev bs)).
  rewrite HL by now rewrite length_rev. reflexivity.
Qed.

(** What a reader that swaps gets back from what a writer that swaps put. *)
Lemma swapped_round_trip host x :
  Int32.in_range x -> bswap32 (load_int host (store_int host (bswap32 x))) = x.
Proof.
  intros Hx. rewrite load_store by apply bswap32_in_range.
  now apply bswap32_involutive.
Qed.

End CodecFacts.

Module CStringFacts.
Import CString.

Lemma atoi_in_range s : Int32.in_range (atoi s).
Proof. apply Int32Facts.wrap_in_range. Qed.

Example getlines_ex :
  getlines (txt "a:1:2
b:3:4") = [txt "a:1:2
"; txt "b:3:4"].
Proof. reflexivity. Qed.

Example fields_ex : fields ":"%char (txt "m::7,1") = [txt "m"; []; txt "7,1"].
Proof. reflexivity. Qed.

Example tokens_ex : tokens ";"%char (txt ";5,1;;6,2;") = [txt "5,1"; txt "6,2"].
Proof. reflexivity. Qed.

Example atoi_ex :
  atoi (txt "  -42x") = -42 /\ atoi (txt "abc") = 0 /\ atoi (txt "12abc") = 12.
Proof. repeat split; reflexivity. Qed.

End CStringFacts.

Module StdioFacts.
Import Bytes Stdio.

Lemma fwrite_at_end bs f :
  position f = length (content f) ->
  fwrite bs f = mkFILE (content f ++ bs) (length (content f ++ bs)).
Proof.
  intros Hp. unfold fwrite. rewrite Hp, Nat.sub_diag. simpl.
  rewrite app_nil_r, firstn_all, drop_ge by lia.
  now rewrite app_nil_r, length_app.
Qed.

Lemma fwrite_in_gap bs f :
  content f = [] ->
  fwrite bs f = mkFILE (replicate (position f) Byte.x00 ++ bs)
                       (length (replicate (position f) Byte.x00 ++ bs)).
Proof.
  intros Hc. unfold fwrite. rewrite Hc. simpl. rewrite Nat.sub_0_r.
  rewrite take_ge by now rewrite length_replicate.
  rewrite drop_ge by (rewrite length_replicate; lia).
  now rewrite app_nil_r, length_app, length_replicate.
Qed.

Lemma fwrite_over_prefix bs old rest :
  length old = length bs ->
  fwrite bs (mkFILE (old ++ rest) 0) = mkFILE (bs ++ rest) (length bs).
Proof.
  intros Hl. unfold fwrite. cbn [content position Nat.sub Nat.add replicate].
  rewrite app_nil_r, <- Hl, drop_app_length. reflexivity.
Qed.

End StdioFacts.

Module EdgeFacts.
Import Edge.

#[export] Instance le_total : Total le.
Proof. intros [a1 a2] [b1 b2]. unfold le. simpl. lia. Qed.

#[export] Instance le_trans : Transitive le.
Proof. intros [a1 a2] [b1 b2] [c1 c2]. unfold le. simpl. lia. Qed.

#[export] Instance le_antisymm : AntiSymm (=) le.
Proof.
  intros [a1 a2] [b1 b2]. unfold le. simpl. intros H1 H2. f_equal; lia.
Qed.

Lemma sort_unique (l s : list t) :
  Sorted le s -> s ≡ₚ l -> s = sort l.
Proof.
  intros Hs Hp. apply (Sorted_unique le); auto.
  - apply Sorted_merge_sort. apply _.
  - unfold sort. now rewrite merge_sort_Permutation.
Qed.

End EdgeFacts.

Module BuilderFacts.
Import Bytes Codec CString Stdio Builder.

Lemma add_wrap a b : Int32.add (Int32.wrap a) b = Int32.wrap (a + b).
Proof.
  unfold Int32.add, Int32.wrap, Int32.half_modulus, Int32.modulus.
  Z.div_mod_to_equations. lia.
Qed.

Lemma length_put_pair host a b : length (put_pair host a b) = 8%nat.
Proof.
  unfold put_pair. now rewrite length_app, !CodecFacts.length_store_int.
Qed.

(** Once the position is the end of the file, the loop appends the kept
    edges and counts them. *)
Lemma write_edges_at_end host es : forall prev f k,
  position f = length (content f) ->
  write_edges host prev es (f, Int32.wrap k) =
    (mkFILE (content f ++ encode_edges host (unique_from prev es))
            (length (content f ++ encode_edges host (unique_from prev es))),
     Int32.wrap (k + Z.of_nat (length (unique_from prev es)))).
Proof.
  induction es as [|e es IH]; intros prev f k Hp.
  - cbn. rewrite app_nil_r, Z.add_0_r, <- Hp. now destruct f.
  - cbn [write_edges unique_from]. destruct (decide (prev = Some e)).
    + now apply IH.
    + cbn [fst snd]. rewrite add_wrap, (StdioFacts.fwrite_at_end _ _ Hp).
      rewrite IH by reflexivity. cbn [content encode_edges flat_map length].
      rewrite <- !app_assoc.
      replace (k + 1 + Z.of_nat (length (unique_from (Some e) es)))
        with (k + Z.of_nat (S (length (unique_from (Some e) es)))) by lia.
      reflexivity.
Qed.

(** The edge loop of [main] followed by the write of the header. *)
Lemma write_graph host es n :
  let '(f1, m) := write_edges host None es (fseek_set 8 fopen_w, 0) in
  m = Int32.wrap (Z.of_nat (length (unique_from None es))) /\
  content (fwrite (put_pair host n m) (fseek_set 0 f1)) =
    put_pair host n m ++ encode_edges host (unique_from None es).
Proof.
  destruct es as [|e es].
  - cbn [write_edges unique_from length encode_edges flat_map].
    split; [reflexivity|]. rewrite StdioFacts.fwrite_in_gap by reflexivity.
    cbn. now rewrite app_nil_r.
  - cbn [write_edges unique_from]. destruct (decide (None = Some e)); [discriminate|].
    cbn [fst snd]. rewrite StdioFacts.fwrite_in_gap by reflexivity.
    change (Int32.add 0 1) with (Int32.wrap 1).
    rewrite write_edges_at_end by reflexivity.
    split.
    + f_equal. cbn [length]. lia.
    + cbn [content position fseek_set fopen_w].
      rewrite <- app_assoc. unfold fseek_set. cbn [content].
      rewrite StdioFacts.fwrite_over_prefix
        by now rewrite length_replicate, length_put_pair.
      reflexivity.
Qed.

(** What [main] returns, in terms of the state after the last line. *)
Lemma main_spec host input o :
  main host input = Some o ->
  exists m st,
    process_lines (getlines input) no_memory (mkState 0 []) = Some (m, st) /\
    num_nodes o = Int32.add (max_id st) 1 /\
    num_edges o = Int32.wrap (Z.of_nat (length (written_edges st))) /\
    file o = put_pair host (num_nodes o) (num_edges o)
               ++ encode_edges host (written_edges st).
Proof.
  unfold main, main_with. intros H.
  destruct (process_lines (getlines input) no_memory (mkState 0 []))
    as [[mem st]|] eqn:E; [|discriminate].
  rewrite Steps.bind_some in H. exists mem, st. split; [reflexivity|].
  pose proof (write_graph host (Edge.sort (edges st)) (Int32.add (max_id st) 1)) as W.
  destruct (write_edges host None (Edge.sort (edges st)) (fseek_set 8 fopen_w, 0))
    as [f1 m].
  destruct W as [Wm Wc]. injection H as <-. cbn [num_nodes num_edges file].
  unfold written_edges. rewrite <- Wm. auto.
Qed.

Lemma main_total host input m st :
  process_lines (getlines input) no_memory (mkState 0 []) = Some (m, st) ->
  is_Some (main host input).
Proof.
  intros E. unfold main, main_with. rewrite E, Steps.bind_some.
  destruct (write_edges host None (Edge.sort (edges st)) (fseek_set 8 fopen_w, 0)).
  eauto.
Qed.

End BuilderFacts.

Module InputFacts.
Import Bytes Codec Input.

Lemma blocks_fuel : forall n m (s : list byte),
  (length s <= n)%nat -> (length s <= m)%nat -> blocks n s = blocks m s.
Proof.
  induction n as [|n IH]; intros m s Hn Hm.
  - destruct s; [|simpl in Hn; lia]. now destruct m.
  - destruct m as [|m]; [destruct s; [reflexivity|simpl in Hm; lia]|].
    destruct s as [|b s]; [reflexivity|].
    cbn [blocks]. f_equal.
    apply IH; rewrite length_drop; simpl in *; lia.
Qed.

Lemma read_blocks_nil : read_blocks [] = [].
Proof. reflexivity. Qed.

Lemma blocks_cons n x (s : list byte) :
  blocks (S n) (x :: s) = take 8 (x :: s) :: blocks n (drop 8 (x :: s)).
Proof. reflexivity. Qed.

Lemma read_blocks_app (b s : list byte) :
  length b = 8%nat -> read_blocks (b ++ s) = b :: read_blocks s.
Proof.
  intros Hb. unfold read_blocks.
  destruct b as [|x b]; [discriminate|].
  rewrite length_app, Hb.
  change (8 + length s)%nat with (S (7 + length s)).
  change ((x :: b) ++ s) with (x :: (b ++ s)). rewrite blocks_cons.
  change (x :: b ++ s) with ((x :: b) ++ s).
  rewrite take_app_length' by now symmetry.
  rewrite drop_app_length' by now symmetry.
  f_equal. apply blocks_fuel; lia.
Qed.

Lemma length_read_block (s : list byte) :
  Forall (fun b => (1 <= length b <= 8)%nat) (read_blocks s).
Proof.
  unfold read_blocks. generalize (length s) as n. intros n; revert s.
  induction n as [|n IH]; intros s; [constructor|].
  destruct s as [|x s]; [constructor|]. cbn [blocks].
  constructor; [|apply IH].
  rewrite length_take. cbn [length]. lia.
Qed.

Lemma int_pairs_app host decode (b s : list byte) :
  length b = 8%nat ->
  int_pairs host decode (b ++ s) =
    (decode (buf0 host b), decode (buf1 host b)) :: int_pairs host decode s.
Proof.
  intros Hb. unfold int_pairs. rewrite read_blocks_app by exact Hb.
  cbn [List.filter]. rewrite Hb. reflexivity.
Qed.

Lemma buf0_app host (a b : list byte) :
  length a = 4%nat -> buf0 host (a ++ b) = load_int host a.
Proof. intros Ha. unfold buf0. now rewrite take_app_length' by now symmetry. Qed.

Lemma buf1_app host (a b : list byte) :
  length a = 4%nat -> length b = 4%nat -> buf1 host (a ++ b) = load_int host b.
Proof.
  intros Ha Hb. unfold buf1. rewrite drop_app_length' by now symmetry.
  now rewrite take_ge by lia.
Qed.

(** Reading with a swap what was written with a swap. *)
Lemma buf_put_pair host a b :
  Int32.in_range a -> Int32.in_range b ->
  bswap32 (buf0 host (Builder.put_pair host a b)) = a /\
  bswap32 (buf1 host (Builder.put_pair host a b)) = b.
Proof.
  intros Ha Hb. unfold Builder.put_pair.
  rewrite buf0_app, buf1_app by apply CodecFacts.length_store_int.
  split; now apply CodecFacts.swapped_round_trip.
Qed.

Lemma int_pairs_encode_edges host (es : list Edge.t) :
  Forall (fun e => Int32.in_range e.1 /\ Int32.in_range e.2) es ->
  int_pairs host bswap32 (Builder.encode_edges host es) = es.
Proof.
  induction 1 as [|[u v] es [Hu Hv] _ IH]; [reflexivity|].
  cbn [Builder.encode_edges flat_map fst snd].
  rewrite int_pairs_app by apply BuilderFacts.length_put_pair.
  destruct (buf_put_pair host u v Hu Hv) as [-> ->].
  cbn [fst snd]. f_equal. exact IH.
Qed.

End InputFacts.

Module TxFacts.
Import CString Tx.

Lemma address_of_in_range item a : address_of item = Some a -> Int32.in_range a.
Proof.
  unfold address_of. destruct (strtok _ item); [|discriminate].
  intros [= <-]. apply CStringFacts.atoi_in_range.
Qed.

Lemma addresses_of_in_range items l :
  addresses_of items = Some l -> Forall Int32.in_range l.
Proof.
  revert l. induction items as [|it items IH]; intros l H.
  - injection H as <-. constructor.
  - cbn in H. destruct (address_of it) as [a|] eqn:Ea; [|discriminate].
    destruct (addresses_of items) as [l'|]; [|discriminate].
    cbn in H. injection H as <-. constructor; eauto using address_of_in_range.
Qed.

Lemma tokens_nil d : tokens d [] = [].
Proof. reflexivity. Qed.

(** The field that [process_line] passes on, by cases. *)
Lemma field_cases k line :
  (field k line = [] /\
     forall c s, fields ":"%char (cstr line) !! k <> Some (c :: s)) \/
  (exists c s, field k line = c :: s /\
     fields ":"%char (cstr line) !! k = Some (c :: s)).
Proof.
  unfold field. destruct (fields ":"%char (cstr line) !! k) as [[|c s]|].
  - left. split; [reflexivity|]. intros c s; discriminate.
  - right. eauto.
  - left. split; [reflexivity|]. intros c s; discriminate.
Qed.

Lemma observed_in_line_parsed line ins outs :
  inputs line = Some ins -> outputs line = Some outs ->
  observed_in_line line = ins ++ outs.
Proof. unfold observed_in_line. now intros -> ->. Qed.

End TxFacts.

Module CMemFacts.
Import CString CMem.

Lemma is_char_true d c : is_char d c = true <-> c = d.
Proof. unfold is_char. apply Ascii.eqb_eq. Qed.

Lemma is_char_false d c : is_char d c = false <-> c <> d.
Proof. unfold is_char. apply Ascii.eqb_neq. Qed.

Lemma is_char_refl d : is_char d d = true.
Proof. now apply is_char_true. Qed.

Lemma peek_at (pre : text) c x : peek (pre ++ c :: x) (length pre) = c.
Proof. unfold peek. now rewrite list_lookup_middle. Qed.

Lemma insert_at (pre : text) c c' x :
  <[length pre := c']> (pre ++ c :: x) = pre ++ c' :: x.
Proof.
  replace (length pre) with (length pre + 0)%nat by lia.
  now rewrite insert_app_r.
Qed.

(** The run of characters other than [d] ends at the first [d] or NUL. *)
Lemma strcspn_plain d f c x :
  plain d f -> c = NUL \/ c = d -> strcspn d (f ++ c :: x) = length f.
Proof.
  intros Hf Hc. induction Hf as [|a f [Ha Had] _ IH]; cbn [app strcspn length].
  - destruct Hc as [->| ->].
    + now rewrite is_char_refl.
    + rewrite is_char_refl. now destruct (is_char NUL d).
  - rewrite (proj2 (is_char_false NUL a) Ha), (proj2 (is_char_false d a) Had).
    now rewrite IH.
Qed.

(** The run of [d] ends at the first other character. *)
Lemma strspn_run d ds c x :
  d <> NUL -> Forall (eq d) ds -> c <> d ->
  strspn d (ds ++ c :: x) = length ds.
Proof.
  intros Hd Hds Hc. induction Hds as [|a ds <- _ IH]; cbn [app strspn length].
  - rewrite (proj2 (is_char_false d c) Hc). now destruct (is_char NUL c).
  - rewrite (proj2 (is_char_false NUL d) Hd), is_char_refl. now rewrite IH.
Qed.

Lemma cstr_plain s x : Forall (fun c => c <> NUL) s -> cstr (s ++ NUL :: x) = s.
Proof.
  induction 1 as [|a s Ha _ IH]; cbn [app cstr].
  - now rewrite is_char_refl.
  - fold NUL. rewrite (proj2 (is_char_false NUL a) Ha). now rewrite IH.
Qed.

Lemma cstr_no_nul s : Forall (fun c => c <> NUL) (cstr s).
Proof.
  induction s as [|a s IH]; cbn [cstr]; [constructor|].
  destruct (is_char Ascii.zero a) eqn:E; constructor; [|exact IH].
  now apply is_char_false in E.
Qed.

(** A block that starts with a line and a NUL starts with the C string of
    the line and a NUL. *)
Lemma cstr_prefix s x : exists y, s ++ NUL :: x = cstr s ++ NUL :: y.
Proof.
  induction s as [|a s [y IH]]; cbn [app cstr]; [eauto|].
  destruct (is_char Ascii.zero a) eqn:E.
  - apply is_char_true in E as ->. eexists. reflexivity.
  - exists y. cbn [app]. now rewrite IH.
Qed.

(** *** [strsep] on a field *)

Lemma strsep_last d (pre f post : text) :
  plain d f ->
  strsep d (pre ++ f ++ NUL :: post) (Some (length pre)) =
    (pre ++ f ++ NUL :: post, None, Some (length pre)).
Proof.
  intros Hf. unfold strsep. rewrite drop_app_length, strcspn_plain by auto.
  rewrite <- length_app, app_assoc, peek_at. now rewrite is_char_refl.
Qed.

Lemma strsep_more d (pre f r : text) :
  d <> NUL -> plain d f ->
  strsep d (pre ++ f ++ d :: r) (Some (length pre)) =
    (pre ++ f ++ NUL :: r, Some (S (length pre + length f)), Some (length pre)).
Proof.
  intros Hd Hf. unfold strsep. rewrite drop_app_length, strcspn_plain by auto.
  rewrite <- length_app, app_assoc, peek_at, insert_at.
  rewrite (proj2 (is_char_false NUL d) Hd). now rewrite <- app_assoc.
Qed.

(** *** [strtok_r] on a string *)

Lemma strtok_r_none d (pre ds post : text) :
  d <> NUL -> Forall (eq d) ds ->
  strtok_r d (pre ++ ds ++ NUL :: post) (length pre) =
    (pre ++ ds ++ NUL :: post, (length pre + length ds)%nat, None).
Proof.
  intros Hd Hds. unfold strtok_r.
  destruct (is_char NUL (peek (pre ++ ds ++ NUL :: post) (length pre))) eqn:E.
  - destruct ds as [|c ds]; [now rewrite Nat.add_0_r|].
    cbn [app] in E. rewrite peek_at in E. apply is_char_true in E.
    inversion Hds; subst. congruence.
  - rewrite drop_app_length, strspn_run by auto.
    rewrite <- length_app, app_assoc, peek_at, is_char_refl.
    now rewrite <- app_assoc.
Qed.

Lemma first_not_nul d (pre ds t x : text) :
  d <> NUL -> Forall (eq d) ds -> plain d t -> t <> [] ->
  is_char NUL (peek (pre ++ ds ++ t ++ x) (length pre)) = false.
Proof.
  intros Hd Hds Ht Hne. apply is_char_false.
  destruct ds as [|c ds]; cbn [app].
  - destruct t as [|c t]; [contradiction|]. cbn [app]. rewrite peek_at.
    inversion Ht; subst. tauto.
  - rewrite peek_at. inversion Hds; subst. exact Hd.
Qed.

Lemma strtok_r_last d (pre ds t post : text) :
  d <> NUL -> Forall (eq d) ds -> plain d t -> t <> [] ->
  strtok_r d (pre ++ ds ++ t ++ NUL :: post) (length pre) =
    (pre ++ ds ++ t ++ NUL :: post, (length pre + length ds + length t)%nat,
     Some (length pre + length ds)%nat).
Proof.
  intros Hd Hds Ht Hne. unfold strtok_r.
  rewrite (first_not_nul d) by auto.
  rewrite drop_app_length.
  destruct t as [|c t]; [contradiction|]. inversion Ht as [|? ? [Hc Hcd] Ht']; subst.
  cbn [app]. rewrite (strspn_run d ds c (t ++ NUL :: post)) by auto.
  rewrite <- length_app, (app_assoc pre ds), peek_at.
  rewrite (proj2 (is_char_false NUL c) Hc).
  rewrite drop_app_length.
  change (c :: t ++ NUL :: post) with ((c :: t) ++ NUL :: post).
  rewrite (strcspn_plain d (c :: t) NUL post) by auto.
  rewrite <- length_app, (app_assoc (pre ++ ds) (c :: t)), peek_at, is_char_refl.
  now rewrite !length_app, <- !app_assoc.
Qed.

Lemma strtok_r_more d (pre ds t r : text) :
  d <> NUL -> Forall (eq d) ds -> plain d t -> t <> [] ->
  strtok_r d (pre ++ ds ++ t ++ d :: r) (length pre) =
    (pre ++ ds ++ t ++ NUL :: r, S (length pre + length ds + length t),
     Some (length pre + length ds)%nat).
Proof.
  intros Hd Hds Ht Hne. unfold strtok_r.
  rewrite (first_not_nul d) by auto.
  rewrite drop_app_length.
  destruct t as [|c t]; [contradiction|]. inversion Ht as [|? ? [Hc Hcd] Ht']; subst.
  cbn [app]. rewrite (strspn_run d ds c (t ++ d :: r)) by auto.
  rewrite <- length_app, (app_assoc pre ds), peek_at.
  rewrite (proj2 (is_char_false NUL c) Hc).
  rewrite drop_app_length.
  change (c :: t ++ d :: r) with ((c :: t) ++ d :: r).
  rewrite (strcspn_plain d (c :: t) d r) by auto.
  rewrite <- length_app, (app_assoc (pre ++ ds) (c :: t)), peek_at, insert_at.
  rewrite (proj2 (is_char_false NUL d) Hd).
  now rewrite !length_app, <- !app_assoc.
Qed.


(** *** The fields and the tokens of a string, piece by piece *)

Lemma fields_inv d s :
  Forall (fun c => c <> NUL) s ->
  exists f, plain d f /\
    ((s = f /\ fields d s = [f]) \/
     (exists r, s = f ++ d :: r /\ fields d s = f :: fields d r /\
                Forall (fun c => c <> NUL) r)).
Proof.
  induction 1 as [|c s Hc Hs (f & Hf & IH)].
  - exists []. split; [constructor|]. now left.
  - cbn [fields]. destruct (is_char d c) eqn:E.
    + apply is_char_true in E as ->. exists []. split; [constructor|].
      right. exists s. auto.
    + apply is_char_false in E. exists (c :: f). split; [constructor; auto|].
      destruct IH as [[-> ->]|(r & -> & -> & Hr)]; [now left|].
      right. exists r. auto.
Qed.

Lemma tokens_delim d s : tokens d (d :: s) = tokens d s.
Proof. unfold tokens. cbn [fields]. now rewrite is_char_refl. Qed.

Lemma tokens_inv d s :
  Forall (fun c => c <> NUL) s ->
  (Forall (eq d) s /\ tokens d s = []) \/
  (exists ds t, Forall (eq d) ds /\ plain d t /\ t <> [] /\
     ((s = ds ++ t /\ tokens d s = [t]) \/
      (exists r, s = ds ++ t ++ d :: r /\ tokens d s = t :: tokens d r /\
                 Forall (fun c => c <> NUL) r))).
Proof.
  induction 1 as [|c s Hc Hs IH].
  - left. split; [constructor|reflexivity].
  - destruct (is_char d c) eqn:E.
    + apply is_char_true in E as ->. rewrite tokens_delim.
      destruct IH as [[Ha ->]|(ds & t & Hds & Ht & Hne & IH)].
      * left. split; [constructor; auto|reflexivity].
      * right. exists (d :: ds), t. split; [constructor; auto|].
        split; [exact Ht|]. split; [exact Hne|].
        destruct IH as [[-> ->]|(r & -> & -> & Hr)]; [now left|].
        right. exists r. auto.
    + right. destruct (fields_inv d s Hs) as (f & Hf & Hcase).
      apply is_char_false in E.
      exists [], (c :: f). split; [constructor|]. split; [constructor; auto|].
      split; [discriminate|]. unfold tokens. cbn [fields].
      rewrite (proj2 (is_char_false d c) E).
      destruct Hcase as [[-> ->]|(r & -> & -> & Hr)].
      * left. split; reflexivity.
      * right. exists r. split; [reflexivity|]. split; [reflexivity|exact Hr].
Qed.

Lemma plain_no_nul d s : plain d s -> Forall (fun c => c <> NUL) s.
Proof. intros H. eapply Forall_impl; [exact H|]. cbn. tauto. Qed.

Lemma string_at_plain (pre u x : text) :
  Forall (fun c => c <> NUL) u ->
  string_at (pre ++ u ++ NUL :: x) (length pre) = u.
Proof. intros Hu. unfold string_at. now rewrite drop_app_length, cstr_plain. Qed.

End CMemFacts.

Module BuilderRun.
Import CString CMem Tx Builder CMemFacts.

Lemma update_max_spec a st :
  update_max a st = mkState (Z.max (max_id st) a) (edges st).
Proof.
  unfold update_max. destruct (Z.leb_spec (max_id st) a).
  - now rewrite Z.max_r.
  - rewrite Z.max_l by lia. now destruct st.
Qed.

Lemma max_with_app m l1 l2 : max_with m (l1 ++ l2) = max_with (max_with m l1) l2.
Proof. apply foldl_app. Qed.

Lemma max_with_le m l : m <= max_with m l.
Proof.
  revert m; induction l as [|a l IH]; intros m; cbn; [lia|].
  specialize (IH (Z.max m a)). unfold max_with in IH. lia.
Qed.

Lemma max_with_mono m m' l : m <= m' -> max_with m l <= max_with m' l.
Proof.
  revert m m'; induction l as [|a l IH]; intros m m' H; cbn; [lia|].
  apply IH. lia.
Qed.

Lemma max_with_ge m l a : a ∈ l -> a <= max_with m l.
Proof.
  revert m; induction l as [|b l IH]; intros m Ha; [inversion Ha|].
  apply elem_of_cons in Ha as [->|Ha]; cbn.
  - pose proof (max_with_le (Z.max m b) l). unfold max_with in *. lia.
  - now apply IH.
Qed.

Lemma max_with_filter m first l :
  first <= m ->
  max_with m (List.filter (fun a => negb (a =? first)) l) = max_with m l.
Proof.
  revert m; induction l as [|a l IH]; intros m Hm; [reflexivity|].
  cbn [List.filter]. destruct (Z.eqb_spec a first) as [->|Hne]; cbn.
  - rewrite Z.max_l by lia. now apply IH.
  - apply IH. lia.
Qed.

Lemma semicolon_not_nul : ";"%char <> NUL.
Proof. discriminate. Qed.

Lemma comma_not_nul : ","%char <> NUL.
Proof. discriminate. Qed.

Lemma colon_not_nul : ":"%char <> NUL.
Proof. discriminate. Qed.

#[local] Hint Resolve semicolon_not_nul comma_not_nul colon_not_nul : core.

(** *** [atoi(strtok(item, ","))] on an item in the block *)

Lemma address_item pre t post m :
  buffer m = pre ++ t ++ NUL :: post -> Forall (fun c => c <> NUL) t ->
  match address_of t with
  | None => address (Some (length pre)) m = None
  | Some a =>
      exists t' o, length t' = length t /\
        address (Some (length pre)) m =
          Some (mkMemory (pre ++ t' ++ NUL :: post) (line_size m) o, a)
  end.
Proof.
  intros Hb Ht. unfold address, strtok, address_of, CString.strtok.
  rewrite Steps.bind_some, Hb.
  destruct (tokens_inv ","%char t Ht)
    as [[Hall ->]|(ds & u & Hds & Hu & Hne & [[-> ->]|(r & -> & -> & Hr)])].
  - rewrite strtok_r_none by auto. reflexivity.
  - rewrite <- app_assoc, strtok_r_last by auto.
    cbn [head fmap option_fmap option_map]. rewrite Steps.bind_some.
    exists (ds ++ u), (Some (length pre + length ds + length u)%nat).
    split; [reflexivity|]. cbn [buffer].
    rewrite <- length_app, (app_assoc pre ds), string_at_plain
      by eauto using plain_no_nul.
    now rewrite <- !app_assoc.
  - rewrite <- !app_assoc. cbn [app]. rewrite strtok_r_more by auto.
    cbn [head fmap option_fmap option_map]. rewrite Steps.bind_some.
    exists (ds ++ u ++ NUL :: r), (Some (S (length pre + length ds + length u))).
    split; [now rewrite !length_app|]. cbn [buffer].
    rewrite <- length_app, (app_assoc pre ds), string_at_plain
      by eauto using plain_no_nul.
    now rewrite <- !app_assoc.
Qed.

End BuilderRun.

Module BuilderLoops.
Import CString CMem Tx Builder CMemFacts BuilderRun.

#[local] Hint Resolve semicolon_not_nul comma_not_nul colon_not_nul : core.

Lemma buffer_with b m : buffer (with_buffer b m) = b.
Proof. reflexivity. Qed.

Lemma line_size_with b m : line_size (with_buffer b m) = line_size m.
Proof. reflexivity. Qed.

(** The state after one more input with address [a]. *)
Lemma star_step first a rest st :
  let st1 := if a =? first then st
             else update_max a (mkState (max_id st)
                                  (edges st ++ [Edge.minmax first a])) in
  mkState (max_with (max_id st1)
             (List.filter (fun a => negb (a =? first)) rest))
          (edges st1 ++ star_edges first rest) =
  mkState (max_with (max_id st)
             (List.filter (fun a => negb (a =? first)) (a :: rest)))
          (edges st ++ star_edges first (a :: rest)).
Proof.
  cbn zeta. unfold star_edges. cbn [List.filter].
  destruct (Z.eqb_spec a first) as [->|Hne]; cbn [negb]; [reflexivity|].
  rewrite update_max_spec. cbn [max_id edges fmap list_fmap max_with foldl].
  now rewrite <- app_assoc.
Qed.

Lemma no_items st first :
  mkState (max_with (max_id st) (List.filter (fun a => negb (a =? first)) []))
          (edges st ++ star_edges first []) = st.
Proof. cbn. rewrite app_nil_r. now destruct st. Qed.

(** *** The loop over the later inputs *)

Lemma process_rest_spec first : forall fuel (r pre post : text) m st,
  buffer m = pre ++ r ++ NUL :: post -> Forall (fun c => c <> NUL) r ->
  (length r < fuel)%nat ->
  match addresses_of (tokens ";"%char r) with
  | None => process_rest fuel first (length pre) m st = None
  | Some rest =>
      exists r' o, length r' = length r /\
        process_rest fuel first (length pre) m st =
          Some (mkMemory (pre ++ r' ++ NUL :: post) (line_size m) o,
                mkState (max_with (max_id st)
                           (List.filter (fun a => negb (a =? first)) rest))
                        (edges st ++ star_edges first rest))
  end.
Proof.
  induction fuel as [|fuel IH]; intros r pre post m st Hb Hr Hf; [lia|].
  cbn [process_rest]. rewrite Hb.
  destruct (tokens_inv ";"%char r Hr)
    as [[Hall ->]|(ds & t & Hds & Ht & Hne & [[-> ->]|(r2 & -> & -> & Hr2)])].
  - rewrite strtok_r_none by auto. cbn [addresses_of].
    exists r, (olds m). split; [reflexivity|]. now rewrite no_items.
  - rewrite <- app_assoc, strtok_r_last by auto.
    pose proof (address_item (pre ++ ds) t post
                  (with_buffer (pre ++ ds ++ t ++ NUL :: post) m)) as Ha.
    rewrite length_app in Ha. cbn [addresses_of].
    destruct (address_of t) as [a|].
    + destruct Ha as (t' & o & Hl & ->);
        [rewrite buffer_with, <- app_assoc; reflexivity|exact (plain_no_nul _ _ Ht)|].
      rewrite !Steps.bind_some, line_size_with.
      set (st1 := if a =? first then st
                  else update_max a (mkState (max_id st)
                                       (edges st ++ [Edge.minmax first a]))).
      destruct (IH [] (pre ++ ds ++ t') post
                  (mkMemory ((pre ++ ds) ++ t' ++ NUL :: post) (line_size m) o)
                  st1) as (r' & o' & Hl' & E).
      { cbn. now rewrite <- !app_assoc. }
      { constructor. }
      { rewrite !length_app in Hf. destruct t; [contradiction|].
        cbn [length] in *. lia. }
      destruct r'; [|discriminate]. rewrite no_items in E.
      rewrite !length_app, Hl, Nat.add_assoc in E. cbn [line_size app] in E.
      exists (ds ++ t'), o'. split; [now rewrite !length_app, Hl|].
      rewrite <- (star_step first a [] st). fold st1. rewrite no_items.
      rewrite <- !app_assoc in *.
      subst st1. destruct (a =? first); exact E.
    + rewrite Ha; [reflexivity|rewrite buffer_with, <- app_assoc; reflexivity|].
      exact (plain_no_nul _ _ Ht).
  - rewrite <- !app_assoc. cbn [app]. rewrite strtok_r_more by auto.
    pose proof (address_item (pre ++ ds) t (r2 ++ NUL :: post)
                  (with_buffer (pre ++ ds ++ t ++ NUL :: r2 ++ NUL :: post) m))
      as Ha.
    rewrite length_app in Ha. cbn [addresses_of].
    destruct (address_of t) as [a|].
    + destruct Ha as (t' & o & Hl & ->);
        [rewrite buffer_with, <- app_assoc; reflexivity|exact (plain_no_nul _ _ Ht)|].
      rewrite !Steps.bind_some, line_size_with.
      set (st1 := if a =? first then st
                  else update_max a (mkState (max_id st)
                                       (edges st ++ [Edge.minmax first a]))).
      specialize (IH r2 (pre ++ ds ++ t' ++ [NUL]) post
                    (mkMemory ((pre ++ ds) ++ t' ++ NUL :: r2 ++ NUL :: post)
                       (line_size m) o) st1).
      rewrite !length_app, Hl in IH. cbn [length] in IH.
      replace (length pre + (length ds + (length t + 1)))%nat
        with (S (length pre + length ds + length t)) in IH by lia.
      destruct (addresses_of (tokens ";"%char r2)) as [rest|].
      * destruct IH as (r' & o' & Hl' & E).
        { cbn. now rewrite <- !app_assoc. }
        { exact Hr2. }
        { rewrite !length_app in Hf. cbn [length] in Hf. lia. }
        rewrite Steps.bind_some.
        exists (ds ++ t' ++ NUL :: r'), o'.
        split; [rewrite !length_app; cbn [length]; lia|].
        rewrite <- (star_step first a rest st). fold st1.
        cbn [line_size] in E. rewrite <- !app_assoc in E. cbn [app] in E.
        rewrite <- !app_assoc. cbn [app].
        subst st1. destruct (a =? first); exact E.
      * rewrite Steps.bind_none.
        subst st1. destruct (a =? first); apply IH;
          try (cbn; now rewrite <- !app_assoc); try exact Hr2;
          rewrite !length_app in Hf; cbn [length] in Hf; lia.
    + rewrite Ha; [reflexivity|rewrite buffer_with, <- app_assoc; reflexivity|].
      exact (plain_no_nul _ _ Ht).
Qed.

End BuilderLoops.

Module BuilderFields.
Import CString CMem Tx Builder CMemFacts BuilderRun BuilderLoops.

#[local] Hint Resolve semicolon_not_nul comma_not_nul colon_not_nul : core.

Lemma addresses_of_length items l :
  addresses_of items = Some l -> length l = length items.
Proof.
  revert l. induction items as [|it items IH]; intros l H.
  - now injection H as <-.
  - cbn [addresses_of] in H. destruct (address_of it); [|discriminate].
    rewrite Steps.bind_some in H.
    destruct (addresses_of items) as [l'|]; [|discriminate].
    injection H as <-. cbn [length]. f_equal. now apply IH.
Qed.

(** *** [process_inputs] on a field that holds an item *)

Lemma process_inputs_items (pre f post : text) m st :
  buffer m = pre ++ f ++ NUL :: post -> Forall (fun c => c <> NUL) f ->
  tokens ";"%char f <> [] ->
  match addresses_of (tokens ";"%char f) with
  | Some (a :: rest) =>
      exists f' o, length f' = length f /\
        process_inputs (length pre) m st =
          Some (mkMemory (pre ++ f' ++ NUL :: post) (line_size m) o,
                mkState (max_with (max_id st) (a :: rest))
                        (edges st ++ star_edges a rest))
  | _ => process_inputs (length pre) m st = None
  end.
Proof.
  intros Hb Hf Htok. unfold process_inputs. rewrite Hb.
  destruct (tokens_inv ";"%char f Hf)
    as [[Hall E]|(ds & t & Hds & Ht & Hne & [[-> ->]|(r2 & -> & -> & Hr2)])];
    [contradiction|..].
  - rewrite <- app_assoc, strtok_r_last by auto.
    pose proof (address_item (pre ++ ds) t post
                  (with_buffer (pre ++ ds ++ t ++ NUL :: post) m)) as Ha.
    rewrite length_app in Ha. cbn [addresses_of].
    destruct (address_of t) as [a|].
    + destruct Ha as (t' & o & Hl & ->);
        [rewrite buffer_with, <- app_assoc; reflexivity
        |exact (plain_no_nul _ _ Ht)|].
      rewrite !Steps.bind_some, line_size_with. cbn [buffer].
      remember (S (length ((pre ++ ds) ++ t' ++ NUL :: post))) as fuel eqn:Ef.
      destruct (process_rest_spec a fuel
                  [] (pre ++ ds ++ t') post
                  (mkMemory ((pre ++ ds) ++ t' ++ NUL :: post) (line_size m) o)
                  (update_max a st)) as (r' & o' & Hl' & E).
      { cbn. now rewrite <- !app_assoc. }
      { constructor. }
      { rewrite Ef. cbn [length]. lia. }
      destruct r'; [|discriminate]. rewrite no_items in E.
      rewrite !length_app, Hl, Nat.add_assoc in E. cbn [line_size app] in E.
      exists (ds ++ t'), o'. split; [now rewrite !length_app, Hl|].
      rewrite <- !app_assoc in *. rewrite E, update_max_spec.
      unfold star_edges. cbn. now rewrite app_nil_r.
    + rewrite Ha; [reflexivity|rewrite buffer_with, <- app_assoc; reflexivity|].
      exact (plain_no_nul _ _ Ht).
  - rewrite <- !app_assoc. cbn [app]. rewrite strtok_r_more by auto.
    pose proof (address_item (pre ++ ds) t (r2 ++ NUL :: post)
                  (with_buffer (pre ++ ds ++ t ++ NUL :: r2 ++ NUL :: post) m))
      as Ha.
    rewrite length_app in Ha. cbn [addresses_of].
    destruct (address_of t) as [a|].
    + destruct Ha as (t' & o & Hl & ->);
        [rewrite buffer_with, <- app_assoc; reflexivity
        |exact (plain_no_nul _ _ Ht)|].
      rewrite !Steps.bind_some, line_size_with. cbn [buffer].
      remember (S (length ((pre ++ ds) ++ t' ++ NUL :: r2 ++ NUL :: post)))
        as fuel eqn:Ef.
      assert (length r2 < fuel)%nat as Hfuel.
      { rewrite Ef, !length_app. cbn [length]. rewrite length_app. lia. }
      pose proof (process_rest_spec a fuel
                    r2 (pre ++ ds ++ t' ++ [NUL]) post
                    (mkMemory ((pre ++ ds) ++ t' ++ NUL :: r2 ++ NUL :: post)
                       (line_size m) o)
                    (update_max a st)) as IH.
      rewrite !length_app, Hl in IH. cbn [length] in IH.
      replace (length pre + (length ds + (length t + 1)))%nat
        with (S (length pre + length ds + length t)) in IH by lia.
      destruct (addresses_of (tokens ";"%char r2)) as [rest|].
      * destruct IH as (r' & o' & Hl' & E).
        { cbn. now rewrite <- !app_assoc. }
        { exact Hr2. }
        { exact Hfuel. }
        rewrite Steps.bind_some.
        exists (ds ++ t' ++ NUL :: r'), o'.
        split; [rewrite !length_app; cbn [length]; lia|].
        cbn [line_size] in E. rewrite <- !app_assoc in E. cbn [app] in E.
        rewrite <- !app_assoc. cbn [app].
        rewrite E, update_max_spec. cbn [max_id edges].
        rewrite max_with_filter by lia. reflexivity.
      * rewrite Steps.bind_none. apply IH;
          [cbn; now rewrite <- !app_assoc|exact Hr2|exact Hfuel].
    + rewrite Ha; [reflexivity|rewrite buffer_with, <- app_assoc; reflexivity|].
      exact (plain_no_nul _ _ Ht).
Qed.

(** *** The loop of [process_outputs] *)

Lemma process_outputs_loop_spec : forall fuel (r pre post : text) m st,
  buffer m = pre ++ r ++ NUL :: post -> Forall (fun c => c <> NUL) r ->
  (length r < fuel)%nat ->
  match addresses_of (tokens ";"%char r) with
  | None => process_outputs_loop fuel (length pre) m st = None
  | Some outs =>
      exists r' o, length r' = length r /\
        process_outputs_loop fuel (length pre) m st =
          Some (mkMemory (pre ++ r' ++ NUL :: post) (line_size m) o,
                mkState (max_with (max_id st) outs) (edges st))
  end.
Proof.
  induction fuel as [|fuel IH]; intros r pre post m st Hb Hr Hf; [lia|].
  cbn [process_outputs_loop]. rewrite Hb.
  destruct (tokens_inv ";"%char r Hr)
    as [[Hall ->]|(ds & t & Hds & Ht & Hne & [[-> ->]|(r2 & -> & -> & Hr2)])].
  - rewrite strtok_r_none by auto. cbn [addresses_of].
    exists r, (olds m). split; [reflexivity|]. now destruct st.
  - rewrite <- app_assoc, strtok_r_last by auto.
    pose proof (address_item (pre ++ ds) t post
                  (with_buffer (pre ++ ds ++ t ++ NUL :: post) m)) as Ha.
    rewrite length_app in Ha. cbn [addresses_of].
    destruct (address_of t) as [a|].
    + destruct Ha as (t' & o & Hl & ->);
        [rewrite buffer_with, <- app_assoc; reflexivity
        |exact (plain_no_nul _ _ Ht)|].
      rewrite !Steps.bind_some, line_size_with.
      destruct (IH [] (pre ++ ds ++ t') post
                  (mkMemory ((pre ++ ds) ++ t' ++ NUL :: post) (line_size m) o)
                  (update_max a st)) as (r' & o' & Hl' & E).
      { cbn. now rewrite <- !app_assoc. }
      { constructor. }
      { rewrite !length_app in Hf. destruct t; [contradiction|].
        cbn [length] in *. lia. }
      destruct r'; [|discriminate].
      rewrite !length_app, Hl, Nat.add_assoc in E. cbn [line_size app] in E.
      exists (ds ++ t'), o'. split; [now rewrite !length_app, Hl|].
      rewrite <- !app_assoc in *. rewrite E, update_max_spec. reflexivity.
    + rewrite Ha; [reflexivity|rewrite buffer_with, <- app_assoc; reflexivity|].
      exact (plain_no_nul _ _ Ht).
  - rewrite <- !app_assoc. cbn [app]. rewrite strtok_r_more by auto.
    pose proof (address_item (pre ++ ds) t (r2 ++ NUL :: post)
                  (with_buffer (pre ++ ds ++ t ++ NUL :: r2 ++ NUL :: post) m))
      as Ha.
    rewrite length_app in Ha. cbn [addresses_of].
    destruct (address_of t) as [a|].
    + destruct Ha as (t' & o & Hl & ->);
        [rewrite buffer_with, <- app_assoc; reflexivity
        |exact (plain_no_nul _ _ Ht)|].
      rewrite !Steps.bind_some, line_size_with.
      specialize (IH r2 (pre ++ ds ++ t' ++ [NUL]) post
                    (mkMemory ((pre ++ ds) ++ t' ++ NUL :: r2 ++ NUL :: post)
                       (line_size m) o) (update_max a st)).
      rewrite !length_app, Hl in IH. cbn [length] in IH.
      replace (length pre + (length ds + (length t + 1)))%nat
        with (S (length pre + length ds + length t)) in IH by lia.
      destruct (addresses_of (tokens ";"%char r2)) as [outs|].
      * destruct IH as (r' & o' & Hl' & E).
        { cbn. now rewrite <- !app_assoc. }
        { exact Hr2. }
        { rewrite !length_app in Hf. cbn [length] in Hf. lia. }
        rewrite Steps.bind_some.
        exists (ds ++ t' ++ NUL :: r'), o'.
        split; [rewrite !length_app; cbn [length]; lia|].
        cbn [line_size] in E. rewrite <- !app_assoc in E. cbn [app] in E.
        rewrite <- !app_assoc. cbn [app].
        rewrite E, update_max_spec. reflexivity.
      * rewrite Steps.bind_none. apply IH;
          [cbn; now rewrite <- !app_assoc|exact Hr2|].
        rewrite !length_app in Hf. cbn [length] in Hf. lia.
    + rewrite Ha; [reflexivity|rewrite buffer_with, <- app_assoc; reflexivity|].
      exact (plain_no_nul _ _ Ht).
Qed.

End BuilderFields.

Module BuilderAny.
Import CString CMem Tx Builder CMemFacts BuilderRun BuilderLoops BuilderFields.

(** *** What the scans do to a block, whatever it holds *)

Lemma peek_insert_nul b e p :
  peek b p = NUL -> peek (<[e := NUL]> b) p = NUL.
Proof.
  unfold peek. intros H. destruct (decide (e = p)) as [->|Hne].
  - destruct (decide (p < length b)%nat).
    + now rewrite list_lookup_insert_eq.
    + now rewrite list_insert_ge by lia.
  - now rewrite list_lookup_insert_ne.
Qed.

Lemma strtok_r_any d b s b' save tok :
  strtok_r d b s = (b', save, tok) ->
  length b' = length b /\
  (forall p, peek b p = NUL -> peek b' p = NUL).
Proof.
  unfold strtok_r.
  repeat match goal with |- context [if ?c then _ else _] => destruct c end;
    intros [= <- <- <-]; auto using length_insert, peek_insert_nul.
Qed.

Lemma strsep_any d b sp b' sp' tok :
  strsep d b sp = (b', sp', tok) ->
  length b' = length b /\
  (forall p, peek b p = NUL -> peek b' p = NUL).
Proof.
  unfold strsep. destruct sp as [p0|]; [|intros [= <- <- <-]; auto].
  repeat match goal with |- context [if ?c then _ else _] => destruct c end;
    intros [= <- <- <-]; auto using length_insert, peek_insert_nul.
Qed.

Lemma address_any s m m' a :
  address s m = Some (m', a) ->
  length (buffer m') = length (buffer m) /\ line_size m' = line_size m /\
  (forall p, peek (buffer m) p = NUL -> peek (buffer m') p = NUL).
Proof.
  unfold address, strtok. intros H.
  destruct (match s with Some p => Some p | None => olds m end) as [from|];
    [|discriminate].
  rewrite Steps.bind_some in H.
  destruct (strtok_r ","%char (buffer m) from) as [[b save] tok] eqn:E.
  rewrite Steps.bind_some in H. destruct tok; [|discriminate].
  injection H as <- <-. cbn [buffer line_size].
  apply strtok_r_any in E as [Hl Hn]. auto.
Qed.

Lemma update_max_any a st :
  edges (update_max a st) = edges st /\ max_id st <= max_id (update_max a st).
Proof. rewrite update_max_spec. cbn. split; [reflexivity|lia]. Qed.

(** [process_outputs] adds no edge and lowers nothing. *)
Lemma process_outputs_loop_any : forall fuel s m st m' st',
  process_outputs_loop fuel s m st = Some (m', st') ->
  edges st' = edges st /\ max_id st <= max_id st' /\
  length (buffer m') = length (buffer m) /\ line_size m' = line_size m.
Proof.
  induction fuel as [|fuel IH]; intros s m st m' st' H; [discriminate|].
  cbn [process_outputs_loop] in H.
  destruct (strtok_r ";"%char (buffer m) s) as [[b save] tok] eqn:E.
  apply strtok_r_any in E as [Hl _].
  destruct tok as [q|].
  - destruct (address (Some q) (with_buffer b m)) as [[m1 a]|] eqn:Ea;
      [|discriminate].
    rewrite Steps.bind_some in H.
    apply address_any in Ea as (Hl1 & Hs1 & _).
    apply IH in H as (He & Hm & Hl2 & Hs2).
    destruct (update_max_any a st) as [He' Hm'].
    rewrite buffer_with in Hl1. rewrite line_size_with in Hs1.
    repeat split; [congruence|lia|congruence|congruence].
  - injection H as <- <-. rewrite buffer_with, line_size_with.
    repeat split; [lia|exact Hl].
Qed.

(** A turn of the loop of [process_inputs] on the NUL that ends the string
    ends the loop. *)
Lemma process_rest_at_end fuel first save_ptr m st :
  peek (buffer m) save_ptr = NUL ->
  process_rest (S fuel) first save_ptr m st = Some (m, st).
Proof.
  intros H. cbn [process_rest]. unfold strtok_r. rewrite H, is_char_refl.
  now destruct m.
Qed.

(** [process_inputs] on a field of semicolons: the first address comes from
    where [strtok] stopped before, and no edge is added. *)
Lemma process_inputs_stale (pre f post : text) m st m' st' :
  buffer m = pre ++ f ++ NUL :: post -> Forall (eq ";"%char) f ->
  process_inputs (length pre) m st = Some (m', st') ->
  edges st' = edges st /\ max_id st <= max_id st' /\
  length (buffer m') = length (buffer m) /\ line_size m' = line_size m.
Proof.
  intros Hb Hf. unfold process_inputs. rewrite Hb.
  rewrite strtok_r_none by (auto; discriminate).
  destruct (address None (with_buffer (pre ++ f ++ NUL :: post) m))
    as [[m1 a]|] eqn:Ea; [|discriminate].
  rewrite Steps.bind_some.
  apply address_any in Ea as (Hl & Hs & Hn).
  rewrite buffer_with in Hl, Hn. rewrite line_size_with in Hs.
  rewrite process_rest_at_end.
  - intros [= <- <-]. destruct (update_max_any a st) as [He Hm].
    repeat split; assumption.
  - apply Hn. rewrite <- length_app, app_assoc. apply peek_at.
Qed.

End BuilderAny.

Module BuilderLine.
Import CString CMem Tx Builder CMemFacts BuilderRun BuilderLoops BuilderFields
  BuilderAny.

#[local] Hint Resolve semicolon_not_nul comma_not_nul colon_not_nul : core.

Lemma with_own_buffer m : with_buffer (buffer m) m = m.
Proof. now destruct m. Qed.

(** Once [strsep] has set [line_buf] to NULL the loop ends. *)
Lemma loop_done fuel tc m st :
  process_line_loop (S fuel) None tc m st = Some (m, st).
Proof. cbn. now rewrite with_own_buffer. Qed.

Lemma peek_not_nul b p : peek b p <> NUL -> (p < length b)%nat.
Proof.
  unfold peek. intros H. apply lookup_lt_is_Some.
  destruct (b !! p); [eauto|contradiction].
Qed.

(** From the fourth token on the loop only moves along the line; the fuel
    of [process_line] is enough for it. *)
Lemma loop_tail : forall fuel p tc m st,
  (3 <= tc)%nat -> (length (buffer m) - p + 2 <= fuel)%nat ->
  exists m', process_line_loop fuel (Some p) tc m st = Some (m', st) /\
             length (buffer m') = length (buffer m) /\
             line_size m' = line_size m.
Proof.
  induction fuel as [|fuel IH]; intros p tc m st Htc Hf; [lia|].
  cbn [process_line_loop strsep].
  set (e := (p + strcspn ":"%char (drop p (buffer m)))%nat).
  destruct tc as [|[|[|tc]]]; try lia.
  destruct (is_char NUL (peek (buffer m) e)) eqn:E.
  - rewrite Steps.bind_some. destruct fuel as [|fuel]; [lia|].
    rewrite loop_done, with_own_buffer. eauto.
  - rewrite Steps.bind_some.
    apply is_char_false, peek_not_nul in E.
    destruct (IH (S e) (S (S (S (S tc)))) (with_buffer (<[e := NUL]> (buffer m)) m) st)
      as (m' & -> & Hl & Hs); [lia|..].
    + rewrite buffer_with, length_insert. subst e. lia.
    + rewrite buffer_with, length_insert in Hl. eauto.
Qed.

(** From the third token on no edge is added. *)
Lemma process_line_loop_any : forall fuel lb tc m st m' st',
  (2 <= tc)%nat ->
  process_line_loop fuel lb tc m st = Some (m', st') ->
  edges st' = edges st /\ max_id st <= max_id st'.
Proof.
  induction fuel as [|fuel IH]; intros lb tc m st m' st' Htc H; [discriminate|].
  cbn [process_line_loop] in H.
  destruct (strsep ":"%char (buffer m) lb) as [[b lb'] [token|]];
    [|injection H as <- <-; split; [reflexivity|lia]].
  destruct tc as [|[|[|tc]]]; try lia.
  - destruct (negb (is_char NUL (peek b token))).
    + destruct (process_outputs token (with_buffer b m) st) as [[m1 st1]|] eqn:E;
        [|discriminate].
      rewrite Steps.bind_some in H. apply IH in H as [He Hm]; [|lia].
      apply process_outputs_loop_any in E as (He1 & Hm1 & _).
      split; [congruence|lia].
    + rewrite Steps.bind_some in H. apply IH in H; [exact H|lia].
  - rewrite Steps.bind_some in H. apply IH in H; [exact H|lia].
Qed.

(** *** The third token: the outputs *)

Lemma loop_outputs fuel (s pre post : text) m st :
  buffer m = pre ++ s ++ NUL :: post -> Forall (fun c => c <> NUL) s ->
  (length (buffer m) - length pre + 2 <= fuel)%nat ->
  match addresses_of (tokens ";"%char
                        (default [] (fields ":"%char s !! 0%nat))) with
  | None => process_line_loop fuel (Some (length pre)) 2 m st = None
  | Some outs =>
      exists m', process_line_loop fuel (Some (length pre)) 2 m st =
                   Some (m', mkState (max_with (max_id st) outs) (edges st))
  end.
Proof.
  intros Hb Hs Hf. destruct fuel as [|fuel]; [lia|].
  cbn [process_line_loop]. rewrite Hb.
  destruct (fields_inv ":"%char s Hs) as (f & Hp & [[-> ->]|(r & -> & -> & Hr)]);
    cbn [lookup list_lookup default from_option id].
  - rewrite strsep_last by exact Hp. destruct fuel as [|fuel]; [lia|].
    destruct f as [|c f].
    + cbn [app]. rewrite peek_at, is_char_refl. cbn [negb tokens fields
        List.filter nonempty nonempty_list addresses_of].
      rewrite Steps.bind_some, loop_done. exists (with_buffer (pre ++ NUL :: post) m).
      now destruct st.
    + assert (negb (is_char NUL (peek (pre ++ (c :: f) ++ NUL :: post) (length pre)))
              = true) as ->.
      { cbn [app]. rewrite peek_at. inversion Hp as [|? ? [Hc _]]; subst.
        now rewrite (proj2 (is_char_false NUL c) Hc). }
      unfold process_outputs.
      pose proof (process_outputs_loop_spec
                    (S (length (buffer (with_buffer (pre ++ (c :: f) ++ NUL :: post) m))))
                    (c :: f) pre post
                    (with_buffer (pre ++ (c :: f) ++ NUL :: post) m) st) as Ho.
      destruct (addresses_of (tokens ";"%char (c :: f))) as [outs|].
      * destruct Ho as (r' & o & Hl & ->);
          [reflexivity|exact (plain_no_nul _ _ Hp)|..].
        { rewrite buffer_with, !length_app. lia. }
        rewrite Steps.bind_some, loop_done. eauto.
      * rewrite Ho; [reflexivity|reflexivity|exact (plain_no_nul _ _ Hp)|].
        rewrite buffer_with, !length_app. lia.
  - rewrite <- app_assoc. cbn [app]. rewrite strsep_more by auto.
    assert (length (buffer m) = length pre + length f + 1 + length r + 1
                                 + length post)%nat as Hlen.
    { rewrite Hb, !length_app. cbn [length]. rewrite ?length_app. cbn [length]. lia. }
    destruct f as [|c f].
    + cbn [app]. rewrite peek_at, is_char_refl. cbn [negb tokens fields
        List.filter nonempty nonempty_list addresses_of].
      rewrite Steps.bind_some.
      destruct (loop_tail fuel (S (length pre + length (@nil ascii))) 3
                  (with_buffer (pre ++ NUL :: r ++ NUL :: post) m) st)
        as (m' & -> & _); [lia|..].
      * rewrite buffer_with, !length_app. cbn [length]. rewrite ?length_app.
        cbn [length] in *. lia.
      * exists m'. now destruct st.
    + assert (negb (is_char NUL (peek (pre ++ (c :: f) ++ NUL :: r ++ NUL :: post)
                                   (length pre))) = true) as ->.
      { cbn [app]. rewrite peek_at. inversion Hp as [|? ? [Hc _]]; subst.
        now rewrite (proj2 (is_char_false NUL c) Hc). }
      unfold process_outputs.
      pose proof (process_outputs_loop_spec
                    (S (length (buffer (with_buffer
                       (pre ++ (c :: f) ++ NUL :: r ++ NUL :: post) m))))
                    (c :: f) pre (r ++ NUL :: post)
                    (with_buffer (pre ++ (c :: f) ++ NUL :: r ++ NUL :: post) m) st)
        as Ho.
      destruct (addresses_of (tokens ";"%char (c :: f))) as [outs|].
      * destruct Ho as (r' & o & Hl & ->);
          [reflexivity|exact (plain_no_nul _ _ Hp)|..].
        { rewrite buffer_with, !length_app. lia. }
        rewrite Steps.bind_some.
        destruct (loop_tail fuel (S (length pre + length (c :: f))) 3
                    (mkMemory (pre ++ r' ++ NUL :: r ++ NUL :: post)
                       (line_size (with_buffer
                          (pre ++ (c :: f) ++ NUL :: r ++ NUL :: post) m)) o)
                    (mkState (max_with (max_id st) outs) (edges st)))
          as (m' & -> & _); [lia|..]; [|eauto].
        cbn [buffer]. rewrite !length_app. cbn [length]. rewrite ?length_app.
        cbn [length] in *. lia.
      * rewrite Ho; [reflexivity|reflexivity|exact (plain_no_nul _ _ Hp)|].
        rewrite buffer_with, !length_app. lia.
Qed.

End BuilderLine.

Module BuilderLines.
Import CString CMem Tx Builder CMemFacts BuilderRun BuilderLoops BuilderFields
  BuilderAny BuilderLine.

#[local] Hint Resolve semicolon_not_nul comma_not_nul colon_not_nul : core.

Lemma filled_field d (pre : text) c f x :
  plain d (c :: f) ->
  negb (is_char NUL (peek (pre ++ (c :: f) ++ x) (length pre))) = true.
Proof.
  intros Hp. cbn [app]. rewrite peek_at. inversion Hp as [|? ? [Hc _]]; subst.
  now rewrite (proj2 (is_char_false NUL c) Hc).
Qed.

Lemma tokens_none d s :
  Forall (fun c => c <> NUL) s -> tokens d s = [] -> Forall (eq d) s.
Proof.
  intros Hs E.
  destruct (tokens_inv d s Hs)
    as [[Hall _]|(ds & t & _ & _ & _ & [[_ E']|(r & _ & E' & _)])];
    [exact Hall|congruence..].
Qed.

(** *** The second token: the inputs, when the field holds an item *)

Lemma loop_inputs fuel (s pre post : text) m st :
  buffer m = pre ++ s ++ NUL :: post -> Forall (fun c => c <> NUL) s ->
  (length (buffer m) - length pre + 2 <= fuel)%nat ->
  (default [] (fields ":"%char s !! 0%nat) = [] \/
   tokens ";"%char (default [] (fields ":"%char s !! 0%nat)) <> []) ->
  match addresses_of (tokens ";"%char (default [] (fields ":"%char s !! 0%nat))),
        addresses_of (tokens ";"%char (default [] (fields ":"%char s !! 1%nat)))
  with
  | Some ins, Some outs =>
      exists m', process_line_loop fuel (Some (length pre)) 1 m st =
                   Some (m', mkState (max_with (max_id st) (ins ++ outs))
                               (edges st ++ match ins with
                                            | a :: rest => star_edges a rest
                                            | [] => []
                                            end))
  | _, _ => process_line_loop fuel (Some (length pre)) 1 m st = None
  end.
Proof.
  intros Hb Hs Hf Hreg. destruct fuel as [|fuel]; [lia|].
  cbn [process_line_loop]. rewrite Hb.
  destruct (fields_inv ":"%char s Hs) as (f & Hp & [[-> E]|(r & -> & E & Hr)]);
    rewrite E in *; cbn [lookup list_lookup default from_option id] in *.
  - rewrite strsep_last by exact Hp. destruct fuel as [|fuel]; [lia|].
    change (tokens ";"%char []) with (@nil text). cbn [addresses_of].
    destruct f as [|c f].
    + cbn [app]. rewrite peek_at, is_char_refl.
      change (tokens ";"%char []) with (@nil text). cbn [negb addresses_of].
      rewrite Steps.bind_some, loop_done. eexists. cbn [app max_with foldl].
      rewrite app_nil_r. now destruct st.
    + rewrite (filled_field ":"%char) by exact Hp.
      destruct Hreg as [|Hreg]; [discriminate|].
      pose proof (process_inputs_items pre (c :: f) post
                    (with_buffer (pre ++ (c :: f) ++ NUL :: post) m) st
                    eq_refl (plain_no_nul _ _ Hp) Hreg) as Hi.
      destruct (addresses_of (tokens ";"%char (c :: f))) as [[|a rest]|] eqn:Ea.
      * apply addresses_of_length in Ea.
        destruct (tokens ";"%char (c :: f)); [contradiction|discriminate].
      * destruct Hi as (f' & o & Hl & ->).
        rewrite Steps.bind_some, loop_done. rewrite app_nil_r. eauto.
      * now rewrite Hi.
  - rewrite <- app_assoc. cbn [app]. rewrite strsep_more by auto.
    assert (length (buffer m) = length pre + length f + 1 + length r + 1
                                 + length post)%nat as Hlen.
    { rewrite Hb, !length_app. cbn [length]. rewrite ?length_app.
      cbn [length]. lia. }
    destruct f as [|c f].
    + cbn [app]. rewrite peek_at, is_char_refl.
      change (tokens ";"%char []) with (@nil text). cbn [negb addresses_of].
      rewrite Steps.bind_some.
      pose proof (loop_outputs fuel r (pre ++ [NUL]) post
                    (with_buffer (pre ++ NUL :: r ++ NUL :: post) m) st) as Ho.
      rewrite length_app in Ho. cbn [length] in *.
      replace (S (length pre + 0)) with (length pre + 1)%nat by lia.
      destruct (addresses_of (tokens ";"%char
                  (default [] (fields ":"%char r !! 0%nat)))) as [outs|].
      * destruct Ho as (m' & ->);
          [rewrite buffer_with, <- app_assoc; reflexivity|exact Hr|..].
        { rewrite buffer_with, !length_app. cbn [length].
          rewrite ?length_app. cbn [length]. lia. }
        exists m'. cbn [app]. now rewrite app_nil_r.
      * apply Ho; [rewrite buffer_with, <- app_assoc; reflexivity|exact Hr|].
        rewrite buffer_with, !length_app. cbn [length].
        rewrite ?length_app. cbn [length]. lia.
    + rewrite (filled_field ":"%char) by exact Hp.
      destruct Hreg as [|Hreg]; [discriminate|].
      pose proof (process_inputs_items pre (c :: f) (r ++ NUL :: post)
                    (with_buffer (pre ++ (c :: f) ++ NUL :: r ++ NUL :: post) m) st
                    eq_refl (plain_no_nul _ _ Hp) Hreg) as Hi.
      destruct (addresses_of (tokens ";"%char (c :: f))) as [[|a rest]|] eqn:Ea.
      * apply addresses_of_length in Ea.
        destruct (tokens ";"%char (c :: f)); [contradiction|discriminate].
      * destruct Hi as (f' & o & Hl & ->). rewrite Steps.bind_some.
        rewrite line_size_with.
        pose proof (loop_outputs fuel r (pre ++ f' ++ [NUL]) post
                      (mkMemory (pre ++ f' ++ NUL :: r ++ NUL :: post)
                         (line_size m) o)
                      (mkState (max_with (max_id st) (a :: rest))
                         (edges st ++ star_edges a rest))) as Ho.
        rewrite !length_app, Hl in Ho. cbn [length buffer] in Ho.
        replace (S (length pre + length (c :: f)))
          with (length pre + (S (length f) + 1))%nat by (cbn [length]; lia).
        destruct (addresses_of (tokens ";"%char
                    (default [] (fields ":"%char r !! 0%nat)))) as [outs|].
        -- destruct Ho as (m' & ->);
             [rewrite <- !app_assoc; reflexivity|exact Hr|..].
           { rewrite !length_app. cbn [length]. rewrite ?length_app.
             cbn [length] in *. lia. }
           exists m'. cbn [max_id edges]. now rewrite max_with_app.
        -- apply Ho; [rewrite <- !app_assoc; reflexivity|exact Hr|].
           rewrite !length_app. cbn [length]. rewrite ?length_app.
           cbn [length] in *. lia.
      * now rewrite Hi.
Qed.

End BuilderLines.

Module BuilderStream.
Import CString CMem Tx Builder CMemFacts BuilderRun BuilderLoops BuilderFields
  BuilderAny BuilderLine BuilderLines.

#[local] Hint Resolve semicolon_not_nul comma_not_nul colon_not_nul : core.

(** The edges that the second token adds, whatever the field holds. *)
Lemma loop_inputs_any fuel (s pre post : text) m st m' st' :
  buffer m = pre ++ s ++ NUL :: post -> Forall (fun c => c <> NUL) s ->
  process_line_loop fuel (Some (length pre)) 1 m st = Some (m', st') ->
  edges st' =
    edges st ++
      match addresses_of (tokens ";"%char
                            (default [] (fields ":"%char s !! 0%nat))) with
      | Some (a :: rest) => star_edges a rest
      | _ => []
      end.
Proof.
  intros Hb Hs. destruct fuel as [|fuel]; [discriminate|].
  cbn [process_line_loop]. rewrite Hb.
  assert (exists post' lb', plain ":"%char (default [] (fields ":"%char s !! 0%nat)) /\
            strsep ":"%char (pre ++ s ++ NUL :: post) (Some (length pre)) =
              (pre ++ default [] (fields ":"%char s !! 0%nat) ++ NUL :: post',
               lb', Some (length pre))) as (post' & lb' & Hp & ->).
  { destruct (fields_inv ":"%char s Hs) as (f & Hp & [[-> E]|(r & -> & E & Hr)]);
      rewrite E; cbn [lookup list_lookup default from_option id].
    - rewrite strsep_last by exact Hp. eauto.
    - rewrite <- app_assoc. cbn [app]. rewrite strsep_more by auto. eauto. }
  destruct (default [] (fields ":"%char s !! 0%nat)) as [|c f].
  - cbn [app]. rewrite peek_at, is_char_refl.
    change (tokens ";"%char []) with (@nil text). cbn [negb addresses_of].
    rewrite Steps.bind_some. intros H.
    apply process_line_loop_any in H as [-> _]; [|lia]. now rewrite app_nil_r.
  - rewrite (filled_field ":"%char) by exact Hp.
    destruct (tokens ";"%char (c :: f)) as [|it items] eqn:Et.
    + cbn [addresses_of].
      destruct (process_inputs (length pre)
                  (with_buffer (pre ++ (c :: f) ++ NUL :: post') m) st)
        as [[m1 st1]|] eqn:Ei; [|discriminate].
      rewrite Steps.bind_some. intros H.
      apply process_line_loop_any in H as [-> _]; [|lia].
      apply (process_inputs_stale pre (c :: f) post') in Ei as [-> _];
        [now rewrite app_nil_r|reflexivity|].
      apply tokens_none; [exact (plain_no_nul _ _ Hp)|exact Et].
    + pose proof (process_inputs_items pre (c :: f) post'
                    (with_buffer (pre ++ (c :: f) ++ NUL :: post') m) st
                    eq_refl (plain_no_nul _ _ Hp)) as Hi.
      rewrite Et in Hi. specialize (Hi ltac:(discriminate)).
      destruct (addresses_of (it :: items)) as [[|a rest]|];
        try (rewrite Hi; discriminate).
      destruct Hi as (f' & o & Hl & ->). rewrite Steps.bind_some. intros H.
      apply process_line_loop_any in H as [-> _]; [|lia]. reflexivity.
Qed.

Lemma getline_buffer line m :
  exists y, buffer (getline line m) = cstr line ++ NUL :: y.
Proof.
  unfold getline.
  destruct (cstr_prefix line (drop (S (length line)) (buffer m))) as [y Hy].
  exists y. now destruct (_ <=? _)%nat.
Qed.

(** *** One line *)

(** The edges that a line adds, on every line. *)
Lemma process_line_edges line m st m' st' :
  process_line (getline line m) st = Some (m', st') ->
  edges st' = edges st ++ line_edges line.
Proof.
  unfold process_line, line_edges, inputs, field.
  destruct (getline_buffer line m) as [y Hb]. rewrite Hb.
  generalize (S (length (cstr line ++ NUL :: y))). intros n.
  set (m0 := getline line m) in *.
  cbn [process_line_loop]. rewrite Hb.
  pose proof (cstr_no_nul line) as Hs.
  destruct (fields_inv ":"%char (cstr line) Hs)
    as (f & Hp & [[E1 E]|(r & E1 & E & Hr)]); rewrite E;
    cbn [lookup list_lookup default from_option id].
  - rewrite E1. pose proof (strsep_last ":"%char [] f y Hp) as Hsep.
    cbn [app length] in Hsep. rewrite Hsep.
    rewrite Steps.bind_some. destruct n as [|n]; [discriminate|].
    rewrite loop_done. intros [= <- <-].
    change (tokens ";"%char []) with (@nil text). cbn [addresses_of].
    now rewrite app_nil_r.
  - rewrite E1. rewrite <- app_assoc. cbn [app].
    pose proof (strsep_more ":"%char [] f (r ++ NUL :: y)) as Hsep.
    cbn [app length] in Hsep. rewrite Hsep by auto.
    rewrite Steps.bind_some. cbn [app length Nat.add]. intros H.
    replace (S (length f)) with (length (f ++ [NUL])) in H
      by (rewrite length_app; cbn [length]; lia).
    apply (loop_inputs_any _ r (f ++ [NUL]) y) in H; [exact H| |exact Hr].
    rewrite buffer_with, <- app_assoc. reflexivity.
Qed.


(** A line whose inputs field is empty or holds an item: the run goes on
    exactly when every item has an address, and the addresses of the line
    raise [max_id]. *)
Lemma process_line_spec line m st :
  has_first_input line = true ->
  match inputs line, outputs line with
  | Some ins, Some outs =>
      exists m', process_line (getline line m) st =
                   Some (m', mkState (max_with (max_id st) (ins ++ outs))
                               (edges st ++ line_edges line))
  | _, _ => process_line (getline line m) st = None
  end.
Proof.
  unfold process_line, line_edges, has_first_input, inputs, outputs, field.
  destruct (getline_buffer line m) as [y Hb].
  set (m0 := getline line m) in *.
  assert (exists n, S (length (buffer m0)) = n /\ (length (buffer m0) < n)%nat)
    as (n & -> & Hn) by (eexists; split; [reflexivity|lia]).
  cbn [process_line_loop]. rewrite Hb.
  pose proof (cstr_no_nul line) as Hs.
  destruct (fields_inv ":"%char (cstr line) Hs)
    as (f & Hp & [[E1 E]|(r & E1 & E & Hr)]); rewrite E;
    cbn [lookup list_lookup default from_option id].
  - intros _. rewrite E1. pose proof (strsep_last ":"%char [] f y Hp) as Hsep.
    cbn [app length] in Hsep. rewrite Hsep.
    rewrite Steps.bind_some. destruct n as [|n]; [lia|].
    rewrite loop_done.
    change (tokens ";"%char []) with (@nil text). cbn [addresses_of].
    eexists. cbn [app max_with foldl]. rewrite app_nil_r. now destruct st.
  - intros Hreg. rewrite E1. rewrite <- app_assoc. cbn [app].
    pose proof (strsep_more ":"%char [] f (r ++ NUL :: y)) as Hsep.
    cbn [app length] in Hsep. rewrite Hsep by auto.
    rewrite Steps.bind_some. cbn [app length Nat.add].
    replace (S (length f)) with (length (f ++ [NUL]))
      by (rewrite length_app; cbn [length]; lia).
    pose proof (loop_inputs n r (f ++ [NUL]) y
                  (with_buffer (f ++ NUL :: r ++ NUL :: y) m0) st) as Hl.
    destruct (addresses_of (tokens ";"%char
                (default [] (fields ":"%char r !! 0%nat)))) as [ins|] eqn:Ei.
    + destruct (addresses_of (tokens ";"%char
                  (default [] (fields ":"%char r !! 1%nat)))) as [outs|].
      * destruct Hl as (m' & ->); [| | | |].
        { rewrite buffer_with, <- app_assoc. reflexivity. }
        { exact Hr. }
        { rewrite buffer_with. rewrite Hb, E1 in Hn.
          rewrite !length_app in *. cbn [length] in *.
          rewrite ?length_app in *. cbn [length] in *. lia. }
        { destruct (default [] (fields ":"%char r !! 0%nat)) as [|c0 f0];
            [now left|right].
          destruct (tokens ";"%char (c0 :: f0)); [discriminate|discriminate]. }
        exists m'. destruct ins; reflexivity.
      * apply Hl.
        { rewrite buffer_with, <- app_assoc. reflexivity. }
        { exact Hr. }
        { rewrite buffer_with. rewrite Hb, E1 in Hn.
          rewrite !length_app in *. cbn [length] in *.
          rewrite ?length_app in *. cbn [length] in *. lia. }
        { destruct (default [] (fields ":"%char r !! 0%nat)) as [|c0 f0];
            [now left|right].
          destruct (tokens ";"%char (c0 :: f0)); [discriminate|discriminate]. }
    + apply Hl.
      { rewrite buffer_with, <- app_assoc. reflexivity. }
      { exact Hr. }
      { rewrite buffer_with. rewrite Hb, E1 in Hn.
        rewrite !length_app in *. cbn [length] in *.
        rewrite ?length_app in *. cbn [length] in *. lia. }
      { destruct (default [] (fields ":"%char r !! 0%nat)) as [|c0 f0];
          [now left|right].
        destruct (tokens ";"%char (c0 :: f0)); [discriminate|discriminate]. }
Qed.

(** *** The lines of a stream *)

Lemma process_lines_edges lines : forall m st m' st',
  process_lines lines m st = Some (m', st') ->
  edges st' = edges st ++ flat_map line_edges lines.
Proof.
  induction lines as [|l lines IH]; intros m st m' st' H.
  - injection H as <- <-. cbn. now rewrite app_nil_r.
  - cbn [process_lines] in H.
    destruct (process_line (getline l m) st) as [[m1 st1]|] eqn:E1;
      [|discriminate].
    rewrite Steps.bind_some in H. apply IH in H.
    apply process_line_edges in E1. cbn [flat_map].
    now rewrite H, E1, app_assoc.
Qed.

Lemma process_lines_spec lines : forall m st m' st',
  Forall (fun l => has_first_input l = true) lines ->
  process_lines lines m st = Some (m', st') ->
  Forall (fun l => parses l = true) lines /\
  max_id st' = max_with (max_id st) (flat_map observed_in_line lines).
Proof.
  induction lines as [|l lines IH]; intros m st m' st' Hreg H.
  - injection H as <- <-. split; [constructor|reflexivity].
  - inversion Hreg as [|? ? Hl Hreg']; subst. cbn [process_lines] in H.
    pose proof (process_line_spec l m st Hl) as Hs.
    destruct (inputs l) as [ins|] eqn:Ei; [|rewrite Hs in H; discriminate].
    destruct (outputs l) as [outs|] eqn:Eo; [|rewrite Hs in H; discriminate].
    destruct Hs as (m1 & Hs). rewrite Hs, Steps.bind_some in H.
    apply IH in H as [Hall Hm]; [|exact Hreg']. split.
    + constructor; [|exact Hall]. unfold parses. rewrite Ei, Eo.
      apply andb_true_intro; split; apply bool_decide_eq_true; eauto.
    + cbn [flat_map]. unfold observed_in_line at 1. rewrite Ei, Eo.
      cbn [default from_option id]. rewrite max_with_app. exact Hm.
Qed.

Lemma process_lines_total lines : forall m st,
  Forall (fun l => parses l = true /\ has_first_input l = true) lines ->
  is_Some (process_lines lines m st).
Proof.
  induction lines as [|l lines IH]; intros m st H; [cbn; eauto|].
  inversion H as [|? ? [Hp Hf] Hall]; subst. cbn [process_lines].
  pose proof (process_line_spec l m st Hf) as Hs.
  unfold parses in Hp. apply andb_prop in Hp as [Hi Ho].
  apply bool_decide_eq_true in Hi as [ins Hi], Ho as [outs Ho].
  rewrite Hi, Ho in Hs. destruct Hs as (m1 & ->).
  rewrite Steps.bind_some. now apply IH.
Qed.

End BuilderStream.


Module UniqueFacts.
Import Builder EdgeFacts.

Lemma elem_of_unique_from x es : forall prev,
  x ∈ unique_from prev es -> x ∈ es.
Proof.
  induction es as [|e es IH]; intros prev H; [inversion H|].
  cbn [unique_from] in H. destruct (decide (prev = Some e)).
  - right. eauto.
  - apply elem_of_cons in H as [->|H]; [left|right; eauto].
Qed.

(** Skipping drops nothing but repetitions. *)
Lemma unique_from_keeps x es : forall prev,
  x ∈ es -> prev = Some x \/ x ∈ unique_from prev es.
Proof.
  induction es as [|e es IH]; intros prev H; [inversion H|].
  cbn [unique_from]. apply elem_of_cons in H as [->|H].
  - destruct (decide (prev = Some e)); [now left|right; left].
  - destruct (IH (Some e) H) as [[= <-]|Hin].
    + destruct (decide (prev = Some e)); [now left|right; left].
    + right. destruct (decide (prev = Some e)); [exact Hin|now right].
Qed.

Lemma elem_of_unique x es : x ∈ unique_from None es <-> x ∈ es.
Proof.
  split; [apply elem_of_unique_from|].
  intros H. now destruct (unique_from_keeps x es None H).
Qed.

Lemma unique_from_differs p es :
  StronglySorted Edge.le es -> Forall (Edge.le p) es ->
  forall x, x ∈ unique_from (Some p) es -> x <> p.
Proof.
  intros Hs. revert p. induction Hs as [|e es Hs IH Hle]; intros p Hp x Hx.
  - inversion Hx.
  - cbn [unique_from] in Hx. inversion Hp as [|? ? Hpe Hpes]; subst.
    destruct (decide (Some p = Some e)) as [[= ->]|Hne].
    + now apply (IH e Hle).
    + apply elem_of_cons in Hx as [->|Hx]; [congruence|].
      intros ->. apply Hne. f_equal.
      apply (anti_symm Edge.le); [exact Hpe|].
      apply elem_of_unique_from in Hx.
      rewrite Forall_forall in Hle. now apply Hle.
Qed.

Lemma NoDup_unique_from es :
  StronglySorted Edge.le es -> forall prev, NoDup (unique_from prev es).
Proof.
  induction 1 as [|e es Hs IH Hle]; intros prev; [constructor|].
  cbn [unique_from]. destruct (decide (prev = Some e)); [apply IH|].
  constructor; [|apply IH].
  intros Hin. now apply (unique_from_differs e es Hs Hle e Hin).
Qed.

Lemma NoDup_written st : NoDup (written_edges st).
Proof.
  apply NoDup_unique_from. apply StronglySorted_merge_sort; apply _.
Qed.

Lemma elem_of_written e st : e ∈ written_edges st <-> e ∈ edges st.
Proof.
  unfold written_edges. rewrite elem_of_unique. unfold Edge.sort.
  now rewrite merge_sort_Permutation.
Qed.

End UniqueFacts.

Module BuilderEdges.
Import CString Tx Codec Input Builder.

Lemma minmax_cases a b :
  (a <= b /\ Edge.minmax a b = (a, b)) \/ (b < a /\ Edge.minmax a b = (b, a)).
Proof. unfold Edge.minmax. destruct (Z.ltb_spec b a); [right|left]; auto. Qed.

Lemma unordered_id (e : Edge.t) : e.1 < e.2 -> Edge.unordered e = e.
Proof.
  destruct e as [u v]. unfold Edge.unordered, Edge.minmax. cbn. intros H.
  destruct (Z.ltb_spec v u); [lia|reflexivity].
Qed.

(** Edges whose first endpoint is the smaller one and that do not repeat
    are a simple edge list. *)
Lemma simple_of_increasing (es : list Edge.t) :
  Forall (fun e => e.1 < e.2) es -> NoDup es -> Edge.simple es.
Proof.
  intros Hlt Hnd. split.
  - eapply Forall_impl; [exact Hlt|]. cbn. intros e H. lia.
  - replace (Edge.unordered <$> es) with es; [exact Hnd|].
    induction Hlt as [|e es He _ IH]; [reflexivity|].
    cbn [fmap list_fmap]. rewrite unordered_id by exact He. f_equal.
    apply IH. now inversion Hnd.
Qed.

Lemma elem_of_star_edges e a rest :
  e ∈ star_edges a rest <-> exists b, b ∈ rest /\ b <> a /\ e = Edge.minmax a b.
Proof.
  unfold star_edges. rewrite list_elem_of_fmap. split.
  - intros (b & -> & Hb). apply list_elem_of_In, filter_In in Hb as [Hb Hne].
    exists b. rewrite <- list_elem_of_In in Hb.
    destruct (Z.eqb_spec b a); [discriminate|]. auto.
  - intros (b & Hb & Hne & ->). exists b. split; [reflexivity|].
    apply list_elem_of_In, filter_In. rewrite <- list_elem_of_In.
    split; [exact Hb|]. now destruct (Z.eqb_spec b a).
Qed.

Lemma elem_of_line_edges e line :
  e ∈ line_edges line <->
  exists a rest b, inputs line = Some (a :: rest) /\ b ∈ rest /\ b <> a /\
                   e = Edge.minmax a b.
Proof.
  unfold line_edges. destruct (inputs line) as [[|a rest]|].
  - split; [inversion 1|]. intros (? & ? & ? & [=] & _).
  - rewrite elem_of_star_edges. split.
    + intros (b & ? & ? & ?). exists a, rest, b. auto.
    + intros (a' & rest' & b & [= <- <-] & ? & ? & ?). eauto.
  - split; [inversion 1|]. intros (? & ? & ? & [=] & _).
Qed.

(** Every edge of a line joins two different input addresses of the line,
    the smaller one first. *)
Lemma line_edge_shape e line :
  e ∈ line_edges line ->
  e.1 < e.2 /\ Int32.in_range e.1 /\ Int32.in_range e.2 /\
  exists ins, inputs line = Some ins /\ e.1 ∈ ins /\ e.2 ∈ ins.
Proof.
  rewrite elem_of_line_edges. intros (a & rest & b & Hi & Hb & Hne & ->).
  pose proof (TxFacts.addresses_of_in_range _ _ Hi) as Hr.
  rewrite Forall_forall in Hr.
  assert (Ha' : a ∈ a :: rest) by left.
  assert (Hb' : b ∈ a :: rest) by now right.
  destruct (minmax_cases a b) as [[Hle ->]|[Hlt ->]]; cbn [fst snd];
    (split; [lia|]); (split; [auto|]); (split; [auto|]);
    exists (a :: rest); auto.
Qed.

Lemma edges_shape lines m m' st :
  process_lines lines m (mkState 0 []) = Some (m', st) ->
  Forall (fun e => e.1 < e.2 /\ Int32.in_range e.1 /\ Int32.in_range e.2)
         (edges st).
Proof.
  intros H. apply BuilderStream.process_lines_edges in H as ->.
  cbn [edges app]. rewrite Forall_forall. intros e He.
  apply list_elem_of_In, in_flat_map in He as (line & _ & He).
  apply list_elem_of_In, line_edge_shape in He. tauto.
Qed.

Lemma written_shape lines m m' st :
  process_lines lines m (mkState 0 []) = Some (m', st) ->
  Forall (fun e => e.1 < e.2 /\ Int32.in_range e.1 /\ Int32.in_range e.2)
         (written_edges st).
Proof.
  intros H. pose proof (edges_shape _ _ _ _ H) as Hs.
  rewrite Forall_forall in *. intros e He. apply Hs.
  now apply UniqueFacts.elem_of_written.
Qed.

(** The [int]s that a swapping reader gets from the file of [main]: the
    two counts, then the kept edges in order. *)
Lemma main_decodes host input o :
  main host input = Some o ->
  exists m st,
    process_lines (getlines input) no_memory (mkState 0 []) = Some (m, st) /\
    num_nodes o = Int32.add (max_id st) 1 /\
    num_edges o = Int32.wrap (Z.of_nat (length (written_edges st))) /\
    int_pairs host bswap32 (file o) =
      (num_nodes o, num_edges o) :: written_edges st.
Proof.
  intros H.
  destruct (BuilderFacts.main_spec _ _ _ H) as (m & st & Hst & Hn & Hm & Hf).
  exists m, st. repeat (split; [assumption|]).
  rewrite Hf, InputFacts.int_pairs_app by apply BuilderFacts.length_put_pair.
  destruct (InputFacts.buf_put_pair host (num_nodes o) (num_edges o)) as [-> ->].
  - rewrite Hn. apply Int32Facts.wrap_in_range.
  - rewrite Hm. apply Int32Facts.wrap_in_range.
  - f_equal. apply InputFacts.int_pairs_encode_edges.
    eapply Forall_impl; [exact (written_shape _ _ _ _ Hst)|]. cbn. tauto.
Qed.

End BuilderEdges.

Module NumberingFacts.
Import CString Tx BuilderV02.

Lemma length_note seen a : (length seen <= length (note seen a))%nat.
Proof.
  unfold note. destruct (decide (a ∈ seen)); [lia|].
  rewrite length_app. cbn. lia.
Qed.

Lemma length_foldl_note l : forall seen,
  (length seen <= length (foldl note seen l))%nat.
Proof.
  induction l as [|a l IH]; intros seen; cbn; [lia|].
  pose proof (length_note seen a). specialize (IH (note seen a)). lia.
Qed.

Lemma note_prefix seen a : seen `prefix_of` note seen a.
Proof.
  unfold note. destruct (decide (a ∈ seen)); [reflexivity|].
  now apply prefix_app_r.
Qed.

Lemma foldl_note_prefix l : forall seen, seen `prefix_of` foldl note seen l.
Proof.
  induction l as [|a l IH]; intros seen; cbn; [reflexivity|].
  etransitivity; [apply note_prefix|apply IH].
Qed.

Lemma elem_of_note seen a x : x ∈ note seen a <-> x ∈ seen \/ x = a.
Proof.
  unfold note. destruct (decide (a ∈ seen)).
  - split; [auto|]. intros [H| ->]; auto.
  - rewrite elem_of_app, list_elem_of_singleton. tauto.
Qed.

Lemma elem_of_foldl_note l : forall seen x,
  x ∈ foldl note seen l <-> x ∈ seen \/ x ∈ l.
Proof.
  induction l as [|a l IH]; intros seen x; cbn.
  - split; [auto|]. intros [H|H]; [exact H|inversion H].
  - rewrite IH, elem_of_note, elem_of_cons. tauto.
Qed.

Lemma NoDup_note seen a : NoDup seen -> NoDup (note seen a).
Proof.
  intros H. unfold note. destruct (decide (a ∈ seen)); [exact H|].
  apply NoDup_app. split; [exact H|]. split.
  - intros x Hx Hx'. apply list_elem_of_singleton in Hx'. now subst.
  - apply NoDup_singleton.
Qed.

Lemma NoDup_foldl_note l : forall seen, NoDup seen -> NoDup (foldl note seen l).
Proof.
  induction l as [|a l IH]; intros seen H; cbn; [exact H|].
  apply IH. now apply NoDup_note.
Qed.

Lemma elem_of_first_occurrences l x : x ∈ first_occurrences l <-> x ∈ l.
Proof.
  unfold first_occurrences. rewrite elem_of_foldl_note.
  split; [intros [H|H]; [inversion H|exact H]|auto].
Qed.

Lemma NoDup_first_occurrences l : NoDup (first_occurrences l).
Proof. apply NoDup_foldl_note. constructor. Qed.

Lemma first_occurrences_app l1 l2 :
  first_occurrences (l1 ++ l2) = foldl note (first_occurrences l1) l2.
Proof. apply foldl_app. Qed.

(** Numbering: the consequences of [numbers]. *)
Lemma numbers_lookup_range st seen a i :
  numbers st seen -> nodes st !! a = Some i -> 0 <= i < id_count st.
Proof.
  intros (_ & Hc & Hl) H. apply Hl in H as [H0 H].
  apply lookup_lt_Some in H. lia.
Qed.

Lemma numbers_elem st seen a :
  numbers st seen -> a ∈ seen <-> is_Some (nodes st !! a).
Proof.
  intros (_ & _ & Hl). split.
  - intros H. apply list_elem_of_lookup in H as [i H].
    exists (Z.of_nat i). apply Hl. rewrite Nat2Z.id. split; [lia|exact H].
  - intros [i H]. apply Hl in H as [_ H]. eapply list_elem_of_lookup_2, H.
Qed.

Lemma numbers_inj st seen a b i :
  numbers st seen -> nodes st !! a = Some i -> nodes st !! b = Some i -> a = b.
Proof.
  intros (_ & _ & Hl) Ha Hb. apply Hl in Ha as [_ Ha], Hb as [_ Hb]. congruence.
Qed.

Lemma numbers_surj st seen i :
  numbers st seen -> 0 <= i < id_count st -> exists a, nodes st !! a = Some i.
Proof.
  intros (_ & Hc & Hl) Hi.
  destruct (lookup_lt_is_Some_2 seen (Z.to_nat i)) as [a Ha]; [lia|].
  exists a. apply Hl. split; [lia|exact Ha].
Qed.

Lemma numbers_size st seen :
  numbers st seen -> size (nodes st) = length seen.
Proof.
  intros Hn. pose proof Hn as (Hnd & _ & _).
  rewrite <- size_dom, <- (size_list_to_set (C:=gset Z) seen) by exact Hnd.
  f_equal. apply set_eq. intros a.
  rewrite elem_of_dom, elem_of_list_to_set. symmetry. now apply numbers_elem.
Qed.

End NumberingFacts.

Module BuilderV02Run.
Import CString Tx BuilderV02 NumberingFacts.

Lemma note_in seen a : a ∈ seen -> note seen a = seen.
Proof. intros H. unfold note. now destruct (decide (a ∈ seen)). Qed.

Lemma note_notin seen a : a ∉ seen -> note seen a = seen ++ [a].
Proof. intros H. unfold note. now destruct (decide (a ∈ seen)). Qed.

(** A known address: [contains_node] finds its identifier. *)
Lemma contains_known st seen a :
  numbers st seen -> a ∈ seen ->
  exists i, nodes st !! a = Some i /\ contains_node (nodes st) a = i /\
            (i =? -1) = false.
Proof.
  intros Hn Ha. destruct (proj1 (numbers_elem _ _ a Hn) Ha) as [i Hi].
  exists i. unfold contains_node. rewrite Hi. repeat split.
  pose proof (numbers_lookup_range _ _ _ _ Hn Hi). lia.
Qed.

(** A new address: [contains_node] returns -1. *)
Lemma contains_new st seen a :
  numbers st seen -> a ∉ seen ->
  nodes st !! a = None /\ contains_node (nodes st) a = -1.
Proof.
  intros Hn Ha. assert (nodes st !! a = None) as H.
  { destruct (nodes st !! a) eqn:E; [|reflexivity].
    exfalso. apply Ha. apply (numbers_elem _ _ a Hn). eauto. }
  split; [exact H|]. unfold contains_node. now rewrite H.
Qed.

(** A new address gets the value of the counter, and the counter moves on
    by one. *)
Lemma numbers_add_node st seen a :
  numbers st seen -> a ∉ seen -> Z.of_nat (length seen) < Int32.INT_MAX ->
  numbers (add_node a st) (seen ++ [a]).
Proof.
  intros Hn Ha Hb. pose proof Hn as (Hnd & Hc & Hl).
  split; [|split].
  - apply NoDup_app. split; [exact Hnd|]. split; [|apply NoDup_singleton].
    intros x Hx Hx'. apply list_elem_of_singleton in Hx'. now subst.
  - cbn [add_node id_count]. rewrite Hc, length_app. cbn [length].
    unfold Int32.add. rewrite Int32Facts.wrap_id.
    + lia.
    + unfold Int32.in_range, Int32.INT_MIN, Int32.INT_MAX in *. lia.
  - intros b i. cbn [add_node nodes]. rewrite lookup_insert.
    destruct (decide (a = b)) as [<-|Hne].
    + rewrite Hc. split.
      * intros [= <-]. split; [lia|].
        rewrite Nat2Z.id. now rewrite lookup_app_r, Nat.sub_diag.
      * intros [H0 H]. f_equal.
        destruct (decide (Z.to_nat i < length seen)%nat) as [Hlt|Hge].
        -- rewrite lookup_app_l in H by exact Hlt.
           exfalso. apply Ha. eapply list_elem_of_lookup_2, H.
        -- apply lookup_lt_Some in H. rewrite length_app in H. cbn in H. lia.
    + rewrite Hl. split; intros [H0 H]; (split; [exact H0|]).
      * rewrite lookup_app_l; [exact H|]. now apply lookup_lt_Some in H.
      * destruct (decide (Z.to_nat i < length seen)%nat) as [Hlt|Hge].
        -- now rewrite lookup_app_l in H.
        -- rewrite lookup_app_r in H by lia.
           apply list_elem_of_lookup_2, list_elem_of_singleton in H.
           congruence.
Qed.

Lemma add_node_extends st seen a b i :
  numbers st seen -> a ∉ seen ->
  nodes st !! b = Some i -> nodes (add_node a st) !! b = Some i.
Proof.
  intros Hn Ha Hb. cbn [add_node nodes]. rewrite lookup_insert_ne; [exact Hb|].
  intros <-. apply Ha. apply (numbers_elem _ _ a Hn). eauto.
Qed.

Lemma edges_ascend_add_node st seen a :
  numbers st seen -> a ∉ seen -> edges_ascend st -> edges_ascend (add_node a st).
Proof.
  intros Hn Ha He u v Huv. destruct (He u v Huv) as (x & y & Hxy & Hx & Hy).
  exists x, y. eauto using add_node_extends.
Qed.

(** The path loop of [process_inputs]. *)
Lemma path_loop_spec addrs : forall prev_id st seen,
  numbers st seen -> edges_ascend st ->
  StronglySorted Z.lt addrs ->
  (prev_id = -1 \/
   exists pa, nodes st !! pa = Some prev_id /\ Forall (Z.lt pa) addrs) ->
  Z.of_nat (length (foldl note seen addrs)) <= Int32.INT_MAX ->
  numbers (path_loop addrs prev_id st) (foldl note seen addrs) /\
  edges_ascend (path_loop addrs prev_id st).
Proof.
  induction addrs as [|a addrs IH]; intros prev st seen Hn He Hs Hp Hb.
  - cbn. auto.
  - cbn [path_loop foldl]. cbn [foldl] in Hb.
    inversion Hs as [|? ? Hs' Hlt]; subst.
    pose proof (length_foldl_note addrs (note seen a)) as Hmono.
    (* the state and the identifier after the lookup *)
    assert (exists st1 curr_id,
      (if contains_node (nodes st) a =? -1 then add_node a st else st) = st1 /\
      (if contains_node (nodes st) a =? -1 then id_count st
       else contains_node (nodes st) a) = curr_id /\
      numbers st1 (note seen a) /\ edges_ascend st1 /\
      nodes st1 !! a = Some curr_id /\ curr_id <> -1 /\
      (forall b i, nodes st !! b = Some i -> nodes st1 !! b = Some i))
      as (st1 & curr_id & -> & -> & Hn1 & He1 & Ha1 & Hc1 & Hext).
    { destruct (decide (a ∈ seen)) as [Hin|Hnin].
      - rewrite (note_in _ _ Hin) in *.
        destruct (contains_known _ _ _ Hn Hin) as (i & Hi & -> & Hneq).
        rewrite Hneq. exists st, i. split_and!; auto.
        apply Z.eqb_neq. exact Hneq.
      - rewrite (note_notin _ _ Hnin) in *.
        destruct (contains_new _ _ _ Hn Hnin) as (Hnone & ->).
        cbn [Z.eqb Pos.eqb]. exists (add_node a st), (id_count st).
        assert (Z.of_nat (length seen) < Int32.INT_MAX) as Hlt'.
        { rewrite length_app in Hmono. cbn in Hmono. lia. }
        split_and!; eauto using numbers_add_node, edges_ascend_add_node,
          add_node_extends.
        + cbn [add_node nodes]. apply lookup_insert_eq.
        + destruct Hn as (_ & -> & _). lia. }
    apply IH; auto.
    + destruct (Z.eqb_spec prev (-1)) as [->|Hprev]; [exact Hn1|].
      exact Hn1.
    + destruct (Z.eqb_spec prev (-1)) as [->|Hprev]; [exact He1|].
      destruct Hp as [Hp|(pa & Hpa & Hfa)]; [contradiction|].
      intros u v Huv. cbn [add_edge edges nodes] in *.
      apply elem_of_union in Huv as [Huv|Huv]; [|now apply He1].
      apply elem_of_singleton in Huv as [= -> ->].
      exists pa, a. inversion Hfa; subst. auto.
    + right. exists a. split; [|exact Hlt].
      now destruct (prev =? -1).
Qed.

End BuilderV02Run.

Module BuilderV02Lines.
Import CString Tx BuilderV02 NumberingFacts BuilderV02Run.

Lemma input_addresses_spec items : forall acc,
  input_addresses items acc =
    l ← addresses_of items; Some (list_to_set l ∪ acc).
Proof.
  induction items as [|it items IH]; intros acc.
  - cbn. f_equal. now rewrite (left_id_L ∅ (∪)).
  - cbn [input_addresses addresses_of].
    destruct (address_of it) as [a|]; [|reflexivity].
    cbn [mbind option_bind]. rewrite IH.
    destruct (addresses_of items) as [l|]; [|reflexivity].
    cbn. f_equal. rewrite (comm_L (∪) {[a]} (list_to_set l)).
    now rewrite (assoc_L (∪)).
Qed.

Lemma elem_of_set_int_iter s a : a ∈ set_int_iter s <-> a ∈ s.
Proof.
  unfold set_int_iter. now rewrite merge_sort_Permutation, elem_of_elements.
Qed.

Lemma set_int_iter_sorted s : StronglySorted Z.lt (set_int_iter s).
Proof.
  unfold set_int_iter.
  assert (StronglySorted Z.le (merge_sort Z.le (elements s))) as Hs
    by (apply StronglySorted_merge_sort; apply _).
  assert (NoDup (merge_sort Z.le (elements s))) as Hnd
    by (rewrite merge_sort_Permutation; apply NoDup_elements).
  induction Hs as [|x l Hs IH Hle]; [constructor|].
  apply NoDup_cons in Hnd as [Hx Hnd]. constructor; [now apply IH|].
  rewrite Forall_forall in *. intros y Hy.
  specialize (Hle y Hy). assert (x <> y) by (intros ->; contradiction). lia.
Qed.

Lemma v02_process_inputs_spec inputs st seen ins :
  addresses_of (tokens ";"%char inputs) = Some ins ->
  numbers st seen -> edges_ascend st ->
  Z.of_nat (length (foldl note seen (set_int_iter (list_to_set ins))))
    <= Int32.INT_MAX ->
  exists st',
    process_inputs inputs st = Some st' /\
    numbers st' (foldl note seen (set_int_iter (list_to_set ins))) /\
    edges_ascend st'.
Proof.
  intros Hi Hn He Hb. unfold process_inputs.
  rewrite input_addresses_spec, Hi. cbn [mbind option_bind].
  rewrite (right_id_L ∅ (∪)).
  eexists. split; [reflexivity|].
  apply path_loop_spec; auto using set_int_iter_sorted.
Qed.

Lemma process_inputs_none inputs st :
  addresses_of (tokens ";"%char inputs) = None -> process_inputs inputs st = None.
Proof.
  intros Hi. unfold process_inputs. now rewrite input_addresses_spec, Hi.
Qed.

Lemma v02_process_outputs_loop_spec items : forall st seen outs,
  addresses_of items = Some outs ->
  numbers st seen -> edges_ascend st ->
  Z.of_nat (length (foldl note seen outs)) <= Int32.INT_MAX ->
  exists st',
    process_outputs_loop items st = Some st' /\
    numbers st' (foldl note seen outs) /\ edges_ascend st'.
Proof.
  induction items as [|it items IH]; intros st seen outs Ho Hn He Hb.
  - injection Ho as <-. cbn. eauto.
  - cbn [process_outputs_loop addresses_of] in *.
    destruct (address_of it) as [a|]; [|discriminate].
    destruct (addresses_of items) as [outs'|] eqn:Eo; [|discriminate].
    cbn [mbind option_bind] in *. injection Ho as <-. cbn [foldl] in *.
    pose proof (length_foldl_note outs' (note seen a)) as Hmono.
    apply (IH _ (note seen a)); auto.
    + destruct (decide (a ∈ seen)) as [Hin|Hnin].
      * rewrite (note_in _ _ Hin).
        destruct (contains_known _ _ _ Hn Hin) as (i & Hi & -> & ->). exact Hn.
      * rewrite (note_notin _ _ Hnin) in *.
        destruct (contains_new _ _ _ Hn Hnin) as (_ & ->). cbn [Z.eqb Pos.eqb].
        apply numbers_add_node; auto.
        rewrite length_app in Hmono. cbn in Hmono. lia.
    + destruct (decide (a ∈ seen)) as [Hin|Hnin].
      * destruct (contains_known _ _ _ Hn Hin) as (i & Hi & -> & ->). exact He.
      * destruct (contains_new _ _ _ Hn Hnin) as (_ & ->). cbn [Z.eqb Pos.eqb].
        eauto using edges_ascend_add_node.
Qed.

Lemma process_outputs_loop_none items : forall st,
  addresses_of items = None -> process_outputs_loop items st = None.
Proof.
  induction items as [|it items IH]; intros st Ho; [discriminate|].
  cbn [process_outputs_loop addresses_of] in *.
  destruct (address_of it) as [a|]; [|reflexivity].
  cbn [mbind option_bind] in *. apply IH.
  now destruct (addresses_of items).
Qed.

(** A line has a result exactly when it parses. *)
Lemma process_line_parses line st :
  is_Some (process_line line st) -> parses line = true.
Proof.
  unfold process_line, parses, inputs, outputs, field. intros [st' H].
  destruct (fields ":"%char (cstr line) !! 1%nat) as [[|c s]|];
    cbn [default from_option id].
  1,3: cbn [mbind option_bind] in H;
    destruct (fields ":"%char (cstr line) !! 2%nat) as [[|c' s']|];
    cbn [default from_option id]; try reflexivity;
    unfold process_outputs in H;
    destruct (addresses_of (tokens ";"%char (c' :: s'))) eqn:E; [reflexivity|];
    now rewrite process_outputs_loop_none in H.
  destruct (addresses_of (tokens ";"%char (c :: s))) eqn:Ei;
    [|now rewrite process_inputs_none in H].
  destruct (process_inputs (c :: s) st) as [st1|]; [|discriminate].
  cbn [mbind option_bind] in H.
  destruct (fields ":"%char (cstr line) !! 2%nat) as [[|c' s']|];
    cbn [default from_option id]; try reflexivity.
  unfold process_outputs in H.
  destruct (addresses_of (tokens ";"%char (c' :: s'))) eqn:E; [reflexivity|].
  now rewrite process_outputs_loop_none in H.
Qed.

Lemma line_order_parsed line :
  parses line = true ->
  exists ins outs, inputs line = Some ins /\ outputs line = Some outs /\
    line_order line = set_int_iter (list_to_set ins) ++ outs.
Proof.
  unfold parses, line_order. intros H. apply andb_prop in H as [Hi Ho].
  apply bool_decide_eq_true in Hi as [ins Hi], Ho as [outs Ho].
  rewrite Hi, Ho. eauto.
Qed.

Lemma set_int_iter_empty : set_int_iter ∅ = [].
Proof. reflexivity. Qed.

Lemma v02_process_line_spec line st seen :
  parses line = true ->
  numbers st seen -> edges_ascend st ->
  Z.of_nat (length (foldl note seen (line_order line))) <= Int32.INT_MAX ->
  exists st',
    process_line line st = Some st' /\
    numbers st' (foldl note seen (line_order line)) /\ edges_ascend st'.
Proof.
  intros Hp Hn He Hb.
  destruct (line_order_parsed _ Hp) as (ins & outs & Hi & Ho & Hlo).
  rewrite Hlo in *. rewrite foldl_app in *.
  pose proof (length_foldl_note outs
                (foldl note seen (set_int_iter (list_to_set ins)))) as Hmono.
  unfold process_line. unfold inputs, outputs, field in Hi, Ho.
  assert (exists st1,
    match fields ":"%char (cstr line) !! 1%nat with
    | Some (c :: s) => process_inputs (c :: s) st
    | _ => Some st
    end = Some st1 /\
    numbers st1 (foldl note seen (set_int_iter (list_to_set ins))) /\
    edges_ascend st1) as (st1 & -> & Hn1 & He1).
  { destruct (fields ":"%char (cstr line) !! 1%nat) as [[|c s]|];
      cbn [default from_option id] in Hi.
    - injection Hi as <-. exists st. auto.
    - apply v02_process_inputs_spec; auto. lia.
    - injection Hi as <-. exists st. auto. }
  cbn [mbind option_bind].
  destruct (fields ":"%char (cstr line) !! 2%nat) as [[|c s]|];
    cbn [default from_option id] in Ho.
  - injection Ho as <-. exists st1. auto.
  - now apply v02_process_outputs_loop_spec.
  - injection Ho as <-. exists st1. auto.
Qed.

Lemma v02_process_lines_spec lines : forall st seen,
  Forall (fun l => parses l = true) lines ->
  numbers st seen -> edges_ascend st ->
  Z.of_nat (length (foldl note seen (flat_map line_order lines)))
    <= Int32.INT_MAX ->
  exists st',
    process_lines lines st = Some st' /\
    numbers st' (foldl note seen (flat_map line_order lines)) /\
    edges_ascend st'.
Proof.
  induction lines as [|l lines IH]; intros st seen Hall Hn He Hb.
  - cbn. eauto.
  - inversion Hall as [|? ? Hp Hall']; subst.
    cbn [flat_map process_lines] in *. rewrite foldl_app in *.
    pose proof (length_foldl_note (flat_map line_order lines)
                  (foldl note seen (line_order l))) as Hmono.
    destruct (v02_process_line_spec l st seen Hp Hn He) as (st1 & -> & Hn1 & He1);
      [lia|].
    cbn [mbind option_bind]. now apply IH.
Qed.

Lemma process_lines_parses lines : forall st,
  is_Some (process_lines lines st) -> Forall (fun l => parses l = true) lines.
Proof.
  induction lines as [|l lines IH]; intros st H; [constructor|].
  cbn [process_lines] in H.
  destruct (process_line l st) as [st1|] eqn:E1;
    [|destruct H; discriminate].
  constructor; [eapply process_line_parses; eauto|eapply IH; eauto].
Qed.

Lemma numbers_initial : numbers initial [].
Proof.
  split; [constructor|]. split; [reflexivity|].
  intros a i. cbn. rewrite lookup_empty. split; [discriminate|].
  intros [_ H]. discriminate.
Qed.

Lemma edges_ascend_initial : edges_ascend initial.
Proof. intros u v H. cbn in H. set_solver. Qed.

(** The whole run: with fewer than 2^31 distinct addresses, the final node
    map numbers the addresses in the order of their first occurrence. *)
Lemma run_spec input st :
  process_lines (getlines input) initial = Some st ->
  Z.of_nat (length (first_occurrences (processing_order input)))
    <= Int32.INT_MAX ->
  numbers st (first_occurrences (processing_order input)) /\ edges_ascend st.
Proof.
  intros H Hb.
  assert (Forall (fun l => parses l = true) (getlines input)) as Hall
    by (eapply process_lines_parses; eauto).
  destruct (v02_process_lines_spec _ initial [] Hall numbers_initial
              edges_ascend_initial Hb) as (st' & H' & Hn & He).
  rewrite H in H'. injection H' as <-. auto.
Qed.

End BuilderV02Lines.

Module BuilderV02Facts.
Import Bytes Codec CString Stdio Input Tx BuilderV02 NumberingFacts.

Lemma v02_write_edges_at_end host es : forall f,
  position f = length (content f) ->
  content (write_edges host es f) = content f ++ Builder.encode_edges host es.
Proof.
  induction es as [|e es IH]; intros f Hp; cbn [write_edges].
  - cbn. now rewrite app_nil_r.
  - rewrite (StdioFacts.fwrite_at_end _ _ Hp), IH by reflexivity.
    cbn [content Builder.encode_edges flat_map]. now rewrite <- app_assoc.
Qed.

Lemma v02_main_spec host input o :
  main host input = Some o ->
  process_lines (getlines input) initial = Some (final o) /\
  num_nodes o = Int32.wrap (Z.of_nat (size (nodes (final o)))) /\
  num_edges o = Int32.wrap (Z.of_nat (size (edges (final o)))) /\
  file o = put_pair host (num_nodes o) (num_edges o)
             ++ Builder.encode_edges host (edge_set_iter (edges (final o))).
Proof.
  unfold main. intros H.
  destruct (process_lines (getlines input) initial) as [st|]; [|discriminate].
  cbn [mbind option_bind] in H. injection H as <-.
  cbn [final num_nodes num_edges file]. repeat (split; [reflexivity|]).
  rewrite v02_write_edges_at_end.
  - now rewrite (StdioFacts.fwrite_at_end _ fopen_w).
  - now rewrite (StdioFacts.fwrite_at_end _ fopen_w).
Qed.

Lemma elem_of_edge_set_iter (s : gset Edge.t) e : e ∈ edge_set_iter s <-> e ∈ s.
Proof.
  unfold edge_set_iter, Edge.sort.
  now rewrite merge_sort_Permutation, elem_of_elements.
Qed.

Lemma NoDup_edge_set_iter (s : gset Edge.t) : NoDup (edge_set_iter s).
Proof.
  unfold edge_set_iter, Edge.sort. rewrite merge_sort_Permutation.
  apply NoDup_elements.
Qed.

Lemma length_edge_set_iter (s : gset Edge.t) : length (edge_set_iter s) = size s.
Proof.
  unfold edge_set_iter, Edge.sort. now rewrite merge_sort_Permutation.
Qed.

(** With the node map a numbering, the edge set is a simple edge list
    over the nodes. *)
Lemma edges_simple st seen :
  numbers st seen -> edges_ascend st ->
  Edge.simple (edge_set_iter (edges st)) /\
  Forall (fun e => 0 <= e.1 < id_count st /\ 0 <= e.2 < id_count st)
         (edge_set_iter (edges st)).
Proof.
  intros Hn He.
  assert (forall e, e ∈ edge_set_iter (edges st) ->
    exists a b, a < b /\ nodes st !! a = Some e.1 /\ nodes st !! b = Some e.2)
    as Hshape.
  { intros [u v] Hin. apply elem_of_edge_set_iter in Hin. now apply He. }
  split; [split|].
  - rewrite Forall_forall. intros e Hin Heq.
    destruct (Hshape e Hin) as (a & b & Hab & Ha & Hb).
    rewrite <- Heq in Hb. pose proof (numbers_inj _ _ _ _ _ Hn Ha Hb). lia.
  - apply NoDup_fmap_2_strong; [|apply NoDup_edge_set_iter].
    intros [u v] [u' v'] Hin Hin' Heq.
    destruct (Hshape _ Hin) as (a & b & Hab & Ha & Hb).
    destruct (Hshape _ Hin') as (a' & b' & Hab' & Ha' & Hb').
    cbn [fst snd] in *. unfold Edge.unordered in Heq. cbn [fst snd] in Heq.
    destruct (BuilderEdges.minmax_cases u v) as [[_ E]|[_ E]];
    destruct (BuilderEdges.minmax_cases u' v') as [[_ E']|[_ E']];
      rewrite E, E' in Heq; injection Heq as -> ->; try reflexivity.
    + pose proof (numbers_inj _ _ _ _ _ Hn Ha Hb').
      pose proof (numbers_inj _ _ _ _ _ Hn Hb Ha'). lia.
    + pose proof (numbers_inj _ _ _ _ _ Hn Ha Hb').
      pose proof (numbers_inj _ _ _ _ _ Hn Hb Ha'). lia.
  - rewrite Forall_forall. intros e Hin.
    destruct (Hshape e Hin) as (a & b & Hab & Ha & Hb).
    eauto using numbers_lookup_range.
Qed.

Lemma numbers_count_range st seen :
  numbers st seen -> Z.of_nat (length seen) <= Int32.INT_MAX ->
  0 <= id_count st <= Int32.INT_MAX.
Proof. intros (_ & -> & _) H. lia. Qed.

End BuilderV02Facts.

Module ReaderFacts.
Import Bytes Codec Input.

Lemma read_blocks_concat (bs : list (list byte)) :
  Forall (fun b => length b = 8%nat) bs -> read_blocks (concat bs) = bs.
Proof.
  induction 1 as [|b bs Hb _ IH]; [reflexivity|].
  cbn [concat]. rewrite InputFacts.read_blocks_app by exact Hb. now rewrite IH.
Qed.

Lemma int_pairs_concat host decode (bs : list (list byte)) :
  Forall (fun b => length b = 8%nat) bs ->
  int_pairs host decode (concat bs) =
    (fun buf => (decode (buf0 host buf), decode (buf1 host buf))) <$> bs.
Proof.
  intros H. unfold int_pairs. rewrite read_blocks_concat by exact H.
  f_equal. induction H as [|b bs Hb _ IH]; [reflexivity|].
  cbn [List.filter]. rewrite Hb. cbn [Nat.leb]. now f_equal.
Qed.

(** The loop of the version 0.2 and 0.1 analyzers on whole records. *)
Lemma lemon_read_edges decode host (bs : list (list byte)) :
  Forall (fun b => length b = 8%nat) bs ->
  forall g,
    Lemon.read_edges decode host bs g =
      Lemon.add_edges
        ((fun buf => (decode (buf0 host buf), decode (buf1 host buf))) <$> bs) g.
Proof.
  induction 1 as [|b bs Hb _ IH]; intros g; [reflexivity|].
  cbn [Lemon.read_edges Lemon.add_edges fmap list_fmap].
  rewrite (Steps.full_block _ Hb).
  destruct (Lemon.addEdge g _ _) as [g'|]; [|reflexivity].
  rewrite Steps.bind_some. apply IH.
Qed.

Lemma lemon_read_graph decode host (hdr : list byte) (bs : list (list byte)) :
  length hdr = 8%nat -> Forall (fun b => length b = 8%nat) bs ->
  Lemon.read_graph decode host (hdr ++ concat bs) =
    Lemon.build (decode (buf0 host hdr)) (decode (buf1 host hdr))
      ((fun buf => (decode (buf0 host buf), decode (buf1 host buf))) <$> bs).
Proof.
  intros Hh Hb. unfold Lemon.read_graph, Lemon.build.
  rewrite InputFacts.read_blocks_app, read_blocks_concat by assumption.
  rewrite (Steps.full_block _ Hh).
  destruct (Lemon.reserve _); [|reflexivity]. rewrite !Steps.bind_some.
  destruct (Lemon.reserve _); [|reflexivity]. rewrite !Steps.bind_some.
  now apply lemon_read_edges.
Qed.

(** The loop of [read_graph_binary] on whole records. *)
Lemma clustering_read_edges host (bs : list (list byte)) :
  Forall (fun b => length b = 8%nat) bs ->
  forall buf i edges,
    Clustering.read_edges host bs buf i edges =
      Clustering.store_edges
        ((fun b => (bswap32 (buf0 host b), bswap32 (buf1 host b))) <$> bs)
        i edges.
Proof.
  induction 1 as [|b bs Hb _ IH]; intros buf i edges; [reflexivity|].
  cbn [Clustering.read_edges Clustering.store_edges fmap list_fmap].
  rewrite (Steps.whole_int _ Hb), Hb.
  assert (buf0 host (b ++ drop 8 buf) = buf0 host b) as ->.
  { unfold buf0. now rewrite take_app_le by lia. }
  assert (buf1 host (b ++ drop 8 buf) = buf1 host b) as ->.
  { unfold buf1. rewrite drop_app_le by lia. now rewrite take_app_le
      by (rewrite length_drop; lia). }
  destruct (S i <? length edges)%nat; [|reflexivity]. apply IH.
Qed.

Lemma clustering_read_graph host forced (hdr : list byte) (bs : list (list byte)) :
  length hdr = 8%nat -> Forall (fun b => length b = 8%nat) bs ->
  Clustering.read_graph_binary host (hdr ++ concat bs) forced =
    Clustering.build
      (if forced =? 0 then bswap32 (buf0 host hdr) else forced)
      (bswap32 (buf1 host hdr))
      ((fun b => (bswap32 (buf0 host b), bswap32 (buf1 host b))) <$> bs).
Proof.
  intros Hh Hb. unfold Clustering.read_graph_binary, Clustering.build.
  rewrite InputFacts.read_blocks_app, read_blocks_concat by assumption.
  rewrite (Steps.full_block _ Hh).
  destruct (Clustering.igraph_empty _) as [g|]; [|reflexivity].
  rewrite !Steps.bind_some.
  destruct (Clustering.igraph_vector_int_init _) as [v|]; [|reflexivity].
  rewrite !Steps.bind_some.
  now rewrite clustering_read_edges.
Qed.

(** The records of a file written with a swap, block by block. *)
Lemma encode_edges_concat host (es : list Edge.t) :
  Builder.encode_edges host es =
    concat ((fun e => Builder.put_pair host e.1 e.2) <$> es).
Proof.
  induction es as [|e es IH]; [reflexivity|].
  cbn [Builder.encode_edges flat_map fmap list_fmap concat]. f_equal. exact IH.
Qed.

Lemma decode_swapped_blocks host (es : list Edge.t) :
  Forall (fun e => Int32.in_range e.1 /\ Int32.in_range e.2) es ->
  (fun b => (bswap32 (buf0 host b), bswap32 (buf1 host b)))
    <$> ((fun e => Builder.put_pair host e.1 e.2) <$> es) = es.
Proof.
  induction 1 as [|[u v] es [Hu Hv] _ IH]; [reflexivity|].
  cbn [fmap list_fmap fst snd] in *.
  destruct (InputFacts.buf_put_pair host u v Hu Hv) as [-> ->].
  f_equal. exact IH.
Qed.

Lemma swapped_blocks_length host (es : list Edge.t) :
  Forall (fun b => length b = 8%nat)
         ((fun e => Builder.put_pair host e.1 e.2) <$> es).
Proof.
  apply Forall_fmap, Forall_forall. intros e _. unfold compose.
  exact (BuilderFacts.length_put_pair host e.1 e.2).
Qed.

(** The same for a file written without a swap. *)
Lemma length_native_pair host a b : length (BuilderV01.put_pair host a b) = 8%nat.
Proof.
  unfold BuilderV01.put_pair. now rewrite length_app, !CodecFacts.length_store_int.
Qed.

Lemma buf_native_pair host a b :
  Int32.in_range a -> Int32.in_range b ->
  buf0 host (BuilderV01.put_pair host a b) = a /\
  buf1 host (BuilderV01.put_pair host a b) = b.
Proof.
  intros Ha Hb. unfold BuilderV01.put_pair.
  rewrite InputFacts.buf0_app, InputFacts.buf1_app
    by apply CodecFacts.length_store_int.
  split; now apply CodecFacts.load_store.
Qed.

Lemma decode_native_blocks host (es : list Edge.t) :
  Forall (fun e => Int32.in_range e.1 /\ Int32.in_range e.2) es ->
  (fun b => (buf0 host b, buf1 host b))
    <$> ((fun e => BuilderV01.put_pair host e.1 e.2) <$> es) = es.
Proof.
  induction 1 as [|[u v] es [Hu Hv] _ IH]; [reflexivity|].
  cbn [fmap list_fmap fst snd] in *.
  destruct (buf_native_pair host u v Hu Hv) as [-> ->].
  f_equal. exact IH.
Qed.

Lemma native_graph_concat host N M (es : list Edge.t) :
  BuilderV01.write_graph host N M es =
    BuilderV01.put_pair host N M
      ++ concat ((fun e => BuilderV01.put_pair host e.1 e.2) <$> es).
Proof.
  unfold BuilderV01.write_graph. f_equal.
  induction es as [|e es IH]; [reflexivity|].
  cbn [flat_map fmap list_fmap concat]. f_equal. exact IH.
Qed.

(** What a reader that does not swap finds in a file written with a
    swap. *)
Lemma buf_put_pair_raw host a b :
  buf0 host (Builder.put_pair host a b) = bswap32 a /\
  buf1 host (Builder.put_pair host a b) = bswap32 b.
Proof.
  unfold Builder.put_pair.
  rewrite InputFacts.buf0_app, InputFacts.buf1_app
    by apply CodecFacts.length_store_int.
  split; apply CodecFacts.load_store, CodecFacts.bswap32_in_range.
Qed.

Lemma raw_blocks host (es : list Edge.t) :
  (fun b => (buf0 host b, buf1 host b))
    <$> ((fun e => Builder.put_pair host e.1 e.2) <$> es)
  = (fun e => (bswap32 e.1, bswap32 e.2)) <$> es.
Proof.
  induction es as [|[u v] es IH]; [reflexivity|].
  cbn [fmap list_fmap fst snd] in *.
  destruct (buf_put_pair_raw host u v) as [-> ->]. f_equal. exact IH.
Qed.

(** Across machines: an [int] stored on a machine of one byte order and
    loaded on a machine of the other arrives with its bytes reversed. *)
Lemma load_store_other writer reader x :
  same_order writer reader = false ->
  load_int reader (store_int writer x) = bswap32 x.
Proof.
  destruct writer, reader; try discriminate; intros _; reflexivity.
Qed.

Lemma buf_put_pair_other writer reader a b :
  same_order writer reader = false ->
  Int32.in_range a -> Int32.in_range b ->
  buf0 reader (Builder.put_pair writer a b) = a /\
  buf1 reader (Builder.put_pair writer a b) = b.
Proof.
  intros Ho Ha Hb. unfold Builder.put_pair.
  rewrite InputFacts.buf0_app, InputFacts.buf1_app
    by apply CodecFacts.length_store_int.
  rewrite !load_store_other by exact Ho.
  split; now apply CodecFacts.bswap32_involutive.
Qed.

Lemma other_blocks writer reader (es : list Edge.t) :
  same_order writer reader = false ->
  Forall (fun e => Int32.in_range e.1 /\ Int32.in_range e.2) es ->
  (fun b => (buf0 reader b, buf1 reader b))
    <$> ((fun e => Builder.put_pair writer e.1 e.2) <$> es) = es.
Proof.
  intros Ho. induction 1 as [|[u v] es [Hu Hv] _ IH]; [reflexivity|].
  cbn [fmap list_fmap fst snd] in *.
  destruct (buf_put_pair_other writer reader u v Ho Hu Hv) as [-> ->].
  f_equal. exact IH.
Qed.

Lemma other_blocks_swapped writer reader (es : list Edge.t) :
  same_order writer reader = false ->
  Forall (fun e => Int32.in_range e.1 /\ Int32.in_range e.2) es ->
  (fun b => (bswap32 (buf0 reader b), bswap32 (buf1 reader b)))
    <$> ((fun e => Builder.put_pair writer e.1 e.2) <$> es) = swap_pair <$> es.
Proof.
  intros Ho. induction 1 as [|[u v] es [Hu Hv] _ IH]; [reflexivity|].
  cbn [fmap list_fmap fst snd] in *.
  destruct (buf_put_pair_other writer reader u v Ho Hu Hv) as [-> ->].
  f_equal. exact IH.
Qed.

(** The [int]s that a reader finds in a file of version 1.0 of the builder,
    before it decodes them. *)
Lemma int_pairs_file writer reader decode N M (es : list Edge.t) :
  int_pairs reader decode
    (Builder.put_pair writer N M ++ Builder.encode_edges writer es) =
  (fun b => (decode (buf0 reader b), decode (buf1 reader b)))
    <$> (Builder.put_pair writer N M
           :: ((fun e => Builder.put_pair writer e.1 e.2) <$> es)).
Proof.
  rewrite InputFacts.int_pairs_app by apply BuilderFacts.length_put_pair.
  rewrite encode_edges_concat, int_pairs_concat by apply swapped_blocks_length.
  reflexivity.
Qed.

Lemma same_order_eq writer reader :
  same_order writer reader = true -> writer = reader.
Proof. now destruct writer, reader. Qed.

End ReaderFacts.

Module ClusteringFacts.
Import Bytes Codec Input Clustering.

Lemma add_edges_vcount g v g' :
  igraph_add_edges g v = Some g' ->
  Graph.vcount g' = Graph.vcount g /\
  Graph.edge_list g' = Graph.edge_list g ++ Graph.pairs v /\
  forallb (Graph.valid_node (Graph.vcount g)) v = true.
Proof.
  unfold igraph_add_edges.
  destruct (forallb _ v) eqn:E; [|discriminate]. intros [= <-]. auto.
Qed.

Lemma empty_vcount n g :
  igraph_empty n = Some g -> 0 <= n /\ g = Graph.mk (Z.to_nat n) [].
Proof.
  unfold igraph_empty. destruct (Z.ltb_spec n 0); [discriminate|].
  intros [= <-]. auto.
Qed.

(** The loop never looks at the first four bytes of the buffer it starts
    with. *)
Lemma read_edges_buf host blks : forall buf buf' i edges,
  drop 4 buf = drop 4 buf' ->
  read_edges host blks buf i edges = read_edges host blks buf' i edges.
Proof.
  destruct blks as [|blk blks]; intros buf buf' i edges H; [reflexivity|].
  cbn [read_edges]. destruct (Nat.ltb_spec (length blk) 4); [reflexivity|].
  replace (drop (length blk) buf) with (drop (length blk) buf'); [reflexivity|].
  replace (length blk) with (4 + (length blk - 4))%nat by lia.
  now rewrite <- !drop_drop, H.
Qed.

Lemma read_blocks_header (n rest : list byte) :
  length n = 4%nat ->
  read_blocks (n ++ rest) = (n ++ take 4 rest) :: read_blocks (drop 4 rest).
Proof.
  intros Hn. destruct n as [|a [|b [|c [|d [|]]]]]; try discriminate.
  unfold read_blocks. cbn [app length]. rewrite InputFacts.blocks_cons.
  f_equal. cbn [drop]. apply InputFacts.blocks_fuel; rewrite length_drop; lia.
Qed.

(** [read_graph_binary] by cases on the header: what it returns when it
    returns. *)
Lemma read_graph_binary_spec host (n rest : list byte) forced g :
  length n = 4%nat ->
  read_graph_binary host (n ++ rest) forced = Some g ->
  exists edges,
    (4 <= length rest)%nat /\
    read_edges host (read_blocks (drop 4 rest)) (n ++ take 4 rest) 0
      (replicate (Z.to_nat (Int32.mul 2 (bswap32 (load_int host (take 4 rest))))) 0)
      = Some edges /\
    Graph.edge_list g = Graph.pairs edges /\
    igraph_vcount g =
      (if forced =? 0 then bswap32 (load_int host n) else forced).
Proof.
  intros Hn. unfold read_graph_binary. rewrite read_blocks_header by exact Hn.
  destruct (Nat.ltb_spec (length (n ++ take 4 rest)) 8) as [|Hlen]; [discriminate|].
  rewrite length_app, length_take in Hlen.
  rewrite InputFacts.buf0_app by exact Hn.
  rewrite InputFacts.buf1_app by (try exact Hn; rewrite length_take; lia).
  generalize (if forced =? 0 then bswap32 (load_int host n) else forced) as N.
  generalize (Int32.mul 2 (bswap32 (load_int host (take 4 rest)))) as M2.
  intros M2 N.
  destruct (igraph_empty N) as [g0|] eqn:E0; [|discriminate].
  rewrite Steps.bind_some.
  unfold igraph_vector_int_init.
  destruct (Z.ltb_spec M2 0); [discriminate|].
  rewrite Steps.bind_some.
  destruct (read_edges _ _ _ _ _) as [edges|] eqn:Er; [|discriminate].
  rewrite Steps.bind_some. intros Ha.
  apply add_edges_vcount in Ha as (Hv & He & _).
  apply empty_vcount in E0 as [Hn0 ->].
  exists edges. split; [lia|]. split; [reflexivity|]. split; [exact He|].
  unfold igraph_vcount. rewrite Hv. apply Z2Nat.id. exact Hn0.
Qed.

Lemma length_find_all xs : forall u, length (UnionFind.find_all xs u) = length xs.
Proof.
  induction xs as [|x xs IH]; intros u; [reflexivity|].
  cbn [UnionFind.find_all]. destruct (UnionFind.find u x) as [u' r].
  cbn [length]. now rewrite IH.
Qed.

Lemma length_components g :
  length (igraph_connected_components g) = Graph.vcount g.
Proof.
  unfold igraph_connected_components, UnionFind.connected_components.
  now rewrite length_fmap, length_find_all, length_seq.
Qed.

Lemma node_column_rows N comp_map :
  node_column (rows N comp_map) = Z.of_nat <$> seq 0 (Z.to_nat N).
Proof.
  unfold rows. induction (seq 0 (Z.to_nat N)) as [|i l IH]; [reflexivity|].
  cbn. now rewrite IH.
Qed.

Lemma store_edges_fill es : forall pre mid post,
  length mid = (2 * length es)%nat ->
  store_edges es (length pre) (pre ++ mid ++ post)
    = Some (pre ++ flatten es ++ post).
Proof.
  induction es as [|[u v] es IH]; intros pre mid post Hmid.
  - destruct mid; [reflexivity|discriminate].
  - destruct mid as [|a [|b mid]]; try (cbn in Hmid; lia).
    cbn [store_edges].
    assert ((S (length pre) <? length (pre ++ (a :: b :: mid) ++ post))%nat = true)
      as -> by (apply Nat.ltb_lt; rewrite !length_app; cbn; lia).
    replace (<[S (length pre):=v]> (<[length pre:=u]> (pre ++ (a :: b :: mid) ++ post)))
      with ((pre ++ [u; v]) ++ mid ++ post).
    + replace (length pre + 2)%nat with (length (pre ++ [u; v]))
        by (rewrite length_app; reflexivity).
      rewrite IH by (cbn in Hmid; lia).
      cbn [flatten flat_map fst snd app]. now rewrite <- !app_assoc.
    + cbn [app]. rewrite <- app_assoc. cbn [app].
      rewrite (insert_app_r_alt pre _ (length pre)) by lia.
      rewrite Nat.sub_diag. cbn [list_insert insert].
      rewrite (insert_app_r_alt pre _ (S (length pre))) by lia.
      replace (S (length pre) - length pre)%nat with 1%nat by lia.
      reflexivity.
Qed.

Lemma store_edges_overflow es : forall i edges,
  (i <= length edges)%nat -> (length edges < i + 2 * length es)%nat ->
  store_edges es i edges = None.
Proof.
  induction es as [|[u v] es IH]; intros i edges Hi Hlen.
  - cbn in Hlen. lia.
  - cbn [store_edges]. destruct (Nat.ltb_spec (S i) (length edges)); [|reflexivity].
    apply IH; rewrite !length_insert; cbn [length] in *; lia.
Qed.

Lemma pairs_flatten (es : list (Z * Z)) :
  Graph.pairs (flatten es) = (fun e => (Z.to_nat e.1, Z.to_nat e.2)) <$> es.
Proof.
  induction es as [|[u v] es IH]; [reflexivity|].
  cbn [flatten flat_map app Graph.pairs fmap list_fmap fst snd].
  f_equal. exact IH.
Qed.

Lemma valid_flatten n (es : list (Z * Z)) :
  Forall (fun e => 0 <= e.1 < Z.of_nat n /\ 0 <= e.2 < Z.of_nat n) es ->
  forallb (Graph.valid_node n) (flatten es) = true.
Proof.
  induction 1 as [|[u v] es [Hu Hv] _ IH]; [reflexivity|].
  cbn [flatten flat_map app forallb fst snd] in *. unfold flatten in IH.
  rewrite IH. unfold Graph.valid_node.
  destruct (Z.leb_spec 0 u), (Z.ltb_spec u (Z.of_nat n)),
    (Z.leb_spec 0 v), (Z.ltb_spec v (Z.of_nat n)); try lia; reflexivity.
Qed.

Lemma lemon_add_edges n (es : list (Z * Z)) : forall acc,
  Forall (fun e => 0 <= e.1 < Z.of_nat n /\ 0 <= e.2 < Z.of_nat n) es ->
  Lemon.add_edges es (Graph.mk n acc)
    = Some (Graph.mk n (acc ++ ((fun e => (Z.to_nat e.1, Z.to_nat e.2)) <$> es))).
Proof.
  induction es as [|[u v] es IH]; intros acc H.
  - cbn. now rewrite app_nil_r.
  - inversion H as [|? ? [Hu Hv] Hes]; subst. cbn [fst snd] in *.
    cbn [Lemon.add_edges]. unfold Lemon.addEdge. cbn [Graph.vcount Graph.edge_list].
    unfold Graph.valid_node.
    destruct (Z.leb_spec 0 u), (Z.ltb_spec u (Z.of_nat n)),
      (Z.leb_spec 0 v), (Z.ltb_spec v (Z.of_nat n)); try lia.
    cbn [andb]. rewrite Steps.bind_some, IH by exact Hes.
    cbn [fmap list_fmap fst snd]. now rewrite <- app_assoc.
Qed.

(** The graph of a node count and of as many valid edges as the edge count
    says. *)
Lemma build_valid N (es : list (Z * Z)) :
  0 <= N -> Z.of_nat (length es) < 2 ^ 30 ->
  Forall (fun e => 0 <= e.1 < N /\ 0 <= e.2 < N) es ->
  build N (Z.of_nat (length es)) es =
    Some (Graph.mk (Z.to_nat N) ((fun e => (Z.to_nat e.1, Z.to_nat e.2)) <$> es)).
Proof.
  intros HN HM Hes. unfold build.
  assert (Int32.mul 2 (Z.of_nat (length es)) = 2 * Z.of_nat (length es)) as ->.
  { apply Int32Facts.wrap_id.
    unfold Int32.in_range, Int32.INT_MIN, Int32.INT_MAX. lia. }
  unfold igraph_empty, igraph_vector_int_init.
  destruct (Z.ltb_spec N 0); [lia|].
  destruct (Z.ltb_spec (2 * Z.of_nat (length es)) 0); [lia|].
  rewrite !Steps.bind_some.
  replace (replicate (Z.to_nat (2 * Z.of_nat (length es))) 0)
    with ([] ++ replicate (2 * length es) 0 ++ [])
    by (cbn [app]; rewrite app_nil_r; f_equal; lia).
  rewrite (store_edges_fill es []) by apply length_replicate.
  rewrite Steps.bind_some. cbn [app]. rewrite app_nil_r.
  unfold igraph_add_edges. cbn [Graph.vcount Graph.edge_list app].
  rewrite valid_flatten, pairs_flatten; [reflexivity|].
  eapply Forall_impl; [exact Hes|]. cbn. intros e. rewrite Z2Nat.id by lia. tauto.
Qed.

Lemma lemon_build_valid N (es : list (Z * Z)) :
  0 <= N -> Z.of_nat (length es) < 2 ^ 30 ->
  Forall (fun e => 0 <= e.1 < N /\ 0 <= e.2 < N) es ->
  Lemon.build N (Z.of_nat (length es)) es =
    Some (Graph.mk (Z.to_nat N) ((fun e => (Z.to_nat e.1, Z.to_nat e.2)) <$> es)).
Proof.
  intros HN HM Hes. unfold Lemon.build, Lemon.reserve.
  assert (Int32.mul 2 (Z.of_nat (length es)) = 2 * Z.of_nat (length es)) as ->.
  { apply Int32Facts.wrap_id.
    unfold Int32.in_range, Int32.INT_MIN, Int32.INT_MAX. lia. }
  destruct (Z.ltb_spec N 0); [lia|].
  destruct (Z.ltb_spec (2 * Z.of_nat (length es)) 0); [lia|].
  rewrite !Steps.bind_some. rewrite lemon_add_edges; [reflexivity|].
  eapply Forall_impl; [exact Hes|]. cbn. intros e. rewrite Z2Nat.id by lia. tauto.
Qed.

End ClusteringFacts.

Module GraphFacts.

Lemma connected_sym {A} (es : list (A * A)) u v :
  Graph.connected es u v -> Graph.connected es v u.
Proof.
  unfold Graph.connected, Graph.adjacent. intros H.
  change (rtsc (fun u v => (u, v) ∈ es) v u). symmetry. exact H.
Qed.

Lemma connected_trans {A} (es : list (A * A)) u v w :
  Graph.connected es u v -> Graph.connected es v w -> Graph.connected es u w.
Proof. unfold Graph.connected. intros H1 H2. etransitivity; eauto. Qed.

Lemma connected_edge {A} (es : list (A * A)) u v :
  (u, v) ∈ es \/ (v, u) ∈ es -> Graph.connected es u v.
Proof.
  intros H. apply rtc_once. unfold Graph.adjacent, sc. exact H.
Qed.

Lemma connected_mono {A} (es es' : list (A * A)) u v :
  (forall e, e ∈ es -> e ∈ es') ->
  Graph.connected es u v -> Graph.connected es' u v.
Proof.
  intros Hsub H. induction H as [|x y z Hxy _ IH]; [reflexivity|].
  eapply connected_trans; [|exact IH]. apply connected_edge.
  destruct Hxy as [Hxy|Hxy]; [left|right]; now apply Hsub.
Qed.



End GraphFacts.


Module UnionFindFacts.
Import UnionFind.
#[local] Open Scope nat_scope.

Lemma root_of_fixed p x r : root_of p x r -> p !! r = Some r.
Proof. induction 1; auto. Qed.

Lemma root_of_unique p x r r' : root_of p x r -> root_of p x r' -> r = r'.
Proof.
  intros H. revert r'.
  induction H as [x Hx|x y r Hx Hne _ IH]; intros r' H';
    inversion H' as [? Hx'|? y' ? Hx' Hne' Hr']; subst.
  - reflexivity.
  - congruence.
  - congruence.
  - apply IH. assert (y' = y) as -> by congruence. exact Hr'.
Qed.

Lemma root_of_lt p x r : root_of p x r -> x < length p /\ r < length p.
Proof.
  induction 1 as [x Hx|x y r Hx _ _ [_ IH]]; split;
    eauto using lookup_lt_Some.
Qed.

Lemma root_of_step p x y r :
  root_of p x r -> p !! x = Some y -> root_of p y r.
Proof.
  intros H Hy. inversion H as [? Hx|? y' ? Hx Hne Hr]; subst.
  - assert (y = r) as -> by congruence. exact H.
  - assert (y' = y) as <- by congruence. exact Hr.
Qed.

Lemma rank_of_le rk x : rank_of rk x <= max_list rk.
Proof.
  unfold rank_of. destruct (rk !! x) as [n|] eqn:E; cbn; [|lia].
  apply max_list_elem_of_le. eapply list_elem_of_lookup_2; eauto.
Qed.

Lemma rank_of_insert rk i v x :
  i < length rk ->
  rank_of (<[i := v]> rk) x = if decide (x = i) then v else rank_of rk x.
Proof.
  intros Hi. unfold rank_of. destruct (decide (x = i)) as [->|Hne].
  - now rewrite list_lookup_insert_eq.
  - now rewrite list_lookup_insert_ne by auto.
Qed.

(** Ranks grow along the walk to the representative. *)
Lemma rank_of_root p rk x r :
  ranked (mk p rk) -> root_of p x r -> x <> r -> rank_of rk x < rank_of rk r.
Proof.
  intros [_ H] Hr. cbn [parent rank] in H.
  induction Hr as [x Hx|x y r Hx Hne Hr IH]; intros Hxr; [congruence|].
  destruct (H x y Hx) as [_ Hlt]. specialize (Hlt Hne).
  destruct (decide (y = r)) as [->|Hyr]; [exact Hlt|].
  specialize (IH Hyr). lia.
Qed.

(** The walk reaches the representative before the fuel is used up. *)
Lemma find_root_spec p rk :
  ranked (mk p rk) -> forall fuel x,
  x < length p -> max_list rk < fuel + rank_of rk x ->
  root_of p x (find_root fuel p x).
Proof.
  intros [_ H]. cbn [parent rank] in H.
  induction fuel as [|fuel IH]; intros x Hx Hf.
  - pose proof (rank_of_le rk x). lia.
  - cbn [find_root]. destruct (lookup_lt_is_Some_2 p x Hx) as [y Hy].
    rewrite Hy. destruct (Nat.eqb_spec y x) as [->|Hne]; [now constructor|].
    destruct (H x y Hy) as [Hy' Hr]. specialize (Hr Hne).
    econstructor; eauto. apply IH; [exact Hy'|lia].
Qed.

(** Making the representative of [x] its parent changes no
    representative. *)
Lemma reparent p x r :
  root_of p x r ->
  forall z q, root_of (<[x := r]> p) z q <-> root_of p z q.
Proof.
  intros Hr z q.
  pose proof (root_of_lt _ _ _ Hr) as [Hx Hrl].
  pose proof (root_of_fixed _ _ _ Hr) as Hfix.
  assert (<[x := r]> p !! x = Some r) as Hpx
    by (apply list_lookup_insert_eq; exact Hx).
  assert (forall z, z <> x -> <[x := r]> p !! z = p !! z) as Hother
    by (intros; apply list_lookup_insert_ne; auto).
  split.
  - induction 1 as [z Hz|z y q Hz Hne _ IH].
    + destruct (decide (z = x)) as [Hzx|Hzx].
      * subst z. assert (r = x) as Hrx by congruence.
        rewrite Hrx in Hr. exact Hr.
      * rewrite Hother in Hz by auto. now constructor.
    + destruct (decide (z = x)) as [Hzx|Hzx].
      * subst z. assert (y = r) as Hyr by congruence.
        rewrite Hyr in IH.
        assert (q = r) as ->
          by (eapply root_of_unique; [exact IH|constructor; exact Hfix]).
        exact Hr.
      * rewrite Hother in Hz by auto. econstructor; eauto.
  - induction 1 as [z Hz|z y q Hz Hne Hyq IH].
    + destruct (decide (z = x)) as [Hzx|Hzx].
      * subst z.
        assert (r = x) as Hrx
          by (eapply root_of_unique; [exact Hr|constructor; exact Hz]).
        constructor. rewrite Hpx. now f_equal.
      * constructor. rewrite Hother; auto.
    + destruct (decide (z = x)) as [Hzx|Hzx].
      * subst z.
        assert (q = r) as ->
          by exact (root_of_unique _ _ _ _ (root_step _ _ _ _ Hz Hne Hyq) Hr).
        destruct (decide (r = x)) as [Hrx|Hrx].
        -- rewrite Hrx at 2. constructor. rewrite Hpx. now f_equal.
        -- econstructor; [exact Hpx|exact Hrx|].
           constructor. rewrite Hother; auto.
      * econstructor; [rewrite Hother; eauto|auto|exact IH].
Qed.

Lemma reparent_ranked p rk x r :
  ranked (mk p rk) -> root_of p x r -> ranked (mk (<[x := r]> p) rk).
Proof.
  intros Hk Hr. pose proof Hk as [Hl H]. cbn [parent rank] in *.
  pose proof (root_of_lt _ _ _ Hr) as [Hx Hrl].
  split; cbn [parent rank]; [now rewrite length_insert|].
  intros z y Hz. rewrite length_insert.
  destruct (decide (z = x)) as [Hzx|Hzx].
  - subst z. rewrite list_lookup_insert_eq in Hz by exact Hx.
    assert (y = r) as -> by congruence.
    split; [exact Hrl|]. intros Hne. eapply rank_of_root; eauto.
  - rewrite list_lookup_insert_ne in Hz by auto. apply H; auto.
Qed.

(** Path compression keeps the invariant and every representative. *)
Lemma compress_spec rk r : forall fuel p x,
  ranked (mk p rk) -> root_of p x r ->
  ranked (mk (compress fuel p x r) rk) /\
  (forall z q, root_of (compress fuel p x r) z q <-> root_of p z q).
Proof.
  induction fuel as [|fuel IH]; intros p x Hk Hr; [cbn; tauto|].
  cbn [compress]. destruct (p !! x) as [y|] eqn:Hy; [|tauto].
  destruct (Nat.eqb_spec y x) as [->|Hne]; [tauto|].
  pose proof (root_of_step _ _ _ _ Hr Hy) as Hyr.
  assert (root_of (<[x := r]> p) y r) as Hyr' by (apply reparent; auto).
  destruct (IH (<[x := r]> p) y) as [Hk' Hroots];
    [apply reparent_ranked; auto|exact Hyr'|].
  split; [exact Hk'|]. intros z q. rewrite Hroots. apply reparent; auto.
Qed.

(** [find] returns the representative and leaves the sets as they are. *)
Lemma find_spec u x u' r :
  ranked u -> x < length (parent u) -> find u x = (u', r) ->
  root_of (parent u) x r /\ ranked u' /\ rank u' = rank u /\
  length (parent u') = length (parent u) /\
  (forall z q, root_of (parent u') z q <-> root_of (parent u) z q).
Proof.
  destruct u as [p rk]. intros Hk Hx. unfold find. cbn [parent rank] in *.
  intros [= <- <-].
  assert (root_of p x (find_root (fuel_of (mk p rk)) p x)) as Hr.
  { eapply find_root_spec; eauto. unfold fuel_of. cbn [rank]. lia. }
  destruct (compress_spec rk _ (fuel_of (mk p rk)) p x Hk Hr) as [Hk' Hroots].
  cbn [parent rank]. split; [exact Hr|]. split; [exact Hk'|].
  split; [reflexivity|]. split; [|exact Hroots].
  destruct Hk as [Hl _], Hk' as [Hl' _]. cbn [parent rank] in Hl, Hl'.
  transitivity (length rk); [symmetry; exact Hl'|exact Hl].
Qed.

(** Hanging the representative [a] under the representative [b]. *)
Lemma link_roots p a b :
  p !! a = Some a -> p !! b = Some b -> a <> b ->
  forall z q, root_of (<[a := b]> p) z q <->
    (root_of p z q /\ q <> a) \/ (root_of p z a /\ q = b).
Proof.
  intros Ha Hb Hab z q.
  assert (<[a := b]> p !! a = Some b) as Hpa
    by (apply list_lookup_insert_eq; eapply lookup_lt_Some; eauto).
  assert (forall z, z <> a -> <[a := b]> p !! z = p !! z) as Hother
    by (intros; apply list_lookup_insert_ne; auto).
  split.
  - induction 1 as [z Hz|z y q Hz Hne _ IH].
    + destruct (decide (z = a)) as [Hza|Hza].
      * subst z. congruence.
      * left. split; [|exact Hza]. constructor. rewrite <- Hother; auto.
    + destruct (decide (z = a)) as [Hza|Hza].
      * subst z. assert (y = b) as Hyb by congruence.
        rewrite Hyb in IH. destruct IH as [[IH _]|[IH _]].
        -- right. split; [now constructor|].
           eapply root_of_unique; [exact IH|now constructor].
        -- exfalso. apply Hab.
           eapply root_of_unique; [exact IH|now constructor].
      * rewrite Hother in Hz by auto.
        destruct IH as [[IH Hq]|[IH Hq]]; [left|right];
          (split; [econstructor; eauto|exact Hq]).
  - intros [[H Hq]|[H ->]].
    + induction H as [z Hz|z y q Hz Hne _ IH].
      * constructor. rewrite Hother; auto.
      * assert (z <> a) as Hza by congruence.
        econstructor; [rewrite Hother; eauto|exact Hne|auto].
    + remember a as a' eqn:Ea in H.
      induction H as [z Hz|z y q Hz Hne _ IH].
      * rewrite Ea. econstructor; [exact Hpa|auto|].
        constructor. rewrite Hother; auto.
      * assert (z <> a) as Hza by congruence.
        econstructor; [rewrite Hother; eauto|exact Hne|auto].
Qed.

Lemma link_ranked p rk rk' a b :
  ranked (mk p rk) -> p !! a = Some a -> p !! b = Some b -> a <> b ->
  length rk' = length rk ->
  (forall z, rank_of rk z <= rank_of rk' z) ->
  (forall z, z <> b -> rank_of rk' z = rank_of rk z) ->
  rank_of rk' a < rank_of rk' b ->
  ranked (mk (<[a := b]> p) rk').
Proof.
  intros [Hl H] Ha Hb Hab Hlen Hle Hsame Hlt. cbn [parent rank] in *.
  split; cbn [parent rank]; [rewrite length_insert; congruence|].
  intros z y Hz. rewrite length_insert.
  destruct (decide (z = a)) as [Hza|Hza].
  - subst z.
    rewrite list_lookup_insert_eq in Hz by (eapply lookup_lt_Some; eauto).
    assert (y = b) as -> by congruence.
    split; [eapply lookup_lt_Some; eauto|auto].
  - rewrite list_lookup_insert_ne in Hz by auto.
    destruct (H z y Hz) as [Hy Hr]. split; [exact Hy|]. intros Hne.
    specialize (Hr Hne). assert (z <> b) as Hzb by congruence.
    rewrite (Hsame z Hzb). specialize (Hle y). lia.
Qed.

Lemma same_set_roots u u' :
  (forall z q, root_of (parent u') z q <-> root_of (parent u) z q) ->
  forall z w, same_set u' z w <-> same_set u z w.
Proof.
  intros H z w. unfold same_set.
  split; intros (r & Hz & Hw); exists r; split; apply H; assumption.
Qed.

Lemma same_set_root u x y r :
  root_of (parent u) y r -> same_set u x y <-> root_of (parent u) x r.
Proof.
  intros Hy. split.
  - intros (q & Hxq & Hyq).
    now rewrite (root_of_unique _ _ _ _ Hy Hyq).
  - intros Hx. exists r. auto.
Qed.

Lemma same_set_sym u x y : same_set u x y -> same_set u y x.
Proof. intros (r & Hx & Hy). exists r. auto. Qed.

(** What linking two representatives makes of the sets. *)
Lemma link_same p rk rk' a b x y :
  root_of p x a -> root_of p y b -> a <> b ->
  forall z w, same_set (mk (<[a := b]> p) rk') z w <->
    same_set (mk p rk) z w \/
    (same_set (mk p rk) z x /\ same_set (mk p rk) y w) \/
    (same_set (mk p rk) z y /\ same_set (mk p rk) x w).
Proof.
  intros Hx Hy Hab z w.
  pose proof (root_of_fixed _ _ _ Hx) as Ha.
  pose proof (root_of_fixed _ _ _ Hy) as Hb.
  rewrite !(same_set_root (mk p rk) _ x a) by exact Hx.
  rewrite !(same_set_root (mk p rk) _ y b) by exact Hy.
  assert (same_set (mk p rk) y w <-> root_of p w b) as ->
    by (split; intros H;
        [apply same_set_sym, (same_set_root (mk p rk) _ y b) in H|
         apply same_set_sym, (same_set_root (mk p rk) _ y b)]; auto).
  assert (same_set (mk p rk) x w <-> root_of p w a) as ->
    by (split; intros H;
        [apply same_set_sym, (same_set_root (mk p rk) _ x a) in H|
         apply same_set_sym, (same_set_root (mk p rk) _ x a)]; auto).
  unfold same_set. cbn [parent]. split.
  - intros (q & Hz & Hw).
    apply (link_roots p a b Ha Hb Hab) in Hz, Hw.
    destruct Hz as [[Hz Hq]|[Hz ->]], Hw as [[Hw Hq']|[Hw Hq']].
    + left. exists q. auto.
    + right. right. subst q. auto.
    + right. left. auto.
    + left. exists a. auto.
  - intros [(q & Hz & Hw)|[[Hz Hw]|[Hz Hw]]].
    + destruct (decide (q = a)) as [->|Hq].
      * exists b. split; apply (link_roots p a b Ha Hb Hab); right; auto.
      * exists q. split; apply (link_roots p a b Ha Hb Hab); left; auto.
    + exists b. split; apply (link_roots p a b Ha Hb Hab);
        [right; auto|left; auto].
    + exists b. split; apply (link_roots p a b Ha Hb Hab);
        [left; auto|right; auto].
Qed.

(** [union] keeps the invariant and joins the sets of [x] and [y]. *)
Lemma union_spec u x y :
  ranked u -> x < length (parent u) -> y < length (parent u) ->
  ranked (union u x y) /\
  length (parent (union u x y)) = length (parent u) /\
  forall z w, same_set (union u x y) z w <->
    same_set u z w \/ (same_set u z x /\ same_set u y w) \/
    (same_set u z y /\ same_set u x w).
Proof.
  intros Hk Hx Hy. unfold union.
  destruct (find u x) as [u1 rx] eqn:E1.
  destruct (find_spec _ _ _ _ Hk Hx E1) as (Hrx & Hk1 & Hrk1 & Hl1 & Hroots1).
  destruct (find u1 y) as [u2 ry] eqn:E2.
  assert (y < length (parent u1)) as Hy1 by lia.
  destruct (find_spec _ _ _ _ Hk1 Hy1 E2) as (Hry & Hk2 & Hrk2 & Hl2 & Hroots2).
  assert (forall z q, root_of (parent u2) z q <-> root_of (parent u) z q)
    as Hroots by (intros; now rewrite Hroots2, Hroots1).
  pose proof (same_set_roots u u2 Hroots) as Hsame.
  apply Hroots1 in Hry. apply Hroots in Hrx, Hry.
  destruct u2 as [p2 rk2]. cbn [parent rank] in *.
  assert (forall rk' a b x' y',
    root_of p2 x' a -> root_of p2 y' b -> a <> b ->
    forall z w, same_set (mk (<[a := b]> p2) rk') z w <->
      same_set u z w \/ (same_set u z x' /\ same_set u y' w) \/
      (same_set u z y' /\ same_set u x' w)) as Hlink.
  { intros rk' a b x' y' Hx' Hy' Hab z w.
    rewrite (link_same p2 rk2 rk' a b x' y' Hx' Hy' Hab).
    now rewrite !Hsame. }
  pose proof (root_of_fixed _ _ _ Hrx) as Hfx.
  pose proof (root_of_fixed _ _ _ Hry) as Hfy.
  pose proof (root_of_lt _ _ _ Hrx) as [_ Hrxl].
  destruct Hk2 as [Hlen2 Hk2']. cbn [parent rank] in *.
  destruct (Nat.eqb_spec rx ry) as [Heq|Hne].
  - split; [split; assumption|]. split; [cbn [parent]; lia|]. intros z w.
    rewrite Hsame.
    assert (same_set u x y) as Hxy.
    { apply Hsame. exists rx. cbn [parent]. split; [exact Hrx|].
      now rewrite Heq. }
    split; [auto|]. intros [H|[[Hz Hw]|[Hz Hw]]]; [exact H| |].
    + destruct Hz as (r & Hz & Hxr), Hxy as (r' & Hxr' & Hyr'),
        Hw as (r'' & Hyr'' & Hw).
      rewrite <- (root_of_unique _ _ _ _ Hxr Hxr') in Hyr'.
      rewrite <- (root_of_unique _ _ _ _ Hyr' Hyr'') in Hw.
      exists r. auto.
    + destruct Hz as (r & Hz & Hyr), Hxy as (r' & Hxr' & Hyr'),
        Hw as (r'' & Hxr'' & Hw).
      rewrite <- (root_of_unique _ _ _ _ Hyr Hyr') in Hxr'.
      rewrite <- (root_of_unique _ _ _ _ Hxr' Hxr'') in Hw.
      exists r. auto.
  - destruct (Nat.ltb_spec (rank_of rk2 rx) (rank_of rk2 ry)) as [Hlt|Hge].
    + split; [|split].
      * apply (link_ranked p2 rk2 rk2 rx ry); auto. split; assumption.
      * cbn [parent]. rewrite length_insert. lia.
      * apply (Hlink rk2 rx ry x y); auto.
    + assert (forall rk',
        ranked (mk (<[ry := rx]> p2) rk') ->
        ranked (mk (<[ry := rx]> p2) rk') /\
        length (parent (mk (<[ry := rx]> p2) rk')) = length (parent u) /\
        forall z w, same_set (mk (<[ry := rx]> p2) rk') z w <->
          same_set u z w \/ (same_set u z x /\ same_set u y w) \/
          (same_set u z y /\ same_set u x w)) as Hcase.
      { intros rk' Hk'. split; [exact Hk'|]. split.
        - cbn [parent]. rewrite length_insert. lia.
        - intros z w.
          rewrite (Hlink rk' ry rx y x); auto. tauto. }
      destruct (Nat.ltb_spec (rank_of rk2 ry) (rank_of rk2 rx)) as [Hlt|Hge'].
      * apply Hcase. apply (link_ranked p2 rk2 rk2 ry rx); auto.
        split; assumption.
      * apply Hcase.
        assert (rx < length rk2) as Hrxl' by lia.
        apply (link_ranked p2 rk2 _ ry rx); auto.
        -- split; assumption.
        -- now rewrite length_insert.
        -- intros z. rewrite rank_of_insert by exact Hrxl'.
           destruct (decide (z = rx)) as [->|]; lia.
        -- intros z Hz. rewrite rank_of_insert by exact Hrxl'.
           destruct (decide (z = rx)); [contradiction|reflexivity].
        -- rewrite !rank_of_insert by exact Hrxl'.
           destruct (decide (ry = rx)); [congruence|].
           destruct (decide (rx = rx)); [lia|contradiction].
Qed.

Lemma connected_nil {A} (x y : A) : Graph.connected [] x y <-> x = y.
Proof.
  split; [|intros ->; reflexivity].
  intros H. apply rtc_inv in H as [H|(z & [H|H] & _)]; [exact H| |];
    apply elem_of_nil in H; contradiction.
Qed.

(** What one more edge adds to connectivity. *)
Lemma connected_add {A} (es : list (A * A)) a b x y :
  Graph.connected ((a, b) :: es) x y <->
  Graph.connected es x y \/
  (Graph.connected es x a /\ Graph.connected es b y) \/
  (Graph.connected es x b /\ Graph.connected es a y).
Proof.
  assert (forall u v, Graph.connected es u v ->
            Graph.connected ((a, b) :: es) u v) as Hmono
    by (intros u v; apply GraphFacts.connected_mono; intros e;
        apply list_elem_of_further).
  assert (Graph.connected ((a, b) :: es) a b) as Hab
    by (apply GraphFacts.connected_edge; left; apply list_elem_of_here).
  split.
  - intros H. induction H as [x|x z y Hxz _ IH]; [left; reflexivity|].
    assert (Graph.connected es x z \/ (x = a /\ z = b) \/ (x = b /\ z = a))
      as [Hc|[[-> ->]|[-> ->]]].
    { destruct Hxz as [Hxz|Hxz]; apply elem_of_cons in Hxz as [Hxz|Hxz].
      - injection Hxz as -> ->. auto.
      - left. apply GraphFacts.connected_edge. auto.
      - injection Hxz as -> ->. auto.
      - left. apply GraphFacts.connected_edge. auto. }
    + destruct IH as [IH|[[IH1 IH2]|[IH1 IH2]]].
      * left. eapply GraphFacts.connected_trans; eauto.
      * right. left. split; [|exact IH2].
        eapply GraphFacts.connected_trans; eauto.
      * right. right. split; [|exact IH2].
        eapply GraphFacts.connected_trans; eauto.
    + destruct IH as [IH|[[_ IH]|[_ IH]]].
      * right. left. split; [reflexivity|exact IH].
      * right. left. split; [reflexivity|exact IH].
      * left. exact IH.
    + destruct IH as [IH|[[_ IH]|[_ IH]]].
      * right. right. split; [reflexivity|exact IH].
      * left. exact IH.
      * right. right. split; [reflexivity|exact IH].
  - intros [H|[[H1 H2]|[H1 H2]]].
    + auto.
    + eapply GraphFacts.connected_trans; [apply Hmono, H1|].
      eapply GraphFacts.connected_trans; [exact Hab|apply Hmono, H2].
    + eapply GraphFacts.connected_trans; [apply Hmono, H1|].
      eapply GraphFacts.connected_trans;
        [apply GraphFacts.connected_sym, Hab|apply Hmono, H2].
Qed.

Lemma make_partitions n : partitions n [] (make n).
Proof.
  assert (forall x, x < n -> root_of (seq 0 n) x x) as Hroot
    by (intros x Hx; constructor; now rewrite lookup_seq_lt).
  split; [|split].
  - split; cbn [make parent rank].
    + now rewrite length_replicate, length_seq.
    + intros x y Hy. apply lookup_seq in Hy as [-> Hx]. rewrite length_seq.
      split; [exact Hx|]. intros Hne. contradiction Hne. reflexivity.
  - cbn [make parent]. apply length_seq.
  - intros x y Hx Hy. rewrite connected_nil. unfold same_set.
    cbn [make parent]. split.
    + intros (r & Hxr & Hyr).
      pose proof (root_of_unique _ _ _ _ (Hroot x Hx) Hxr).
      pose proof (root_of_unique _ _ _ _ (Hroot y Hy) Hyr). congruence.
    + intros ->. exists y. auto.
Qed.

Lemma union_partitions n es u a b :
  partitions n es u -> a < n -> b < n ->
  partitions n (es ++ [(a, b)]) (union u a b).
Proof.
  intros (Hk & Hn & Hsame) Ha Hb.
  destruct (union_spec u a b Hk) as (Hk' & Hn' & Hsame'); [lia|lia|].
  split; [exact Hk'|]. split; [lia|]. intros x y Hx Hy.
  rewrite Hsame'.
  assert (Graph.connected (es ++ [(a, b)]) x y
            <-> Graph.connected ((a, b) :: es) x y) as ->.
  { split; apply GraphFacts.connected_mono; intros e;
      rewrite elem_of_app, list_elem_of_singleton, elem_of_cons; tauto. }
  rewrite connected_add. rewrite !Hsame by assumption. reflexivity.
Qed.

(** After all the edges the sets are the connected components. *)
Lemma union_all_partitions n es : forall done u,
  partitions n done u ->
  Forall (fun e => e.1 < n /\ e.2 < n) es ->
  partitions n (done ++ es) (union_all es u).
Proof.
  induction es as [|[a b] es IH]; intros done u Hp Hes.
  - now rewrite app_nil_r.
  - cbn [union_all]. apply Forall_cons in Hes as [[Ha Hb] Hes].
    replace (done ++ (a, b) :: es) with ((done ++ [(a, b)]) ++ es)
      by now rewrite <- app_assoc.
    apply IH; [|exact Hes]. apply union_partitions; auto.
Qed.

Lemma find_all_spec xs : forall u,
  ranked u -> Forall (fun x => x < length (parent u)) xs ->
  Forall2 (fun x r => root_of (parent u) x r) xs (find_all xs u).
Proof.
  induction xs as [|x xs IH]; intros u Hk Hxs; [constructor|].
  apply Forall_cons in Hxs as [Hx Hxs]. cbn [find_all].
  destruct (find u x) as [u' r] eqn:E.
  destruct (find_spec _ _ _ _ Hk Hx E) as (Hr & Hk' & _ & Hl & Hroots).
  constructor; [exact Hr|].
  eapply Forall2_impl; [apply IH; [exact Hk'|]|].
  - rewrite Hl. exact Hxs.
  - intros z q. apply Hroots.
Qed.

(** Two nodes get the same component id exactly when a path of edges joins
    them. *)
Lemma components_spec g :
  Forall (fun e => e.1 < Graph.vcount g /\ e.2 < Graph.vcount g)
         (Graph.edge_list g) ->
  length (connected_components g) = Graph.vcount g /\
  forall x y cx cy,
    connected_components g !! x = Some cx ->
    connected_components g !! y = Some cy ->
    (cx = cy <-> Graph.connected (Graph.edge_list g) x y).
Proof.
  intros Hes. unfold connected_components.
  split; [now rewrite ClusteringFacts.length_find_all, length_seq|].
  pose proof (union_all_partitions (Graph.vcount g) (Graph.edge_list g) []
                _ (make_partitions _) Hes) as (Hk & Hn & Hsame).
  cbn [app] in *.
  pose proof (find_all_spec (seq 0 (Graph.vcount g)) _ Hk) as Hall.
  intros x y cx cy Hx Hy.
  assert (Forall (fun x => x < length
            (parent (union_all (Graph.edge_list g) (make (Graph.vcount g)))))
            (seq 0 (Graph.vcount g))) as Hseq.
  { rewrite Hn. apply Forall_forall. intros z Hz.
    apply elem_of_seq in Hz. lia. }
  specialize (Hall Hseq).
  destruct (Forall2_lookup_r _ _ _ _ _ Hall Hx) as (x' & Hx' & Hrx).
  destruct (Forall2_lookup_r _ _ _ _ _ Hall Hy) as (y' & Hy' & Hry).
  apply lookup_seq in Hx' as [-> Hxn], Hy' as [-> Hyn]. cbn [Nat.add] in *.
  rewrite <- (Hsame x y Hxn Hyn). split.
  - intros <-. exists cx. auto.
  - intros (r & Hxr & Hyr).
    rewrite (root_of_unique _ _ _ _ Hrx Hxr).
    now rewrite (root_of_unique _ _ _ _ Hry Hyr).
Qed.

End UnionFindFacts.

Module ComponentFacts.
Import Bytes Codec Input.

Lemma valid_node_lt n x :
  Graph.valid_node n x = true -> (Z.to_nat x < n)%nat.
Proof.
  unfold Graph.valid_node. intros H. apply andb_prop in H as [H0 Hn].
  apply Z.leb_le in H0. apply Z.ltb_lt in Hn. lia.
Qed.

Lemma pairs_valid n v :
  forallb (Graph.valid_node n) v = true ->
  Forall (fun e => (e.1 < n)%nat /\ (e.2 < n)%nat) (Graph.pairs v).
Proof.
  assert (forall v,
    (forallb (Graph.valid_node n) v = true ->
     Forall (fun e => (e.1 < n)%nat /\ (e.2 < n)%nat) (Graph.pairs v)) /\
    (forall a, forallb (Graph.valid_node n) (a :: v) = true ->
     Forall (fun e => (e.1 < n)%nat /\ (e.2 < n)%nat) (Graph.pairs (a :: v))))
    as H.
  { clear v. induction v as [|b v [IH1 IH2]].
    - split; [constructor|]. intros a _. constructor.
    - split; [apply IH2|]. intros a Ha. cbn [forallb Graph.pairs] in *.
      apply andb_prop in Ha as [Ha Hb]. apply andb_prop in Hb as [Hb Hv].
      constructor; [|now apply IH1].
      cbn [fst snd]. split; now apply valid_node_lt. }
  apply H.
Qed.

(** The graphs that the analyzers build hold edges between their own nodes
    only. *)
Lemma clustering_graph_well_formed host input_file forced g :
  Clustering.read_graph_binary host input_file forced = Some g ->
  Graph.well_formed g.
Proof.
  unfold Clustering.read_graph_binary.
  destruct (read_blocks input_file) as [|buf blks]; [discriminate|].
  destruct (length buf <? 8)%nat; [discriminate|].
  destruct (Clustering.igraph_empty _) as [g0|] eqn:E0; [|discriminate].
  rewrite Steps.bind_some.
  destruct (Clustering.igraph_vector_int_init _) as [v|]; [|discriminate].
  rewrite Steps.bind_some.
  destruct (Clustering.read_edges _ _ _ _ _) as [v'|]; [|discriminate].
  rewrite Steps.bind_some. intros Ha.
  apply ClusteringFacts.add_edges_vcount in Ha as (Hv & He & Hvalid).
  apply ClusteringFacts.empty_vcount in E0 as [_ ->].
  unfold Graph.well_formed. rewrite He, Hv. cbn [Graph.edge_list app].
  now apply pairs_valid.
Qed.

Lemma lemon_add_edge_well_formed g u v g' :
  Lemon.addEdge g u v = Some g' ->
  Graph.vcount g' = Graph.vcount g /\
  (Graph.well_formed g -> Graph.well_formed g').
Proof.
  unfold Lemon.addEdge.
  destruct (Graph.valid_node _ u) eqn:Eu; [|discriminate].
  destruct (Graph.valid_node _ v) eqn:Ev; [|discriminate].
  intros [= <-]. split; [reflexivity|]. unfold Graph.well_formed.
  cbn [Graph.vcount Graph.edge_list]. intros H.
  apply Forall_app. split; [exact H|].
  constructor; [|constructor]. cbn [fst snd].
  split; now apply valid_node_lt.
Qed.

Lemma lemon_read_edges_well_formed decode host blks : forall g g',
  Lemon.read_edges decode host blks g = Some g' ->
  Graph.vcount g' = Graph.vcount g /\
  (Graph.well_formed g -> Graph.well_formed g').
Proof.
  induction blks as [|buf blks IH]; intros g g' H.
  - injection H as <-. auto.
  - cbn [Lemon.read_edges] in H.
    destruct (length buf <? 8)%nat; [injection H as <-; auto|].
    destruct (Lemon.addEdge g _ _) as [g1|] eqn:E1; [|discriminate].
    rewrite Steps.bind_some in H.
    apply lemon_add_edge_well_formed in E1 as [Hv1 Hw1].
    apply IH in H as [Hv Hw]. split; [congruence|auto].
Qed.

Lemma lemon_graph_well_formed decode host input_file g :
  Lemon.read_graph decode host input_file = Some g -> Graph.well_formed g.
Proof.
  unfold Lemon.read_graph.
  destruct (read_blocks input_file) as [|buf blks]; [discriminate|].
  destruct (length buf <? 8)%nat; [discriminate|].
  destruct (Lemon.reserve (decode (buf0 host buf))); [|discriminate].
  rewrite Steps.bind_some.
  destruct (Lemon.reserve _); [|discriminate]. rewrite Steps.bind_some.
  intros H. apply lemon_read_edges_well_formed in H as [_ H].
  apply H. constructor.
Qed.

(** The rows written for the nodes [nodes] of a graph: one for each, and
    the same component for two nodes exactly when a path joins them. *)
Lemma component_rows g (nodes : list nat) :
  Graph.well_formed g ->
  Forall (fun i => (i < Graph.vcount g)%nat) nodes ->
  forall rows,
  rows = (fun n : nat =>
            Row (Z.of_nat n)
                (default 0 ((Z.of_nat <$> UnionFind.connected_components g) !! n)))
           <$> nodes ->
  (forall i : nat, i ∈ nodes -> exists c, Row (Z.of_nat i) c ∈ rows) /\
  (forall (u v : nat) cu cv,
     Row (Z.of_nat u) cu ∈ rows -> Row (Z.of_nat v) cv ∈ rows ->
     (cu = cv <-> Graph.connected (Graph.edge_list g) u v)).
Proof.
  intros Hg Hnodes rows ->.
  destruct (UnionFindFacts.components_spec g Hg) as [Hlen Hcomp].
  rewrite Forall_forall in Hnodes.
  split.
  - intros i Hi. eexists. apply list_elem_of_fmap. exists i. split; [reflexivity|exact Hi].
  - assert (forall (u : nat) cu,
      Row (Z.of_nat u) cu ∈
        (fun n : nat =>
           Row (Z.of_nat n)
             (default 0 ((Z.of_nat <$> UnionFind.connected_components g) !! n)))
          <$> nodes ->
      exists c, UnionFind.connected_components g !! u = Some c /\
                cu = Z.of_nat c) as Hrow.
    { intros u cu Hu. apply list_elem_of_fmap in Hu as (n & Hn & Hin).
      injection Hn as Hun ->. apply Nat2Z.inj in Hun as ->.
      specialize (Hnodes n Hin).
      destruct (lookup_lt_is_Some_2 (UnionFind.connected_components g) n)
        as [c Hc]; [lia|].
      exists c. split; [exact Hc|].
      now rewrite list_lookup_fmap, Hc. }
    intros u v cu cv Hu Hv.
    apply Hrow in Hu as (c & Hc & ->). apply Hrow in Hv as (d & Hd & ->).
    rewrite <- (Hcomp u v c d Hc Hd). split; [apply Nat2Z.inj|congruence].
Qed.

End ComponentFacts.

(** * The claims *)

Section NodeIdentifiers.
Import CString Tx BuilderV02 NumberingFacts Samples.

Lemma observed_processing_order lines :
  Forall (fun l => parses l = true) lines ->
  forall a, a ∈ flat_map observed_in_line lines
            <-> a ∈ flat_map line_order lines.
Proof.
  induction 1 as [|l lines Hp _ IH]; intros a; [reflexivity|].
  cbn [flat_map]. rewrite !elem_of_app, IH.
  destruct (BuilderV02Lines.line_order_parsed _ Hp) as (ins & outs & Hi & Ho & ->).
  rewrite (TxFacts.observed_in_line_parsed _ _ _ Hi Ho), !elem_of_app.
  rewrite BuilderV02Lines.elem_of_set_int_iter, elem_of_list_to_set.
  reflexivity.
Qed.

Lemma process_lines_app lines1 : forall lines2 st st',
  process_lines (lines1 ++ lines2) st = Some st' ->
  exists st1, process_lines lines1 st = Some st1 /\
              process_lines lines2 st1 = Some st'.
Proof.
  induction lines1 as [|l lines1 IH]; intros lines2 st st' H.
  - exists st. auto.
  - cbn [app process_lines] in *.
    destruct (process_line l st) as [st0|]; [|discriminate].
    cbn [mbind option_bind] in *. now apply IH.
Qed.

(** C1 (amended), version 0.2 of the builder: on a stream with at most
    2^31 - 1 distinct addresses the node map is a total bijection from the
    observed addresses onto [0, N), N being the number of distinct
    addresses and the final value of the counter; the identifier of an
    address is the rank of its first occurrence in the order in which the
    addresses are looked up, so each new address gets the next unused
    identifier; and the identifiers assigned after any prefix of the lines
    are the ones of the final map.  Version 1.0 keeps no node map: on a
    stream in which every inputs field is empty or holds an item, the node
    count is the largest address (or 0) plus one.  In both versions the
    address of an item is what [atoi] makes of its first field, so an item
    that is nothing but a line end, or another white space character, has
    the address 0. *)
Theorem node_ids_first_seen host input :
  (forall o,
    BuilderV02.main host input = Some o ->
    Z.of_nat (length (first_occurrences (processing_order input)))
      <= Int32.INT_MAX ->
    num_nodes o = Z.of_nat (length (first_occurrences (processing_order input))) /\
    id_count (final o) = num_nodes o /\
    bijection_onto (observed input) (num_nodes o)
                   (fun a => nodes (final o) !! a) /\
    (forall a i, nodes (final o) !! a = Some i <->
       0 <= i /\
       first_occurrences (processing_order input) !! Z.to_nat i = Some a) /\
    (forall lines1 lines2 st1,
       getlines input = lines1 ++ lines2 ->
       process_lines lines1 initial = Some st1 ->
       numbers st1 (first_occurrences (flat_map line_order lines1)) /\
       nodes st1 ⊆ nodes (final o))) /\
  (forall o,
    Forall (fun l => has_first_input l = true) (getlines input) ->
    Builder.main host input = Some o ->
    Builder.num_nodes o = Int32.add (Builder.max_with 0 (observed input)) 1) /\
  (forall c, isspace c = true -> address_of [c] = Some 0).
Proof.
  split; [|split].
  - intros o Hmain Hb.
    destruct (BuilderV02Facts.v02_main_spec _ _ _ Hmain) as (Hrun & HN & _ & _).
    destruct (BuilderV02Lines.run_spec _ _ Hrun Hb) as (Hn & He).
    pose proof (numbers_size _ _ Hn) as Hsize.
    assert (num_nodes o
            = Z.of_nat (length (first_occurrences (processing_order input))))
      as HN'.
    { rewrite HN, Hsize. apply Int32Facts.wrap_id.
      unfold Int32.in_range, Int32.INT_MIN, Int32.INT_MAX in *. lia. }
    assert (id_count (final o) = num_nodes o) as Hc
      by (rewrite HN'; apply Hn).
    assert (Forall (fun l => parses l = true) (getlines input)) as Hall
      by (eapply BuilderV02Lines.process_lines_parses; eauto).
    split; [exact HN'|]. split; [exact Hc|]. split; [|split].
    + split; [|split; [|split]].
      * intros a. rewrite <- (numbers_elem _ _ a Hn), elem_of_first_occurrences.
        apply observed_processing_order, Hall.
      * intros a i Hi. rewrite <- Hc. eauto using numbers_lookup_range.
      * intros a b i. eauto using numbers_inj.
      * intros i Hi. rewrite <- Hc in Hi. eauto using numbers_surj.
    + apply Hn.
    + intros lines1 lines2 st1 Hsplit Hrun1.
      unfold processing_order in *. rewrite Hsplit in *.
      rewrite flat_map_app, first_occurrences_app in *.
      pose proof (length_foldl_note (flat_map line_order lines2)
                    (first_occurrences (flat_map line_order lines1))) as Hmono.
      apply Forall_app in Hall as [Hall1 _].
      destruct (BuilderV02Lines.v02_process_lines_spec lines1 initial [] Hall1
                  BuilderV02Lines.numbers_initial
                  BuilderV02Lines.edges_ascend_initial) as (st1' & E & Hn1 & _).
      { unfold first_occurrences in *. lia. }
      rewrite Hrun1 in E. injection E as <-.
      split; [exact Hn1|].
      apply map_subseteq_spec. intros a i Hi.
      apply Hn. apply Hn1 in Hi as [H0 Hi]. split; [exact H0|].
      eapply prefix_lookup_Some; [exact Hi|]. apply foldl_note_prefix.
  - intros o Hreg Hmain.
    destruct (BuilderFacts.main_spec _ _ _ Hmain) as (m & st & Hrun & HN & _).
    apply BuilderStream.process_lines_spec in Hrun as (_ & Hm); [|exact Hreg].
    rewrite HN, Hm. reflexivity.
  - intros c Hc. unfold address_of, strtok, tokens. cbn [fields].
    destruct (is_char ","%char c) eqn:E.
    + apply CMemFacts.is_char_true in E as ->. discriminate.
    + cbn. unfold atoi, strtol10. cbn [skip_spaces]. now rewrite Hc.
Qed.

Lemma node_ids_first_seen_witness :
  (exists o,
    BuilderV02.main Codec.LittleEndian sample_stream = Some o /\
    num_nodes o = 4 /\
    bijection_onto (observed sample_stream) 4 (fun a => nodes (final o) !! a)) /\
  (exists o,
    Builder.main Codec.LittleEndian sample_stream = Some o /\
    Builder.num_nodes o = 10).
Proof.
  split.
  - destruct (BuilderV02.main Codec.LittleEndian sample_stream) as [o|] eqn:E;
      [|vm_compute in E; discriminate].
    exists o. split; [reflexivity|].
    destruct (proj1 (node_ids_first_seen Codec.LittleEndian sample_stream) o E)
      as (HN & _ & Hb & _).
    { vm_compute. discriminate. }
    assert (num_nodes o = 4) as H5 by (rewrite HN; vm_compute; reflexivity).
    rewrite H5 in Hb. auto.
  - destruct (Builder.main Codec.LittleEndian sample_stream) as [o|] eqn:E;
      [|vm_compute in E; discriminate].
    exists o. split; [reflexivity|].
    rewrite (proj1 (proj2 (node_ids_first_seen Codec.LittleEndian sample_stream))
               o ltac:(apply Steps.Forall_by_test; vm_compute; reflexivity) E).
    reflexivity.
Defined.

(** C1 as stated fails on version 1.0 of the builder: on a stream whose
    addresses are 5 and 7 the node count is 8 and the addresses stand for
    themselves, so no address has node 0. *)
Lemma node_ids_not_dense :
  exists o,
    Builder.main Codec.LittleEndian (txt "t1:5,10;7,20:") = Some o /\
    ~ bijection_onto (observed (txt "t1:5,10;7,20:")) (Builder.num_nodes o)
        (Builder.node_of (txt "t1:5,10;7,20:")).
Proof.
  eexists. split; [vm_compute; reflexivity|].
  intros (_ & _ & _ & Hsurj).
  destruct (Hsurj 0) as [a Ha]; [vm_compute; split; [intros [=]|reflexivity]|].
  unfold Builder.node_of in Ha.
  destruct (decide (a ∈ observed (txt "t1:5,10;7,20:"))) as [Hin|]; [|discriminate].
  injection Ha as ->. vm_compute in Hin.
  repeat (apply elem_of_cons in Hin as [Hin|Hin]; [discriminate|]).
  inversion Hin.
Qed.

End NodeIdentifiers.

Section PersistedEdges.
Import CString Tx Codec Input NumberingFacts Samples.

Lemma v02_main_decodes host input o :
  BuilderV02.main host input = Some o ->
  Z.of_nat (length (BuilderV02.first_occurrences (BuilderV02.processing_order input)))
    <= Int32.INT_MAX ->
  int_pairs host bswap32 (BuilderV02.file o) =
    (BuilderV02.num_nodes o, BuilderV02.num_edges o)
      :: BuilderV02.edge_set_iter (BuilderV02.edges (BuilderV02.final o)) /\
  Edge.simple (BuilderV02.edge_set_iter (BuilderV02.edges (BuilderV02.final o))).
Proof.
  intros Hmain Hb.
  destruct (BuilderV02Facts.v02_main_spec _ _ _ Hmain) as (Hrun & HN & HM & Hf).
  destruct (BuilderV02Lines.run_spec _ _ Hrun Hb) as (Hn & He).
  destruct (BuilderV02Facts.edges_simple _ _ Hn He) as (Hsimple & Hrange).
  pose proof (BuilderV02Facts.numbers_count_range _ _ Hn Hb) as Hc.
  split; [|exact Hsimple].
  rewrite Hf. unfold BuilderV02.put_pair.
  rewrite InputFacts.int_pairs_app by apply BuilderFacts.length_put_pair.
  destruct (InputFacts.buf_put_pair host (BuilderV02.num_nodes o)
              (BuilderV02.num_edges o)) as [-> ->].
  - rewrite HN. apply Int32Facts.wrap_in_range.
  - rewrite HM. apply Int32Facts.wrap_in_range.
  - f_equal. apply InputFacts.int_pairs_encode_edges.
    eapply Forall_impl; [exact Hrange|]. cbn.
    unfold Int32.in_range, Int32.INT_MIN, Int32.INT_MAX in *. lia.
Qed.

(** C3: the edge records of the file that the builder writes, read back
    after the two counts, hold no self-loop and no two edges on the same
    unordered pair of nodes; for version 1.0 on every stream on which the
    run completes, for version 0.2 on those that hold at most 2^31 - 1
    distinct addresses. *)
Theorem persisted_edges_simple host input :
  (forall o,
    Builder.main host input = Some o ->
    exists es,
      int_pairs host bswap32 (Builder.file o) =
        (Builder.num_nodes o, Builder.num_edges o) :: es /\
      Edge.simple es) /\
  (forall o,
    BuilderV02.main host input = Some o ->
    Z.of_nat (length (BuilderV02.first_occurrences
                        (BuilderV02.processing_order input)))
      <= Int32.INT_MAX ->
    exists es,
      int_pairs host bswap32 (BuilderV02.file o) =
        (BuilderV02.num_nodes o, BuilderV02.num_edges o) :: es /\
      Edge.simple es).
Proof.
  split.
  - intros o Hmain.
    destruct (BuilderEdges.main_decodes _ _ _ Hmain)
      as (m & st & Hrun & _ & _ & Hd).
    exists (Builder.written_edges st). split; [exact Hd|].
    apply BuilderEdges.simple_of_increasing.
    + eapply Forall_impl; [exact (BuilderEdges.written_shape _ _ _ _ Hrun)|].
      cbn. tauto.
    + apply UniqueFacts.NoDup_written.
  - intros o Hmain Hb. eexists. exact (v02_main_decodes _ _ _ Hmain Hb).
Qed.

Lemma persisted_edges_simple_witness :
  exists o es,
    Builder.main LittleEndian sample_stream = Some o /\
    int_pairs LittleEndian bswap32 (Builder.file o) = (10, 2) :: es /\
    Edge.simple es.
Proof.
  destruct (Builder.main LittleEndian sample_stream) as [o|] eqn:E;
    [|vm_compute in E; discriminate].
  destruct (proj1 (persisted_edges_simple LittleEndian sample_stream) o E)
    as (es & Hd & Hs).
  exists o, es. split; [reflexivity|]. split; [|exact Hs].
  rewrite Hd. vm_compute in E. injection E as <-. reflexivity.
Defined.

End PersistedEdges.

Section RoundTrip.
Import CString Codec Input Samples.

(** C8 (amended): neither program names a byte order; both use the one of
    the machine they run on.  Version 1.0 of the builder swaps every [int]
    before it stores it, and [clustering.cpp] and [analyzer.cpp] swap every
    [int] after they load it: when the reader runs on a machine with the
    byte order of the writer's, it gets back exactly the node count, the
    edge count and the edge list, and makes its graph of these; on a
    machine with the other byte order every [int] arrives with its bytes
    reversed.  The version 0.1 analyzer does not swap: it gets the [int]s
    of such a file reversed on a machine with the writer's byte order, and
    right on a machine with the other one. *)
Theorem graph_file_round_trip writer reader input o :
  Builder.main writer input = Some o ->
  exists es,
    Builder.file o =
      Builder.put_pair writer (Builder.num_nodes o) (Builder.num_edges o)
        ++ Builder.encode_edges writer es /\
    (same_order writer reader = true ->
       int_pairs reader bswap32 (Builder.file o) =
         (Builder.num_nodes o, Builder.num_edges o) :: es /\
       Clustering.read_graph_binary reader (Builder.file o) 0 =
         Clustering.build (Builder.num_nodes o) (Builder.num_edges o) es /\
       Analyzer.read_graph reader (Builder.file o) =
         Lemon.build (Builder.num_nodes o) (Builder.num_edges o) es /\
       int_pairs reader (fun x => x) (Builder.file o) =
         swap_pair <$> (Builder.num_nodes o, Builder.num_edges o) :: es /\
       AnalyzerV01.read_graph reader (Builder.file o) =
         Lemon.build (bswap32 (Builder.num_nodes o))
           (bswap32 (Builder.num_edges o)) (swap_pair <$> es)) /\
    (same_order writer reader = false ->
       int_pairs reader bswap32 (Builder.file o) =
         swap_pair <$> (Builder.num_nodes o, Builder.num_edges o) :: es /\
       Clustering.read_graph_binary reader (Builder.file o) 0 =
         Clustering.build (bswap32 (Builder.num_nodes o))
           (bswap32 (Builder.num_edges o)) (swap_pair <$> es) /\
       Analyzer.read_graph reader (Builder.file o) =
         Lemon.build (bswap32 (Builder.num_nodes o))
           (bswap32 (Builder.num_edges o)) (swap_pair <$> es) /\
       int_pairs reader (fun x => x) (Builder.file o) =
         (Builder.num_nodes o, Builder.num_edges o) :: es /\
       AnalyzerV01.read_graph reader (Builder.file o) =
         Lemon.build (Builder.num_nodes o) (Builder.num_edges o) es).
Proof.
  intros Hmain.
  destruct (BuilderFacts.main_spec _ _ _ Hmain)
    as (m & st & Hrun & HN & HM & Hf).
  exists (Builder.written_edges st).
  assert (Forall (fun e : Edge.t => Int32.in_range e.1 /\ Int32.in_range e.2)
            (Builder.written_edges st)) as Hr.
  { eapply Forall_impl; [exact (BuilderEdges.written_shape _ _ _ _ Hrun)|].
    cbn. tauto. }
  assert (Int32.in_range (Builder.num_nodes o)) as HNr
    by (rewrite HN; apply Int32Facts.wrap_in_range).
  assert (Int32.in_range (Builder.num_edges o)) as HMr
    by (rewrite HM; apply Int32Facts.wrap_in_range).
  split; [exact Hf|]. rewrite Hf.
  rewrite !ReaderFacts.int_pairs_file. cbn [fmap list_fmap].
  rewrite ReaderFacts.encode_edges_concat.
  rewrite ReaderFacts.clustering_read_graph
    by auto using BuilderFacts.length_put_pair, ReaderFacts.swapped_blocks_length.
  unfold Analyzer.read_graph, AnalyzerV01.read_graph.
  rewrite !ReaderFacts.lemon_read_graph
    by auto using BuilderFacts.length_put_pair, ReaderFacts.swapped_blocks_length.
  cbn [Z.eqb]. split; intros Ho.
  - apply ReaderFacts.same_order_eq in Ho as <-.
    destruct (InputFacts.buf_put_pair writer _ _ HNr HMr) as [H0 H1].
    destruct (ReaderFacts.buf_put_pair_raw writer (Builder.num_nodes o)
                (Builder.num_edges o)) as [R0 R1].
    rewrite H0, H1, R0, R1, ReaderFacts.decode_swapped_blocks by exact Hr.
    pose proof (ReaderFacts.raw_blocks writer (Builder.written_edges st)) as Hraw.
    change (fun e : Edge.t => (bswap32 e.1, bswap32 e.2)) with swap_pair in Hraw.
    rewrite Hraw. auto.
  - destruct (ReaderFacts.buf_put_pair_other writer reader _ _ Ho HNr HMr)
      as [H0 H1].
    rewrite H0, H1, ReaderFacts.other_blocks_swapped,
      ReaderFacts.other_blocks by assumption.
    auto.
Qed.

Lemma graph_file_round_trip_witness :
  exists o,
    Builder.main BigEndian sample_stream = Some o /\
    int_pairs BigEndian bswap32 (Builder.file o) = [(10, 2); (3, 7); (5, 7)] /\
    int_pairs LittleEndian (fun x => x) (Builder.file o)
      = [(10, 2); (3, 7); (5, 7)].
Proof.
  destruct (Builder.main BigEndian sample_stream) as [o|] eqn:E;
    [|vm_compute in E; discriminate].
  destruct (graph_file_round_trip BigEndian BigEndian sample_stream o E)
    as (es & Hf & Hsame & _).
  destruct (graph_file_round_trip BigEndian LittleEndian sample_stream o E)
    as (es' & Hf' & _ & Hother).
  destruct (Hsame eq_refl) as (Hd & _).
  destruct (Hother eq_refl) as (_ & _ & _ & Hd' & _).
  exists o. split; [reflexivity|].
  vm_compute in E. injection E as <-. split; vm_compute; reflexivity.
Defined.

(** C8 as stated fails for the version 0.1 analyzer, which loads the
    [int]s of the file as they are: from the file that version 1.0 of the
    builder writes for the sample stream on a little-endian machine, with
    the node count 10 and the edge count 2, it gets the counts 167772160
    and 33554432 on the same machine. *)
Lemma unswapped_reader_fails :
  exists o,
    Builder.main LittleEndian sample_stream = Some o /\
    Builder.num_nodes o = 10 /\ Builder.num_edges o = 2 /\
    head (int_pairs LittleEndian (fun x => x) (Builder.file o))
      = Some (167772160, 33554432).
Proof.
  eexists. split; [vm_compute; reflexivity|].
  repeat split; vm_compute; reflexivity.
Qed.

End RoundTrip.

Section ForcedNodeCount.
Import Bytes Codec CString Input Clustering.

(** C10: in [clustering.cpp] a third argument that [atoi] reads as a
    non-zero number is the node count of the graph, and the node count field
    of the header is then not looked at; with no third argument, or one read
    as zero, the node count is the header field.  For a file that holds
    the edge records its header announces, all of them between nodes below
    the node count so chosen, [read_graph_binary] builds the graph with that
    many nodes and with exactly these edges, the same edges whichever way
    the node count was chosen, and [main] writes one row for each node. *)
Theorem forced_node_count host argv3 :
  (forall n n' rest : list byte,
     length n = 4%nat -> length n' = 4%nat -> num_addresses argv3 <> 0 ->
     main host argv3 (n ++ rest) = main host argv3 (n' ++ rest)) /\
  (forall (n : list byte) (es : list Edge.t) N,
     length n = 4%nat ->
     Z.of_nat (length es) < 2 ^ 30 ->
     N = (if num_addresses argv3 =? 0 then bswap32 (load_int host n)
          else num_addresses argv3) ->
     0 <= N ->
     Forall (fun e => 0 <= e.1 < N /\ 0 <= e.2 < N) es ->
     read_graph_binary host
       (n ++ store_int host (bswap32 (Z.of_nat (length es)))
          ++ Builder.encode_edges host es)
       (num_addresses argv3) =
       Some (Graph.mk (Z.to_nat N)
               ((fun e => (Z.to_nat e.1, Z.to_nat e.2)) <$> es)) /\
     exists rows,
       main host argv3
         (n ++ store_int host (bswap32 (Z.of_nat (length es)))
            ++ Builder.encode_edges host es) =
         Some (Header "node_id,comp_id" :: rows) /\
       length rows = Z.to_nat N).
Proof.
  split.
  - intros n n' rest Hn Hn' Hf.
    unfold main. f_equal. unfold read_graph_binary.
    rewrite !ClusteringFacts.read_blocks_header by assumption.
    rewrite !length_app, Hn, Hn'.
    destruct (4 + length (take 4 rest) <? 8)%nat eqn:E; [reflexivity|].
    apply Nat.ltb_ge in E. rewrite length_take in E.
    rewrite !InputFacts.buf1_app by (try assumption; rewrite length_take; lia).
    destruct (Z.eqb_spec (num_addresses argv3) 0); [contradiction|].
    destruct (igraph_empty _); [|reflexivity]. rewrite !Steps.bind_some.
    destruct (igraph_vector_int_init _); [|reflexivity].
    rewrite !Steps.bind_some.
    rewrite (ClusteringFacts.read_edges_buf host _ (n ++ take 4 rest)
               (n' ++ take 4 rest)); [reflexivity|].
    now rewrite !drop_app_length' by (symmetry; assumption).
  - intros n es N Hn HM HN H0 Hes.
    assert (Int32.in_range N) as HNr.
    { rewrite HN. destruct (num_addresses argv3 =? 0).
      - apply CodecFacts.bswap32_in_range.
      - unfold num_addresses. destruct argv3 as [s|].
        + apply CStringFacts.atoi_in_range.
        + unfold Int32.in_range, Int32.INT_MIN, Int32.INT_MAX. lia. }
    assert (Forall (fun e : Edge.t => Int32.in_range e.1 /\ Int32.in_range e.2) es)
      as Hr.
    { eapply Forall_impl; [exact Hes|]. cbn.
      unfold Int32.in_range, Int32.INT_MIN, Int32.INT_MAX in *. lia. }
    assert (read_graph_binary host
              (n ++ store_int host (bswap32 (Z.of_nat (length es)))
                 ++ Builder.encode_edges host es) (num_addresses argv3) =
            Some (Graph.mk (Z.to_nat N)
                    ((fun e => (Z.to_nat e.1, Z.to_nat e.2)) <$> es))) as Hg.
    { rewrite app_assoc, ReaderFacts.encode_edges_concat.
      rewrite ReaderFacts.clustering_read_graph.
      - rewrite InputFacts.buf0_app, InputFacts.buf1_app
          by auto using CodecFacts.length_store_int.
        rewrite CodecFacts.swapped_round_trip, ReaderFacts.decode_swapped_blocks,
          <- HN.
        + now apply ClusteringFacts.build_valid.
        + exact Hr.
        + unfold Int32.in_range, Int32.INT_MIN, Int32.INT_MAX. lia.
      - rewrite length_app, CodecFacts.length_store_int. lia.
      - apply ReaderFacts.swapped_blocks_length. }
    split; [exact Hg|]. unfold main. rewrite Hg, Steps.bind_some.
    eexists. split; [reflexivity|].
    unfold rows, igraph_vcount. cbn [Graph.vcount].
    now rewrite length_fmap, length_seq, Nat2Z.id.
Qed.

Lemma forced_node_count_witness :
  read_graph_binary LittleEndian
    (le_bytes 4 77 ++ store_int LittleEndian (bswap32 2)
       ++ Builder.encode_edges LittleEndian [(0, 1); (1, 2)]) 4
  = Some (Graph.mk 4 [(0, 1); (1, 2)]%nat).
Proof.
  refine (proj1 (proj2 (forced_node_count LittleEndian (Some (txt "4")))
            (le_bytes 4 77) [(0, 1); (1, 2)] 4 eq_refl eq_refl eq_refl _ _)).
  - lia.
  - repeat constructor; cbn; lia.
Defined.

End ForcedNodeCount.

Section ClusteringOutput.
Import Bytes Codec CString Input.

Lemma node_column_lemon_rows NodeIt g comp_map :
  node_column (Lemon.rows NodeIt g comp_map)
    = Z.of_nat <$> NodeIt (Graph.vcount g).
Proof.
  unfold Lemon.rows. induction (NodeIt (Graph.vcount g)) as [|i l IH];
    [reflexivity|].
  cbn. now rewrite IH.
Qed.

(** C7 (amended): whenever the graph has been read, the clustering file of
    [clustering.cpp] is the header line followed by one row for each node,
    with the node identifiers 0, 1, ..., N-1 in this order, N being the
    node count of the graph.  The clustering file of [analyzer.cpp] has no
    header line and one row for each node as well, but in the order of the
    node iterator of the graph library, which is the descending one:
    N-1, ..., 1, 0. *)
Theorem one_row_per_node host input_file :
  (forall argv3 graph,
     Clustering.read_graph_binary host input_file
       (Clustering.num_addresses argv3) = Some graph ->
     exists rows,
       Clustering.main host argv3 input_file
         = Some (Header "node_id,comp_id" :: rows) /\
       length rows = Graph.vcount graph /\
       node_column rows = Z.of_nat <$> seq 0 (Graph.vcount graph)) /\
  (forall graph,
     Analyzer.read_graph host input_file = Some graph ->
     exists rows,
       Analyzer.main Lemon.node_list host input_file = Some rows /\
       length rows = Graph.vcount graph /\
       node_column rows = Z.of_nat <$> rev (seq 0 (Graph.vcount graph))).
Proof.
  split.
  - intros argv3 graph Hg. unfold Clustering.main.
    rewrite Hg, Steps.bind_some. eexists. split; [reflexivity|].
    rewrite ClusteringFacts.node_column_rows.
    unfold Clustering.rows, Clustering.igraph_vcount.
    now rewrite length_fmap, length_seq, Nat2Z.id.
  - intros graph Hg. unfold Analyzer.main, Lemon.main.
    unfold Analyzer.read_graph in Hg. rewrite Hg, Steps.bind_some.
    eexists. split; [reflexivity|].
    rewrite node_column_lemon_rows. unfold Lemon.rows, Lemon.node_list.
    now rewrite length_fmap, length_rev, length_seq.
Qed.

Lemma one_row_per_node_witness :
  exists out,
    Clustering.main LittleEndian None (le_bytes 4 50331648 ++ Samples.small_graph_body)
      = Some (Header "node_id,comp_id" :: out) /\
    node_column out = [0; 1; 2].
Proof.
  destruct (proj1 (one_row_per_node LittleEndian
                     (le_bytes 4 50331648 ++ Samples.small_graph_body))
              None (Graph.mk 3 [(0, 1); (1, 2)]%nat))
    as (out & Hm & _ & Hc); [vm_compute; reflexivity|].
  exists out. split; [exact Hm|]. rewrite Hc. reflexivity.
Defined.

(** C7 as stated fails for [analyzer.cpp]: on the graph file of three nodes
    and the edges (0,1) and (1,2) its rows carry the node identifiers
    2, 1, 0, which is not the ascending order. *)
Lemma analyzer_rows_descend :
  exists rows,
    Analyzer.main Lemon.node_list LittleEndian
      (le_bytes 4 50331648 ++ Samples.small_graph_body) = Some rows /\
    node_column rows = [2; 1; 0] /\
    node_column rows <> Z.of_nat <$> seq 0 3.
Proof.
  eexists. split; [vm_compute; reflexivity|].
  split; [reflexivity|discriminate].
Qed.

End ClusteringOutput.

(** * Further properties of the programs *)

Section BuilderCompletes.
Import CString Tx.

Lemma tokens_cons_delim d s : tokens d (d :: s) = tokens d s.
Proof.
  unfold tokens. cbn [fields]. unfold is_char. now rewrite Ascii.eqb_refl.
Qed.

Lemma fields_cons_other d c s :
  c <> d -> exists f fs, fields d (c :: s) = (c :: f) :: fs.
Proof.
  intros Hne. cbn [fields]. unfold is_char.
  destruct (Ascii.eqb_spec c d) as [|_]; [contradiction|].
  destruct (fields d s) as [|f fs]; eauto.
Qed.

Lemma strtok_none d s : strtok d s = None <-> Forall (eq d) s.
Proof.
  unfold strtok. induction s as [|c s IH].
  - split; [constructor|reflexivity].
  - destruct (Ascii.eqb_spec c d) as [->|Hne].
    + rewrite tokens_cons_delim, IH. split.
      * intros H. now constructor.
      * intros H. now inversion H.
    + destruct (fields_cons_other d c s Hne) as (f & fs & Hf).
      unfold tokens. rewrite Hf. cbn. split; [discriminate|].
      intros H. inversion H; subst. contradiction.
Qed.

(** X1: the only item on which the builders have no address is one made of
    commas only (the empty first field that [strtok] skips); every other
    item has an address, which is an [int]. *)
Theorem address_of_none_iff item :
  address_of item = None <-> Forall (eq ","%char) item.
Proof.
  unfold address_of. rewrite <- strtok_none.
  destruct (strtok ","%char item); cbn; split; congruence.
Qed.

(** X2: on a stream in which every inputs field is empty or holds an
    item, version 1.0 of the builder writes its file exactly when every
    item of every line has an address.  (On an inputs field of semicolons
    only the first address is read where an earlier call of [strtok] has
    stopped, and the run goes on or not by what is left there.) *)
Theorem builder_completes_iff host input :
  Forall (fun l => has_first_input l = true) (getlines input) ->
  is_Some (Builder.main host input) <->
  Forall (fun l => parses l = true) (getlines input).
Proof.
  intros Hreg. split.
  - intros [o Ho].
    destruct (BuilderFacts.main_spec _ _ _ Ho) as (m & st & Hrun & _).
    now apply BuilderStream.process_lines_spec in Hrun as (Hall & _).
  - intros Hall.
    destruct (BuilderStream.process_lines_total (getlines input)
                Builder.no_memory (Builder.mkState 0 [])) as [[m st] Hst].
    + rewrite Forall_forall in *. auto.
    + eapply BuilderFacts.main_total, Hst.
Qed.

Lemma builder_completes_iff_witness :
  is_Some (Builder.main Codec.LittleEndian Samples.sample_stream).
Proof.
  apply (builder_completes_iff Codec.LittleEndian Samples.sample_stream);
    apply Steps.Forall_by_test; vm_compute; reflexivity.
Defined.

(** On an inputs field of one semicolon version 1.0 takes as first address
    what [strtok] finds where its scan of the previous line stopped: here
    the amount 50, which sets the node count to 51 although the largest
    address of the stream is 3. *)
Lemma stale_token_sets_count :
  exists o,
    Builder.main Codec.LittleEndian Samples.stale_stream = Some o /\
    Input.int_pairs Codec.LittleEndian Codec.bswap32 (Builder.file o)
      = [(51, 0)] /\
    Builder.max_with 0 (observed Samples.stale_stream) = 3.
Proof.
  destruct (Builder.main Codec.LittleEndian Samples.stale_stream) as [o|] eqn:E;
    [|vm_compute in E; discriminate].
  exists o. split; [reflexivity|].
  vm_compute in E. injection E as <-. split; reflexivity.
Qed.

Lemma v02_outputs_total items : forall st outs,
  addresses_of items = Some outs ->
  is_Some (BuilderV02.process_outputs_loop items st).
Proof.
  induction items as [|it items IH]; intros st outs H; [cbn; eauto|].
  cbn [BuilderV02.process_outputs_loop addresses_of] in *.
  destruct (address_of it) as [a|]; [|discriminate].
  rewrite Steps.bind_some in *.
  destruct (addresses_of items) as [outs'|]; [|discriminate]. eauto.
Qed.

Lemma v02_line_total line st :
  parses line = true -> is_Some (BuilderV02.process_line line st).
Proof.
  unfold parses, inputs, outputs, field, BuilderV02.process_line.
  intros Hp. apply andb_prop in Hp as [Hi Ho].
  apply bool_decide_eq_true in Hi as [ins Hi], Ho as [outs Ho].
  assert (is_Some (match fields ":"%char (cstr line) !! 1%nat with
                   | Some (c :: s) => BuilderV02.process_inputs (c :: s) st
                   | _ => Some st
                   end)) as [st1 ->].
  { destruct (fields ":"%char (cstr line) !! 1%nat) as [[|c s]|];
      cbn [default from_option id] in *; eauto.
    unfold BuilderV02.process_inputs.
    rewrite BuilderV02Lines.input_addresses_spec, Hi. cbn. eauto. }
  rewrite Steps.bind_some.
  destruct (fields ":"%char (cstr line) !! 2%nat) as [[|c s]|];
    cbn [default from_option id] in *; eauto.
  eapply v02_outputs_total, Ho.
Qed.

Lemma v02_lines_total lines : forall st,
  Forall (fun l => parses l = true) lines ->
  is_Some (BuilderV02.process_lines lines st).
Proof.
  induction lines as [|l lines IH]; intros st H; [cbn; eauto|].
  inversion H as [|? ? Hp Hall]; subst. cbn [BuilderV02.process_lines].
  destruct (v02_line_total l st Hp) as [st1 ->]. rewrite Steps.bind_some.
  now apply IH.
Qed.

(** X3: version 0.2 of the builder writes its file exactly when every item
    of every line has an address; it checks the NULL of [strtok_r], so an
    inputs field that holds only semicolons adds nothing. *)
Theorem v02_builder_completes_iff host input :
  is_Some (BuilderV02.main host input) <->
  Forall (fun l => parses l = true) (getlines input).
Proof.
  split.
  - intros [o Ho].
    destruct (BuilderV02Facts.v02_main_spec _ _ _ Ho) as (Hrun & _).
    eapply BuilderV02Lines.process_lines_parses; eauto.
  - intros Hall.
    destruct (v02_lines_total _ BuilderV02.initial Hall) as [st Hst].
    unfold BuilderV02.main. rewrite Hst. cbn. eauto.
Qed.

End BuilderCompletes.

Section StarOfEdges.
Import CString Tx Codec Input Samples.

Lemma persisted_edges host input o :
  Builder.main host input = Some o ->
  forall e, e ∈ tail (int_pairs host bswap32 (Builder.file o)) <->
            e ∈ flat_map Builder.line_edges (getlines input).
Proof.
  intros Hmain e.
  destruct (BuilderEdges.main_decodes _ _ _ Hmain)
    as (m & st & Hrun & _ & _ & ->).
  cbn [tail]. rewrite UniqueFacts.elem_of_written.
  apply BuilderStream.process_lines_edges in Hrun as ->. reflexivity.
Qed.

(** X4: version 1.0 of the builder joins the first input address of a
    transaction to every later input address that differs from it: the
    pair, smaller address first, is an edge record of the file. *)
Theorem star_edges_persisted host input o line a rest b :
  Builder.main host input = Some o ->
  line ∈ getlines input ->
  inputs line = Some (a :: rest) -> b ∈ rest -> b <> a ->
  Edge.minmax a b ∈ tail (int_pairs host bswap32 (Builder.file o)).
Proof.
  intros Hmain Hline Hi Hb Hne. apply (persisted_edges _ _ _ Hmain).
  apply list_elem_of_In, in_flat_map. exists line.
  split; [now apply list_elem_of_In|]. apply list_elem_of_In.
  apply BuilderEdges.elem_of_line_edges. eauto 10.
Qed.

Lemma sample_line_in : sample_line ∈ getlines sample_stream.
Proof. vm_compute. left. Qed.

Lemma star_edges_persisted_witness :
  exists o,
    Builder.main LittleEndian sample_stream = Some o /\
    (5, 7) ∈ tail (int_pairs LittleEndian bswap32 (Builder.file o)).
Proof.
  destruct (Builder.main LittleEndian sample_stream) as [o|] eqn:E;
    [|vm_compute in E; discriminate].
  exists o. split; [reflexivity|].
  refine (star_edges_persisted LittleEndian sample_stream o sample_line
            5 [7; 5] 7 E sample_line_in eq_refl _ _).
  - left.
  - discriminate.
Defined.

(** X5: conversely every edge record of the file of version 1.0 joins the
    first input address of some transaction of the stream to another input
    address of the same transaction, the smaller address first; outputs
    never contribute an edge. *)
Theorem persisted_edge_origin host input o u v :
  Builder.main host input = Some o ->
  (u, v) ∈ tail (int_pairs host bswap32 (Builder.file o)) ->
  u < v /\
  exists line a rest,
    line ∈ getlines input /\ inputs line = Some (a :: rest) /\
    ((u = a /\ v ∈ rest) \/ (v = a /\ u ∈ rest)).
Proof.
  intros Hmain He. apply (persisted_edges _ _ _ Hmain) in He.
  apply list_elem_of_In, in_flat_map in He as (line & Hline & He).
  apply list_elem_of_In in He. pose proof He as Hs.
  apply BuilderEdges.line_edge_shape in Hs as (Hlt & _).
  apply BuilderEdges.elem_of_line_edges in He as (a & rest & b & Hi & Hb & Hne & He).
  split; [exact Hlt|]. exists line, a, rest.
  split; [now apply list_elem_of_In|]. split; [exact Hi|].
  destruct (BuilderEdges.minmax_cases a b) as [[_ E]|[_ E]];
    rewrite E in He; injection He as -> ->; auto.
Qed.

Lemma persisted_edge_origin_witness :
  exists o,
    Builder.main LittleEndian sample_stream = Some o /\ 3 < 7.
Proof.
  destruct (Builder.main LittleEndian sample_stream) as [o|] eqn:E;
    [|vm_compute in E; discriminate].
  exists o. split; [reflexivity|].
  refine (proj1 (persisted_edge_origin LittleEndian sample_stream o 3 7 E _)).
  vm_compute in E. injection E as <-. vm_compute. left.
Defined.

(** X6: in the graph that the file of version 1.0 describes, any two input
    addresses of one transaction are joined by a path of edge records. *)
Theorem inputs_connected host input o line ins x y :
  Builder.main host input = Some o ->
  line ∈ getlines input -> inputs line = Some ins ->
  x ∈ ins -> y ∈ ins ->
  Graph.connected (tail (int_pairs host bswap32 (Builder.file o))) x y.
Proof.
  intros Hmain Hline Hi Hx Hy.
  destruct ins as [|a rest]; [inversion Hx|].
  assert (forall z, z ∈ a :: rest ->
            Graph.connected (tail (int_pairs host bswap32 (Builder.file o))) a z)
    as Hstar.
  { intros z Hz. destruct (decide (z = a)) as [->|Hne]; [reflexivity|].
    apply elem_of_cons in Hz as [->|Hz]; [contradiction|].
    assert (Edge.minmax a z ∈ tail (int_pairs host bswap32 (Builder.file o)))
      as He.
    { apply (persisted_edges _ _ _ Hmain).
      apply list_elem_of_In, in_flat_map. exists line.
      split; [now apply list_elem_of_In|]. apply list_elem_of_In.
      apply BuilderEdges.elem_of_line_edges. eauto 10. }
    apply GraphFacts.connected_edge.
    destruct (BuilderEdges.minmax_cases a z) as [[_ E]|[_ E]]; rewrite E in He.
    - now left.
    - now right. }
  eapply GraphFacts.connected_trans; [|apply Hstar, Hy].
  apply GraphFacts.connected_sym, Hstar, Hx.
Qed.

Lemma inputs_connected_witness :
  exists o,
    Builder.main LittleEndian sample_stream = Some o /\
    Graph.connected (tail (int_pairs LittleEndian bswap32 (Builder.file o))) 7 5.
Proof.
  destruct (Builder.main LittleEndian sample_stream) as [o|] eqn:E;
    [|vm_compute in E; discriminate].
  exists o. split; [reflexivity|].
  refine (inputs_connected LittleEndian sample_stream o sample_line [5; 7; 5]
            7 5 E sample_line_in eq_refl _ _).
  - right. left.
  - left.
Defined.

End StarOfEdges.

Section FileLayout.
Import CString Tx Codec Input Samples EdgeFacts.

Lemma length_encode_edges host es :
  length (Builder.encode_edges host es) = (8 * length es)%nat.
Proof.
  induction es as [|e es IH]; [reflexivity|].
  cbn [Builder.encode_edges flat_map length].
  rewrite length_app, BuilderFacts.length_put_pair.
  unfold Builder.encode_edges in IH. rewrite IH. lia.
Qed.

(** X7: the file of version 1.0 is eight bytes of header and eight bytes
    for each edge record, and the edge count of the header is the number of
    records (as an [int]; exactly so below 2^31 records). *)
Theorem file_size_matches host input o :
  Builder.main host input = Some o ->
  length (Builder.file o)
    = (8 + 8 * length (tail (int_pairs host bswap32 (Builder.file o))))%nat /\
  Builder.num_edges o
    = Int32.wrap (Z.of_nat (length (tail (int_pairs host bswap32 (Builder.file o))))) /\
  (Z.of_nat (length (tail (int_pairs host bswap32 (Builder.file o))))
     <= Int32.INT_MAX ->
   Z.of_nat (length (Builder.file o)) = 8 + 8 * Builder.num_edges o).
Proof.
  intros Hmain.
  destruct (BuilderEdges.main_decodes _ _ _ Hmain)
    as (m & st & Hrun & _ & HM & Hd).
  destruct (BuilderFacts.main_spec _ _ _ Hmain)
    as (m' & st' & Hrun' & _ & _ & Hf).
  rewrite Hrun in Hrun'. injection Hrun' as <- <-.
  rewrite Hd. cbn [tail].
  assert (length (Builder.file o)
          = (8 + 8 * length (Builder.written_edges st))%nat) as Hlen.
  { rewrite Hf, length_app, BuilderFacts.length_put_pair, length_encode_edges.
    reflexivity. }
  split; [exact Hlen|]. split; [exact HM|].
  intros Hb. rewrite Hlen, HM, Int32Facts.wrap_id.
  - lia.
  - unfold Int32.in_range, Int32.INT_MIN, Int32.INT_MAX in *. lia.
Qed.

Lemma file_size_matches_witness :
  exists o,
    Builder.main LittleEndian sample_stream = Some o /\
    length (Builder.file o) = 24%nat.
Proof.
  destruct (Builder.main LittleEndian sample_stream) as [o|] eqn:E;
    [|vm_compute in E; discriminate].
  exists o. split; [reflexivity|].
  rewrite (proj1 (file_size_matches LittleEndian sample_stream o E)).
  vm_compute in E. injection E as <-. reflexivity.
Defined.

Lemma lt_le_neq (a b : Edge.t) : Edge.le a b -> a <> b -> Edge.lt a b.
Proof.
  destruct a as [a1 a2], b as [b1 b2]. unfold Edge.le, Edge.lt. cbn.
  intros H Hne.
  destruct (decide (a1 = b1)) as [->|]; [|lia].
  destruct (decide (a2 = b2)) as [->|]; [congruence|lia].
Qed.

Lemma sorted_unique_from es :
  StronglySorted Edge.le es ->
  forall prev, StronglySorted Edge.le (Builder.unique_from prev es).
Proof.
  induction 1 as [|e es Hs IH Hle]; intros prev; [constructor|].
  cbn [Builder.unique_from]. destruct (decide (prev = Some e)); [apply IH|].
  constructor; [apply IH|].
  rewrite Forall_forall in *. intros x Hx.
  apply Hle. eapply UniqueFacts.elem_of_unique_from, Hx.
Qed.

Lemma strictly_sorted (es : list Edge.t) :
  StronglySorted Edge.le es -> NoDup es -> StronglySorted Edge.lt es.
Proof.
  induction 1 as [|e es Hs IH Hle]; intros Hnd; [constructor|].
  apply NoDup_cons in Hnd as [He Hnd]. constructor; [now apply IH|].
  rewrite Forall_forall in *. intros x Hx. apply lt_le_neq; [now apply Hle|].
  intros ->. contradiction.
Qed.

(** X8: the edge records of the file of version 1.0 are in strictly
    ascending order of [std::pair]: by first node, then by second node. *)
Theorem records_ascending host input o :
  Builder.main host input = Some o ->
  StronglySorted Edge.lt (tail (int_pairs host bswap32 (Builder.file o))).
Proof.
  intros Hmain.
  destruct (BuilderEdges.main_decodes _ _ _ Hmain)
    as (m & st & _ & _ & _ & ->).
  cbn [tail]. apply strictly_sorted; [|apply UniqueFacts.NoDup_written].
  apply sorted_unique_from, StronglySorted_merge_sort; apply _.
Qed.

Lemma records_ascending_witness :
  exists o,
    Builder.main LittleEndian sample_stream = Some o /\
    StronglySorted Edge.lt (tail (int_pairs LittleEndian bswap32 (Builder.file o))).
Proof.
  destruct (Builder.main LittleEndian sample_stream) as [o|] eqn:E;
    [|vm_compute in E; discriminate].
  exists o. split; [reflexivity|].
  exact (records_ascending LittleEndian sample_stream o E).
Defined.

(** X9: the output of version 1.0 does not depend on the sorting algorithm:
    with any function that meets the contract of [std::sort] in the place
    of the sort, [main] returns the same file and the same counts. *)
Theorem sort_algorithm_irrelevant srt host input :
  Edge.is_std_sort srt ->
  Builder.main_with srt host input = Builder.main host input.
Proof.
  intros Hsrt. unfold Builder.main, Builder.main_with.
  destruct (Builder.process_lines _ _ _) as [[m st]|]; [|reflexivity].
  rewrite !Steps.bind_some.
  destruct (Hsrt (Builder.edges st)) as [Hs Hp].
  now rewrite (sort_unique _ _ Hs Hp).
Qed.

Lemma sort_algorithm_irrelevant_witness :
  Builder.main_with (fun l => Edge.sort (rev l)) BigEndian sample_stream
  = Builder.main BigEndian sample_stream.
Proof.
  apply sort_algorithm_irrelevant. intros l. split.
  - apply Sorted_merge_sort. apply _.
  - unfold Edge.sort. rewrite merge_sort_Permutation.
    symmetry. apply Permutation_rev.
Defined.

End FileLayout.

Section NodeCount.
Import CString Tx Codec Input Samples.

Lemma inputs_observed input line ins a :
  line ∈ getlines input -> inputs line = Some ins -> a ∈ ins ->
  a ∈ observed input.
Proof.
  intros Hline Hi Ha. unfold observed.
  apply list_elem_of_In, in_flat_map. exists line.
  split; [now apply list_elem_of_In|]. apply list_elem_of_In.
  unfold observed_in_line. rewrite Hi. cbn. apply elem_of_app. now left.
Qed.

(** X10: on a stream in which every inputs field is empty or holds an
    item, version 1.0 of the builder counts one node more than the largest
    address of the stream (one node for a stream without a positive
    address).  As long as that sum fits an [int], every address of the
    stream is smaller than the node count, and when no address is negative
    the two nodes of every edge record are identifiers [0 <= u < v < N]. *)
Theorem node_count_bounds host input o :
  Forall (fun l => has_first_input l = true) (getlines input) ->
  Builder.main host input = Some o ->
  Builder.max_with 0 (observed input) < Int32.INT_MAX ->
  Builder.num_nodes o = Builder.max_with 0 (observed input) + 1 /\
  1 <= Builder.num_nodes o /\
  (forall a, a ∈ observed input -> a < Builder.num_nodes o) /\
  (Forall (Z.le 0) (observed input) ->
   forall u v, (u, v) ∈ tail (int_pairs host bswap32 (Builder.file o)) ->
               0 <= u < v /\ v < Builder.num_nodes o).
Proof.
  intros Hreg Hmain Hb.
  destruct (BuilderFacts.main_spec _ _ _ Hmain) as (m & st & Hrun & HN & _).
  apply BuilderStream.process_lines_spec in Hrun as (_ & Hm); [|exact Hreg].
  cbn [Builder.max_id] in Hm.
  pose proof (BuilderRun.max_with_le 0 (observed input)) as H0.
  assert (Builder.num_nodes o = Builder.max_with 0 (observed input) + 1) as HN'.
  { rewrite HN, Hm. unfold Int32.add. apply Int32Facts.wrap_id.
    unfold Int32.in_range, Int32.INT_MIN, Int32.INT_MAX, observed in *. lia. }
  assert (forall a, a ∈ observed input -> a < Builder.num_nodes o) as Hlt.
  { intros a Ha. pose proof (BuilderRun.max_with_ge 0 _ _ Ha). lia. }
  split; [exact HN'|]. split; [lia|]. split; [exact Hlt|].
  intros Hpos u v He.
  apply (persisted_edges _ _ _ Hmain) in He.
  apply list_elem_of_In, in_flat_map in He as (line & Hline & He).
  apply list_elem_of_In in Hline, He.
  apply BuilderEdges.line_edge_shape in He
    as (Huv & _ & _ & ins & Hi & Hu & Hv). cbn [fst snd] in *.
  pose proof (inputs_observed _ _ _ _ Hline Hi Hu) as Hu'.
  pose proof (inputs_observed _ _ _ _ Hline Hi Hv) as Hv'.
  rewrite Forall_forall in Hpos. pose proof (Hpos u Hu'). pose proof (Hlt v Hv').
  lia.
Qed.

Lemma node_count_bounds_witness :
  exists o,
    Builder.main LittleEndian sample_stream = Some o /\
    Builder.num_nodes o = 10.
Proof.
  destruct (Builder.main LittleEndian sample_stream) as [o|] eqn:E;
    [|vm_compute in E; discriminate].
  exists o. split; [reflexivity|].
  rewrite (proj1 (node_count_bounds LittleEndian sample_stream o
                    ltac:(apply Steps.Forall_by_test; vm_compute; reflexivity)
                    E eq_refl)).
  reflexivity.
Defined.

End NodeCount.

Section ByteOrder.
Import Bytes Codec CString Input Samples.

(** X11: what the builders of versions 1.0 and 0.2 put in the file for a
    pair of [int]s is their image in the byte order opposite to that of the
    machine: big-endian on a little-endian machine, as the header comment of
    the builder says, and little-endian on a big-endian one. *)
Theorem written_in_opposite_order a b :
  Builder.put_pair LittleEndian a b
    = store_int BigEndian a ++ store_int BigEndian b /\
  Builder.put_pair BigEndian a b
    = store_int LittleEndian a ++ store_int LittleEndian b /\
  BuilderV02.put_pair LittleEndian a b
    = store_int BigEndian a ++ store_int BigEndian b.
Proof.
  unfold BuilderV02.put_pair, Builder.put_pair.
  rewrite !CodecFacts.store_bswap32.
  split; [reflexivity|]. split; [|reflexivity].
  unfold store_int. now rewrite !rev_involutive.
Qed.


(** X12: the version 0.1 analyzer, which does not swap, gets from a file of
    the version 1.0 builder every [int] with its bytes reversed: the node
    count, the edge count and both nodes of every edge record.  It builds
    its graph of these reversed numbers. *)
Theorem unswapped_read host input o :
  Builder.main host input = Some o ->
  int_pairs host (fun x => x) (Builder.file o) =
    (fun e => (bswap32 e.1, bswap32 e.2))
      <$> int_pairs host bswap32 (Builder.file o) /\
  AnalyzerV01.read_graph host (Builder.file o) =
    Lemon.build (bswap32 (Builder.num_nodes o)) (bswap32 (Builder.num_edges o))
      ((fun e => (bswap32 e.1, bswap32 e.2))
         <$> tail (int_pairs host bswap32 (Builder.file o))).
Proof.
  intros Hmain.
  destruct (BuilderEdges.main_decodes _ _ _ Hmain)
    as (m & st & Hrun & _ & _ & Hd).
  destruct (BuilderFacts.main_spec _ _ _ Hmain)
    as (m' & st' & Hrun' & _ & _ & Hf).
  rewrite Hrun in Hrun'. injection Hrun' as <- <-.
  rewrite Hd. cbn [tail fmap list_fmap fst snd].
  destruct (ReaderFacts.buf_put_pair_raw host (Builder.num_nodes o) (Builder.num_edges o))
    as [H0 H1].
  rewrite Hf, ReaderFacts.encode_edges_concat. split.
  - rewrite InputFacts.int_pairs_app by apply BuilderFacts.length_put_pair.
    rewrite H0, H1. f_equal.
    rewrite ReaderFacts.int_pairs_concat by apply ReaderFacts.swapped_blocks_length.
    apply ReaderFacts.raw_blocks.
  - unfold AnalyzerV01.read_graph.
    rewrite ReaderFacts.lemon_read_graph
      by auto using BuilderFacts.length_put_pair, ReaderFacts.swapped_blocks_length.
    now rewrite H0, H1, ReaderFacts.raw_blocks.
Qed.

Lemma unswapped_read_witness :
  exists o,
    Builder.main LittleEndian sample_stream = Some o /\
    int_pairs LittleEndian (fun x => x) (Builder.file o)
      = [(167772160, 33554432); (50331648, 117440512); (83886080, 117440512)].
Proof.
  destruct (Builder.main LittleEndian sample_stream) as [o|] eqn:E;
    [|vm_compute in E; discriminate].
  exists o. split; [reflexivity|].
  rewrite (proj1 (unswapped_read LittleEndian sample_stream o E)).
  vm_compute in E. injection E as <-. vm_compute. reflexivity.
Defined.

End ByteOrder.

Section AnalyzerInput.
Import Bytes Codec Input Samples.

Lemma lemon_read_graph_header decode host (n m body : list byte) :
  length n = 4%nat -> length m = 4%nat ->
  Lemon.read_graph decode host (n ++ m ++ body) =
    (_ ← Lemon.reserve (decode (load_int host n));
     _ ← Lemon.reserve (Int32.mul 2 (decode (load_int host m)));
     Lemon.read_edges decode host (read_blocks body)
       (Graph.mk (Z.to_nat (decode (load_int host n))) [])).
Proof.
  intros Hn Hm. unfold Lemon.read_graph.
  rewrite app_assoc.
  assert (length (n ++ m) = 8%nat) as H8 by (rewrite length_app; lia).
  rewrite InputFacts.read_blocks_app by exact H8.
  rewrite (Steps.full_block _ H8).
  now rewrite InputFacts.buf0_app, InputFacts.buf1_app by assumption.
Qed.

(** X13: [analyzer.cpp] uses the edge count of the header only to reserve
    memory: two files that differ in that field alone, with counts for which
    the reservation succeeds, give the same graph and the same output,
    however many edge records follow. *)
Theorem analyzer_ignores_edge_count NodeIt host (n m m' body : list byte) :
  length n = 4%nat -> length m = 4%nat -> length m' = 4%nat ->
  0 <= Int32.mul 2 (bswap32 (load_int host m)) ->
  0 <= Int32.mul 2 (bswap32 (load_int host m')) ->
  Analyzer.read_graph host (n ++ m ++ body)
    = Analyzer.read_graph host (n ++ m' ++ body) /\
  Analyzer.main NodeIt host (n ++ m ++ body)
    = Analyzer.main NodeIt host (n ++ m' ++ body).
Proof.
  intros Hn Hm Hm' HM HM'.
  assert (Analyzer.read_graph host (n ++ m ++ body)
          = Analyzer.read_graph host (n ++ m' ++ body)) as Heq.
  { unfold Analyzer.read_graph.
    rewrite !lemon_read_graph_header by assumption.
    destruct (Lemon.reserve (bswap32 (load_int host n))); [|reflexivity].
    rewrite !Steps.bind_some. unfold Lemon.reserve.
    destruct (Z.ltb_spec (Int32.mul 2 (bswap32 (load_int host m))) 0); [lia|].
    destruct (Z.ltb_spec (Int32.mul 2 (bswap32 (load_int host m'))) 0); [lia|].
    reflexivity. }
  split; [exact Heq|].
  unfold Analyzer.main, Lemon.main. unfold Analyzer.read_graph in Heq.
  now rewrite Heq.
Qed.

Lemma analyzer_ignores_edge_count_witness :
  Analyzer.read_graph LittleEndian
    (le_bytes 4 50331648 ++ le_bytes 4 33554432 ++ concat small_graph_records)
  = Analyzer.read_graph LittleEndian
    (le_bytes 4 50331648 ++ le_bytes 4 0 ++ concat small_graph_records).
Proof.
  refine (proj1 (analyzer_ignores_edge_count (fun n => seq 0 n) LittleEndian
            (le_bytes 4 50331648) (le_bytes 4 33554432) (le_bytes 4 0)
            (concat small_graph_records) eq_refl eq_refl eq_refl _ _));
    vm_compute; discriminate.
Defined.

Lemma read_blocks_short (t : list byte) :
  (0 < length t < 8)%nat -> read_blocks t = [t].
Proof.
  intros Ht. unfold read_blocks. destruct t as [|x t]; [cbn in Ht; lia|].
  cbn [length]. rewrite InputFacts.blocks_cons.
  rewrite take_ge by lia. rewrite drop_ge by lia.
  now destruct (length t).
Qed.

Lemma read_blocks_concat_app (bs : list (list byte)) (t : list byte) :
  Forall (fun b => length b = 8%nat) bs ->
  read_blocks (concat bs ++ t) = bs ++ read_blocks t.
Proof.
  induction 1 as [|b bs Hb _ IH]; [reflexivity|].
  cbn [concat app]. rewrite <- app_assoc.
  rewrite InputFacts.read_blocks_app by exact Hb. now rewrite IH.
Qed.

Lemma lemon_read_edges_short decode host (bs : list (list byte)) (t : list byte) :
  Forall (fun b => length b = 8%nat) bs -> (length t < 8)%nat ->
  forall g,
    Lemon.read_edges decode host (bs ++ read_blocks t) g
    = Lemon.read_edges decode host bs g.
Proof.
  intros Hbs Ht. induction Hbs as [|b bs Hb _ IH]; intros g.
  - cbn [app]. destruct t as [|x t]; [reflexivity|].
    rewrite read_blocks_short by (cbn [length] in *; lia).
    cbn [Lemon.read_edges].
    destruct (Nat.ltb_spec (length (x :: t)) 8); [reflexivity|lia].
  - cbn [app Lemon.read_edges]. rewrite (Steps.full_block _ Hb).
    destruct (Lemon.addEdge g _ _); [|reflexivity].
    rewrite !Steps.bind_some. apply IH.
Qed.

(** X14: the analyzers of versions 0.2 and 0.1 read whole edge records only:
    up to seven bytes left after the last whole record change nothing. *)
Theorem trailing_bytes_ignored host (hdr : list byte) (recs : list (list byte))
    (rest : list byte) :
  length hdr = 8%nat -> Forall (fun b => length b = 8%nat) recs ->
  (length rest < 8)%nat ->
  Analyzer.read_graph host (hdr ++ concat recs ++ rest)
    = Analyzer.read_graph host (hdr ++ concat recs) /\
  AnalyzerV01.read_graph host (hdr ++ concat recs ++ rest)
    = AnalyzerV01.read_graph host (hdr ++ concat recs).
Proof.
  intros Hh Hr Ht.
  assert (forall decode,
    Lemon.read_graph decode host (hdr ++ concat recs ++ rest)
    = Lemon.read_graph decode host (hdr ++ concat recs)) as H.
  { intros decode. unfold Lemon.read_graph.
    rewrite (InputFacts.read_blocks_app hdr (concat recs ++ rest) Hh).
    rewrite (InputFacts.read_blocks_app hdr (concat recs) Hh).
    rewrite read_blocks_concat_app, ReaderFacts.read_blocks_concat by exact Hr.
    rewrite (Steps.full_block _ Hh).
    destruct (Lemon.reserve _); [|reflexivity]. rewrite !Steps.bind_some.
    destruct (Lemon.reserve _); [|reflexivity]. rewrite !Steps.bind_some.
    now apply lemon_read_edges_short. }
  split; apply H.
Qed.

Lemma trailing_bytes_ignored_witness :
  Analyzer.read_graph LittleEndian
    (small_graph_header ++ concat small_graph_records ++ le_bytes 3 7)
  = Analyzer.read_graph LittleEndian
    (small_graph_header ++ concat small_graph_records).
Proof.
  refine (proj1 (trailing_bytes_ignored LittleEndian small_graph_header
            small_graph_records (le_bytes 3 7) eq_refl _ _)).
  - repeat constructor.
  - cbn. lia.
Defined.

End AnalyzerInput.

Section ClusteringInput.
Import Bytes Codec CString Tx Input Samples Clustering.


(** X15: [read_graph_binary] trusts the edge count of the header for the
    size of its vector and does not compare it with the file.  With more
    whole records in the file than the count says, a store goes past the end
    of the vector and there is no result; with fewer, the missing records
    stay zero in the vector and are added as edges from node 0 to node 0. *)
Theorem clustering_record_count host forced (hdr : list byte)
    (recs : list (list byte)) :
  length hdr = 8%nat -> Forall (fun b => length b = 8%nat) recs ->
  0 <= bswap32 (buf1 host hdr) < 2 ^ 30 ->
  (bswap32 (buf1 host hdr) < Z.of_nat (length recs) ->
   read_graph_binary host (hdr ++ concat recs) forced = None) /\
  (Z.of_nat (length recs) <= bswap32 (buf1 host hdr) ->
   read_graph_binary host (hdr ++ concat recs) forced =
     graph ← igraph_empty
               (if forced =? 0 then bswap32 (buf0 host hdr) else forced);
     igraph_add_edges graph
       (flatten ((fun b => (bswap32 (buf0 host b), bswap32 (buf1 host b))) <$> recs)
          ++ replicate (2 * (Z.to_nat (bswap32 (buf1 host hdr)) - length recs)) 0)).
Proof.
  intros Hh Hr HM.
  rewrite (ReaderFacts.clustering_read_graph host forced hdr recs Hh Hr).
  unfold build. set (M := bswap32 (buf1 host hdr)) in *.
  assert (Int32.mul 2 M = 2 * M) as ->.
  { apply Int32Facts.wrap_id.
    unfold Int32.in_range, Int32.INT_MIN, Int32.INT_MAX. lia. }
  unfold igraph_vector_int_init.
  destruct (Z.ltb_spec (2 * M) 0) as [|_]; [lia|].
  split; intros Hk; (destruct (igraph_empty _) as [g|]; [|reflexivity]);
    rewrite !Steps.bind_some.
  - rewrite ClusteringFacts.store_edges_overflow; [reflexivity|lia|].
    rewrite length_replicate, length_fmap. lia.
  - replace (replicate (Z.to_nat (2 * M)) 0)
      with ([] ++ replicate (2 * length recs) 0
               ++ replicate (2 * (Z.to_nat M - length recs)) 0).
    + rewrite (ClusteringFacts.store_edges_fill _ [])
        by now rewrite length_replicate, length_fmap.
      reflexivity.
    + cbn [app]. rewrite <- replicate_add. f_equal. lia.
Qed.

Lemma clustering_record_count_witness :
  read_graph_binary LittleEndian
    (Builder.put_pair LittleEndian 3 1 ++ concat small_graph_records) 0 = None.
Proof.
  refine (proj1 (clustering_record_count LittleEndian 0
            (Builder.put_pair LittleEndian 3 1) small_graph_records
            eq_refl _ _) _).
  - repeat constructor.
  - vm_compute. split; [discriminate|reflexivity].
  - vm_compute. reflexivity.
Defined.

Lemma edge_nodes_valid input m m' st :
  Builder.process_lines (getlines input) m (Builder.mkState 0 []) = Some (m', st) ->
  Forall (Z.le 0) (observed input) ->
  Forall (fun e => 0 <= e.1 <= Builder.max_with 0 (observed input) /\
                   0 <= e.2 <= Builder.max_with 0 (observed input))
         (Builder.written_edges st).
Proof.
  intros Hrun Hpos. rewrite Forall_forall in Hpos. apply Forall_forall.
  intros e He. apply UniqueFacts.elem_of_written in He.
  apply BuilderStream.process_lines_edges in Hrun as Hedges.
  rewrite Hedges in He. cbn [Builder.edges app] in He.
  apply list_elem_of_In, in_flat_map in He as (line & Hline & He).
  apply list_elem_of_In in Hline, He.
  apply BuilderEdges.line_edge_shape in He as (_ & _ & _ & ins & Hi & Hu & Hv).
  pose proof (inputs_observed _ _ _ _ Hline Hi Hu) as Hu'.
  pose proof (inputs_observed _ _ _ _ Hline Hi Hv) as Hv'.
  pose proof (BuilderRun.max_with_ge 0 _ _ Hu').
  pose proof (BuilderRun.max_with_ge 0 _ _ Hv').
  pose proof (Hpos _ Hu'). pose proof (Hpos _ Hv'). lia.
Qed.


(** The graph that the analyzers make of the file of version 1.0. *)
Lemma builder_file_graph host input o :
  Forall (fun l => has_first_input l = true) (getlines input) ->
  Builder.main host input = Some o ->
  Forall (Z.le 0) (observed input) ->
  Builder.max_with 0 (observed input) < Int32.INT_MAX ->
  Z.of_nat (length (tail (int_pairs host bswap32 (Builder.file o)))) < 2 ^ 30 ->
  read_graph_binary host (Builder.file o) 0 =
    Some (Graph.mk (Z.to_nat (Builder.num_nodes o))
            ((fun e => (Z.to_nat e.1, Z.to_nat e.2))
               <$> tail (int_pairs host bswap32 (Builder.file o)))) /\
  Analyzer.read_graph host (Builder.file o) =
    Some (Graph.mk (Z.to_nat (Builder.num_nodes o))
            ((fun e => (Z.to_nat e.1, Z.to_nat e.2))
               <$> tail (int_pairs host bswap32 (Builder.file o)))).
Proof.
  intros Hreg Hmain Hpos Hmax Hlen.
  destruct (BuilderEdges.main_decodes _ _ _ Hmain)
    as (m & st & Hrun & HN & HM & Hd).
  destruct (BuilderFacts.main_spec _ _ _ Hmain)
    as (m' & st' & Hrun' & _ & _ & Hf).
  rewrite Hrun in Hrun'. injection Hrun' as <- <-.
  rewrite Hd in *. cbn [tail] in *.
  set (es := Builder.written_edges st) in *.
  pose proof (BuilderRun.max_with_le 0 (observed input)) as H0.
  assert (Builder.num_nodes o = Builder.max_with 0 (observed input) + 1) as HN'.
  { apply BuilderStream.process_lines_spec in Hrun as (_ & Hm); [|exact Hreg].
    rewrite HN, Hm. unfold Int32.add. apply Int32Facts.wrap_id.
    unfold Int32.in_range, Int32.INT_MIN, Int32.INT_MAX, observed in *.
    cbn [Builder.max_id]. lia. }
  assert (Builder.num_edges o = Z.of_nat (length es)) as HM'.
  { rewrite HM. apply Int32Facts.wrap_id.
    unfold Int32.in_range, Int32.INT_MIN, Int32.INT_MAX. lia. }
  assert (Forall (fun e : Edge.t =>
            0 <= e.1 < Z.of_nat (Z.to_nat (Builder.num_nodes o)) /\
            0 <= e.2 < Z.of_nat (Z.to_nat (Builder.num_nodes o))) es) as Hvalid.
  { eapply Forall_impl; [exact (edge_nodes_valid _ _ _ _ Hrun Hpos)|].
    cbn. intros e. rewrite Z2Nat.id by lia. lia. }
  assert (Forall (fun e : Edge.t => Int32.in_range e.1 /\ Int32.in_range e.2) es)
    as Hr.
  { eapply Forall_impl; [exact (BuilderEdges.written_shape _ _ _ _ Hrun)|].
    cbn. tauto. }
  assert (Int32.in_range (Builder.num_nodes o)) as HNr
    by (rewrite HN; apply Int32Facts.wrap_in_range).
  assert (Int32.in_range (Builder.num_edges o)) as HMr
    by (rewrite HM; apply Int32Facts.wrap_in_range).
  destruct (InputFacts.buf_put_pair host _ _ HNr HMr) as [Hb0 Hb1].
  rewrite Hf, ReaderFacts.encode_edges_concat. split.
  - rewrite ReaderFacts.clustering_read_graph
      by auto using BuilderFacts.length_put_pair, ReaderFacts.swapped_blocks_length.
    rewrite Hb0, Hb1, ReaderFacts.decode_swapped_blocks by exact Hr.
    rewrite Z.eqb_refl. unfold build. rewrite HM'.
    assert (Int32.mul 2 (Z.of_nat (length es)) = 2 * Z.of_nat (length es)) as ->.
    { apply Int32Facts.wrap_id.
      unfold Int32.in_range, Int32.INT_MIN, Int32.INT_MAX. lia. }
    unfold igraph_empty, igraph_vector_int_init.
    destruct (Z.ltb_spec (Builder.num_nodes o) 0); [lia|].
    destruct (Z.ltb_spec (2 * Z.of_nat (length es)) 0); [lia|].
    rewrite !Steps.bind_some.
    replace (replicate (Z.to_nat (2 * Z.of_nat (length es))) 0)
      with ([] ++ replicate (2 * length es) 0 ++ [])
      by (cbn [app]; rewrite app_nil_r; f_equal; lia).
    rewrite (ClusteringFacts.store_edges_fill es []) by apply length_replicate.
    rewrite Steps.bind_some. cbn [app]. rewrite app_nil_r.
    unfold igraph_add_edges. cbn [Graph.vcount Graph.edge_list app].
    now rewrite ClusteringFacts.valid_flatten, ClusteringFacts.pairs_flatten.
  - unfold Analyzer.read_graph.
    rewrite ReaderFacts.lemon_read_graph
      by auto using BuilderFacts.length_put_pair, ReaderFacts.swapped_blocks_length.
    rewrite Hb0, Hb1, ReaderFacts.decode_swapped_blocks by exact Hr.
    unfold Lemon.build, Lemon.reserve. rewrite HM'.
    assert (Int32.mul 2 (Z.of_nat (length es)) = 2 * Z.of_nat (length es)) as ->.
    { apply Int32Facts.wrap_id.
      unfold Int32.in_range, Int32.INT_MIN, Int32.INT_MAX. lia. }
    destruct (Z.ltb_spec (Builder.num_nodes o) 0); [lia|].
    destruct (Z.ltb_spec (2 * Z.of_nat (length es)) 0); [lia|].
    rewrite !Steps.bind_some. now rewrite ClusteringFacts.lemon_add_edges.
Qed.

(** Without the condition on the inputs fields the file need not be
    accepted: the amount 2147483647, read as a first address, makes the
    node count wrap to a negative number, and [read_graph_binary] has no
    graph for it. *)
Lemma stale_count_rejected :
  exists o,
    Builder.main LittleEndian stale_large_stream = Some o /\
    Builder.num_nodes o = -2147483648 /\
    Builder.max_with 0 (observed stale_large_stream) = 3 /\
    read_graph_binary LittleEndian (Builder.file o) 0 = None.
Proof.
  destruct (Builder.main LittleEndian stale_large_stream) as [o|] eqn:E;
    [|vm_compute in E; discriminate].
  exists o. split; [reflexivity|].
  vm_compute in E. injection E as <-. repeat split; vm_compute; reflexivity.
Qed.

(** X16: the analyzers accept what version 1.0 of the builder writes.  For
    a stream in which every inputs field is empty or holds an item, without
    a negative address, whose largest address is below 2^31 - 1 and that
    gives fewer than 2^30 edge records, [clustering.cpp] and [analyzer.cpp]
    both build, from the file, the graph with the node count of the header
    and exactly the edge records of the file, in the order of the file. *)
Theorem analyzers_accept_builder_file host input o :
  Forall (fun l => has_first_input l = true) (getlines input) ->
  Builder.main host input = Some o ->
  Forall (Z.le 0) (observed input) ->
  Builder.max_with 0 (observed input) < Int32.INT_MAX ->
  Z.of_nat (length (tail (int_pairs host bswap32 (Builder.file o)))) < 2 ^ 30 ->
  read_graph_binary host (Builder.file o) 0 =
    Some (Graph.mk (Z.to_nat (Builder.num_nodes o))
            ((fun e => (Z.to_nat e.1, Z.to_nat e.2))
               <$> tail (int_pairs host bswap32 (Builder.file o)))) /\
  Analyzer.read_graph host (Builder.file o) =
    Some (Graph.mk (Z.to_nat (Builder.num_nodes o))
            ((fun e => (Z.to_nat e.1, Z.to_nat e.2))
               <$> tail (int_pairs host bswap32 (Builder.file o)))).
Proof. exact (builder_file_graph host input o). Qed.

Lemma analyzers_accept_builder_file_witness :
  exists o,
    Builder.main LittleEndian sample_stream = Some o /\
    read_graph_binary LittleEndian (Builder.file o) 0
      = Some (Graph.mk 10 [(3, 7); (5, 7)]%nat).
Proof.
  destruct (Builder.main LittleEndian sample_stream) as [o|] eqn:E;
    [|vm_compute in E; discriminate].
  exists o. split; [reflexivity|].
  rewrite (proj1 (analyzers_accept_builder_file LittleEndian sample_stream o
                    ltac:(apply Steps.Forall_by_test; vm_compute; reflexivity) E
                    ltac:(vm_compute; repeat constructor; discriminate)
                    eq_refl
                    ltac:(vm_compute in E; injection E as <-; reflexivity))).
  vm_compute in E. injection E as <-. reflexivity.
Defined.

End ClusteringInput.

Section NodeMap.
Import Bytes Codec CString Tx Input Samples BuilderV02 NumberingFacts EdgeFacts.

(** X17: in version 0.2 the value -1 that [contains_node] returns for a
    missing address is never a node identifier: after a run on a stream with
    at most 2^31 - 1 distinct addresses, [contains_node] returns -1 exactly
    for the addresses that the stream does not hold. *)
Theorem sentinel_means_absent host input o a :
  main host input = Some o ->
  Z.of_nat (length (first_occurrences (processing_order input)))
    <= Int32.INT_MAX ->
  contains_node (nodes (final o)) a = -1 <-> a ∉ observed input.
Proof.
  intros Hmain Hb.
  destruct (BuilderV02Facts.v02_main_spec _ _ _ Hmain) as (Hrun & _).
  destruct (BuilderV02Lines.run_spec _ _ Hrun Hb) as (Hn & _).
  assert (Forall (fun l => parses l = true) (getlines input)) as Hall
    by (eapply BuilderV02Lines.process_lines_parses; eauto).
  assert (a ∈ observed input
          <-> a ∈ first_occurrences (processing_order input)) as ->.
  { rewrite elem_of_first_occurrences.
    apply observed_processing_order, Hall. }
  destruct (decide (a ∈ first_occurrences (processing_order input)))
    as [Hin|Hnin].
  - destruct (BuilderV02Run.contains_known _ _ _ Hn Hin) as (i & Hi & -> & Hne).
    apply Z.eqb_neq in Hne. tauto.
  - destruct (BuilderV02Run.contains_new _ _ _ Hn Hnin) as (_ & ->). tauto.
Qed.

Lemma sentinel_means_absent_witness :
  exists o,
    main LittleEndian sample_stream = Some o /\
    contains_node (nodes (final o)) 4 = -1.
Proof.
  destruct (main LittleEndian sample_stream) as [o|] eqn:E;
    [|vm_compute in E; discriminate].
  exists o. split; [reflexivity|].
  apply (sentinel_means_absent LittleEndian sample_stream o 4 E).
  - vm_compute. discriminate.
  - vm_compute. intros H.
    repeat (apply elem_of_cons in H as [H|H]; [discriminate|]). inversion H.
Defined.

Lemma sorted_set_iter (s : gset Edge.t) : StronglySorted Edge.lt (edge_set_iter s).
Proof.
  apply strictly_sorted; [|apply BuilderV02Facts.NoDup_edge_set_iter].
  apply StronglySorted_merge_sort; apply _.
Qed.

(** X18: the file of version 0.2, for a stream with at most 2^31 - 1
    distinct addresses: the node count is the size of the node map, the edge
    records are the edge set in strictly ascending order, both nodes of
    every record are identifiers below the node count, and the file is eight
    bytes of header and eight bytes for each record. *)
Theorem v02_file_layout host input o :
  main host input = Some o ->
  Z.of_nat (length (first_occurrences (processing_order input)))
    <= Int32.INT_MAX ->
  num_nodes o = Z.of_nat (size (nodes (final o))) /\
  tail (int_pairs host bswap32 (file o)) = edge_set_iter (edges (final o)) /\
  StronglySorted Edge.lt (tail (int_pairs host bswap32 (file o))) /\
  Forall (fun e => 0 <= e.1 < num_nodes o /\ 0 <= e.2 < num_nodes o)
         (tail (int_pairs host bswap32 (file o))) /\
  length (file o) = (8 + 8 * size (edges (final o)))%nat.
Proof.
  intros Hmain Hb.
  destruct (BuilderV02Facts.v02_main_spec _ _ _ Hmain) as (Hrun & HN & HM & Hf).
  destruct (BuilderV02Lines.run_spec _ _ Hrun Hb) as (Hn & He).
  destruct (v02_main_decodes _ _ _ Hmain Hb) as (Hd & _).
  destruct (BuilderV02Facts.edges_simple _ _ Hn He) as (_ & Hrange).
  pose proof (numbers_size _ _ Hn) as Hsize.
  assert (num_nodes o = Z.of_nat (size (nodes (final o)))) as HN'.
  { rewrite HN. apply Int32Facts.wrap_id. rewrite Hsize.
    unfold Int32.in_range, Int32.INT_MIN, Int32.INT_MAX in *. lia. }
  assert (id_count (final o) = num_nodes o) as Hc.
  { rewrite HN', Hsize. apply Hn. }
  rewrite Hd. cbn [tail].
  split; [exact HN'|]. split; [reflexivity|]. split; [apply sorted_set_iter|].
  split.
  - now rewrite <- Hc.
  - rewrite Hf. unfold put_pair.
    rewrite length_app, BuilderFacts.length_put_pair, length_encode_edges.
    now rewrite BuilderV02Facts.length_edge_set_iter.
Qed.

Lemma v02_file_layout_witness :
  exists o,
    main BigEndian sample_stream = Some o /\
    tail (int_pairs BigEndian bswap32 (file o)) = [(0, 1); (3, 1)].
Proof.
  destruct (main BigEndian sample_stream) as [o|] eqn:E;
    [|vm_compute in E; discriminate].
  exists o. split; [reflexivity|].
  destruct (v02_file_layout BigEndian sample_stream o E) as (_ & -> & _).
  - vm_compute. discriminate.
  - vm_compute in E. injection E as <-. vm_compute. reflexivity.
Defined.

Lemma add_node_keeps_keys a st b :
  is_Some (nodes (add_node a st) !! b) <-> b = a \/ is_Some (nodes st !! b).
Proof.
  cbn [add_node nodes]. rewrite lookup_insert_is_Some'.
  split; intros [H|H]; auto.
Qed.

(** X19: [process_outputs] of version 0.2 adds no edge, and afterwards the
    node map holds exactly the addresses it held before and the addresses of
    the outputs: an address that occurs only as an output becomes a node
    without edges. *)
Theorem outputs_add_nodes_only outputs st st' :
  process_outputs outputs st = Some st' ->
  edges st' = edges st /\
  exists outs,
    addresses_of (tokens ";"%char outputs) = Some outs /\
    forall a, is_Some (nodes st' !! a) <-> a ∈ outs \/ is_Some (nodes st !! a).
Proof.
  unfold process_outputs. generalize (tokens ";"%char outputs) as items.
  intros items. revert st. induction items as [|it items IH]; intros st H.
  - injection H as <-. split; [reflexivity|]. exists []. split; [reflexivity|].
    intros a. split; [auto|]. intros [Ha|Ha]; [inversion Ha|exact Ha].
  - cbn [process_outputs_loop addresses_of] in *.
    destruct (address_of it) as [b|]; [|discriminate].
    rewrite Steps.bind_some in *.
    destruct (IH _ H) as (He & outs & Ho & Hk). rewrite Ho.
    split.
    + rewrite He. now destruct (contains_node (nodes st) b =? -1).
    + exists (b :: outs). split; [reflexivity|]. intros a.
      rewrite Hk, elem_of_cons.
      destruct (contains_node (nodes st) b =? -1) eqn:E.
      * rewrite add_node_keeps_keys. tauto.
      * split; [tauto|]. intros [[->|Ha]|Ha]; auto.
        right. unfold contains_node in E.
        destruct (nodes st !! b); [eauto|discriminate].
Qed.

Lemma outputs_add_nodes_only_witness :
  exists st',
    process_outputs (txt "9,1;4,2") initial = Some st' /\ edges st' = ∅.
Proof.
  destruct (process_outputs (txt "9,1;4,2") initial) as [st'|] eqn:E;
    [|vm_compute in E; discriminate].
  exists st'. split; [reflexivity|].
  exact (proj1 (outputs_add_nodes_only _ _ _ E)).
Defined.

End NodeMap.

Section Split.
Import CString StringUtil.

Lemma find_first_of_drop d s : forall pos,
  (pos <= length s)%nat ->
  find_first_of d s pos = (fun i => (pos + i)%nat) <$> find_first_of d (drop pos s) 0.
Proof.
  induction s as [|c s IH]; intros pos Hp.
  - destruct pos; [reflexivity|cbn in Hp; lia].
  - destruct pos as [|pos].
    + cbn [drop Nat.add]. now destruct (find_first_of d (c :: s) 0).
    + cbn [find_first_of drop]. rewrite IH by (cbn in Hp; lia).
      now destruct (find_first_of d (drop pos s) 0).
Qed.

Lemma fields_no_delimiter d t :
  find_first_of d t 0 = None -> fields d t = [t].
Proof.
  induction t as [|c t IH]; [reflexivity|].
  cbn [find_first_of fields]. destruct (is_char d c); [discriminate|].
  destruct (find_first_of d t 0); [discriminate|]. intros _.
  now rewrite IH.
Qed.

Lemma fields_at_delimiter d t : forall i,
  find_first_of d t 0 = Some i ->
  (i < length t)%nat /\ fields d t = take i t :: fields d (drop (S i) t).
Proof.
  induction t as [|c t IH]; intros i H; [discriminate|].
  cbn [find_first_of fields] in *. destruct (is_char d c).
  - injection H as <-. cbn. split; [lia|reflexivity].
  - destruct (find_first_of d t 0) as [j|]; [|discriminate].
    injection H as <-. destruct (IH j eq_refl) as [Hj ->].
    cbn. split; [lia|reflexivity].
Qed.

(** The loop yields the fields of the rest of the string. *)
Lemma split_loop_fields d s : forall fuel start output,
  (start <= length s)%nat -> (length s - start < fuel)%nat ->
  split_loop fuel s d start (find_first_of d s start) output
    = output ++ fields d (drop start s).
Proof.
  induction fuel as [|fuel IH]; intros start output Hs Hf; [lia|].
  cbn [split_loop]. rewrite (find_first_of_drop d s start Hs).
  destruct (find_first_of d (drop start s) 0) as [i|] eqn:E; cbn [fmap option_fmap option_map].
  - destruct (fields_at_delimiter _ _ _ E) as [Hi ->].
    rewrite length_drop in Hi.
    rewrite IH by lia. cbn [substr].
    replace (start + i - start)%nat with i by lia.
    rewrite drop_drop. replace (start + S i)%nat with (start + i + 1)%nat by lia.
    now rewrite <- app_assoc.
  - cbn [substr]. now rewrite (fields_no_delimiter _ _ E).
Qed.

Lemma split_fields s d : split s d = fields d s.
Proof.
  unfold split. rewrite split_loop_fields by lia. reflexivity.
Qed.

Lemma fields_nonempty d s : fields d s <> [].
Proof.
  destruct s as [|c s]; [discriminate|]. cbn [fields].
  destruct (is_char d c); [discriminate|]. now destruct (fields d s).
Qed.

Lemma join_fields d s : join d (fields d s) = s.
Proof.
  induction s as [|c s IH]; [reflexivity|]. cbn [fields].
  pose proof (fields_nonempty d s) as Hne. unfold is_char.
  destruct (Ascii.eqb_spec c d) as [->|_].
  - destruct (fields d s) as [|f fs]; [contradiction|].
    cbn [join app]. cbn [join] in IH. now rewrite IH.
  - destruct (fields d s) as [|f fs]; [contradiction|].
    destruct fs as [|g fs]; cbn [join app] in *; now rewrite IH.
Qed.

Lemma fields_free d s : Forall (fun f => d ∉ f) (fields d s).
Proof.
  induction s as [|c s IH]; [repeat constructor; inversion 1|].
  cbn [fields]. unfold is_char. destruct (Ascii.eqb_spec c d) as [->|Hne].
  - constructor; [inversion 1|exact IH].
  - destruct (fields d s) as [|f fs]; [repeat constructor|].
    + intros H. apply elem_of_cons in H as [->|H]; [contradiction|inversion H].
    + inversion IH as [|? ? Hf Hfs]; subst. constructor; [|exact Hfs].
      intros H. apply elem_of_cons in H as [->|H]; contradiction.
Qed.

Lemma length_fields d s : length (fields d s) = S (count_char d s).
Proof.
  unfold count_char. induction s as [|c s IH]; [reflexivity|].
  cbn [fields List.filter]. pose proof (fields_nonempty d s) as Hne.
  destruct (is_char d c); cbn [length].
  - now rewrite IH.
  - destruct (fields d s) as [|f fs]; [contradiction|]. exact IH.
Qed.

(** X20: [split] of [string.h] cuts a string at every occurrence of the
    delimiter and nowhere else: no token holds the delimiter, the tokens
    joined by the delimiter are the string again, and there is one token
    more than there are delimiters (so at least one token, empty tokens
    included). *)
Theorem split_spec s d :
  join d (split s d) = s /\
  Forall (fun token => d ∉ token) (split s d) /\
  length (split s d) = S (count_char d s).
Proof.
  rewrite split_fields.
  split; [apply join_fields|]. split; [apply fields_free|apply length_fields].
Qed.

End Split.

Section HalfRecord.
Import Bytes Codec Input Samples Clustering.

Lemma last_cons {A} (b : A) (l : list A) (d : A) :
  List.last (b :: l) d = List.last l b.
Proof.
  revert b d. induction l as [|c l IH]; intros b d; [reflexivity|].
  change (List.last (b :: c :: l) d) with (List.last (c :: l) d).
  now rewrite !IH.
Qed.

Lemma read_edges_half host (recs : list (list byte)) (t : list byte) :
  Forall (fun b => length b = 8%nat) recs -> length t = 4%nat ->
  forall buf i edges,
    length buf = 8%nat ->
    read_edges host (recs ++ [t]) buf i edges =
      store_edges
        (((fun b => (bswap32 (buf0 host b), bswap32 (buf1 host b))) <$> recs)
           ++ [(bswap32 (load_int host t),
                bswap32 (buf1 host (List.last recs buf)))])
        i edges.
Proof.
  intros Hr Ht. induction Hr as [|b recs Hb _ IH]; intros buf i edges Hbuf.
  - cbn [app read_edges store_edges fmap list_fmap List.last]. rewrite Ht.
    change (4 <? 4)%nat with false. cbv iota.
    rewrite InputFacts.buf0_app by exact Ht.
    assert (buf1 host (t ++ drop 4 buf) = buf1 host buf) as ->.
    { unfold buf1. now rewrite drop_app_length' by (symmetry; exact Ht). }
    reflexivity.
  - cbn [app read_edges store_edges fmap list_fmap].
    rewrite (Steps.whole_int _ Hb), Hb.
    rewrite (drop_ge buf 8) by lia. rewrite app_nil_r.
    destruct (S i <? length edges)%nat; [|reflexivity].
    rewrite IH by exact Hb. now rewrite last_cons.
Qed.

(** X21: [read_graph_binary] takes a file that ends in half a record (four
    bytes after the last whole record) as holding one more edge: its first
    node is read from the four bytes, its second node is the second [int]
    left in the buffer by the read before, that is the second node of the
    last whole record, or the edge count when there is none. *)
Theorem half_record_is_an_edge host forced (hdr : list byte)
    (recs : list (list byte)) (t : list byte) :
  length hdr = 8%nat -> Forall (fun b => length b = 8%nat) recs ->
  length t = 4%nat ->
  read_graph_binary host (hdr ++ concat recs ++ t) forced =
    build (if forced =? 0 then bswap32 (buf0 host hdr) else forced)
      (bswap32 (buf1 host hdr))
      (((fun b => (bswap32 (buf0 host b), bswap32 (buf1 host b))) <$> recs)
         ++ [(bswap32 (load_int host t),
              bswap32 (buf1 host (List.last recs hdr)))]).
Proof.
  intros Hh Hr Ht. unfold read_graph_binary, build.
  rewrite (InputFacts.read_blocks_app hdr _ Hh).
  rewrite read_blocks_concat_app by exact Hr.
  rewrite read_blocks_short by lia.
  rewrite (Steps.full_block _ Hh).
  destruct (igraph_empty _); [|reflexivity]. rewrite !Steps.bind_some.
  destruct (igraph_vector_int_init _); [|reflexivity]. rewrite !Steps.bind_some.
  now rewrite read_edges_half.
Qed.

Lemma half_record_is_an_edge_witness :
  read_graph_binary LittleEndian
    (small_graph_header ++ concat small_graph_records ++ le_bytes 4 0) 0
  = build 3 2 [(0, 1); (1, 2); (0, 2)].
Proof.
  rewrite (half_record_is_an_edge LittleEndian 0 small_graph_header
             small_graph_records (le_bytes 4 0) eq_refl
             ltac:(repeat constructor) eq_refl).
  reflexivity.
Defined.

End HalfRecord.

Section PathOfEdges.
Import Bytes Codec CString Tx Input Samples BuilderV02 NumberingFacts.

Lemma path_loop_keeps_edges addrs : forall prev st e,
  e ∈ edges st -> e ∈ edges (path_loop addrs prev st).
Proof.
  induction addrs as [|a addrs IH]; intros prev st e He; [exact He|].
  cbn [path_loop]. apply IH.
  destruct (prev =? -1), (contains_node (nodes st) a =? -1);
    cbn [add_edge add_node edges]; try exact He; apply elem_of_union; now right.
Qed.

Lemma outputs_loop_keeps_edges items : forall st st',
  process_outputs_loop items st = Some st' -> edges st' = edges st.
Proof.
  induction items as [|it items IH]; intros st st' H.
  - now injection H as <-.
  - cbn [process_outputs_loop] in H.
    destruct (address_of it) as [b|]; [|discriminate].
    rewrite Steps.bind_some in H. rewrite (IH _ _ H).
    now destruct (contains_node (nodes st) b =? -1).
Qed.

Lemma numbers_mono st seen st' seen' a i :
  numbers st seen -> numbers st' seen' -> seen `prefix_of` seen' ->
  nodes st !! a = Some i -> nodes st' !! a = Some i.
Proof.
  intros Hn Hn' Hp Hi. apply Hn'. apply Hn in Hi as [H0 Hi].
  split; [exact H0|]. eapply prefix_lookup_Some; eauto.
Qed.

(** One turn of the lookup in the path loop. *)
Lemma lookup_step st seen a :
  numbers st seen -> edges_ascend st ->
  Z.of_nat (length (note seen a)) <= Int32.INT_MAX ->
  exists st1 curr_id,
    (if contains_node (nodes st) a =? -1 then add_node a st else st) = st1 /\
    (if contains_node (nodes st) a =? -1 then id_count st
     else contains_node (nodes st) a) = curr_id /\
    numbers st1 (note seen a) /\ edges_ascend st1 /\
    nodes st1 !! a = Some curr_id /\ curr_id <> -1 /\
    edges st1 = edges st /\
    (forall b i, nodes st !! b = Some i -> nodes st1 !! b = Some i).
Proof.
  intros Hn He Hb. destruct (decide (a ∈ seen)) as [Hin|Hnin].
  - rewrite (BuilderV02Run.note_in _ _ Hin) in *.
    destruct (BuilderV02Run.contains_known _ _ _ Hn Hin) as (i & Hi & -> & Hneq).
    rewrite Hneq. exists st, i. split_and!; auto.
    apply Z.eqb_neq. exact Hneq.
  - rewrite (BuilderV02Run.note_notin _ _ Hnin) in *.
    destruct (BuilderV02Run.contains_new _ _ _ Hn Hnin) as (Hnone & ->).
    cbn [Z.eqb Pos.eqb]. exists (add_node a st), (id_count st).
    assert (Z.of_nat (length seen) < Int32.INT_MAX) as Hlt'.
    { rewrite length_app in Hb. cbn in Hb. lia. }
    split_and!; eauto using BuilderV02Run.numbers_add_node,
      BuilderV02Run.edges_ascend_add_node, BuilderV02Run.add_node_extends.
    + cbn [add_node nodes]. apply lookup_insert_eq.
    + destruct Hn as (_ & -> & _). lia.
Qed.

(** The path loop joins the previous node to the first address and every
    address to the next one. *)
Lemma path_loop_links addrs : forall prev st seen,
  numbers st seen -> edges_ascend st ->
  StronglySorted Z.lt addrs ->
  (prev = -1 \/
   exists pa, nodes st !! pa = Some prev /\ Forall (Z.lt pa) addrs) ->
  Z.of_nat (length (foldl note seen addrs)) <= Int32.INT_MAX ->
  (forall a, prev <> -1 -> head addrs = Some a ->
     exists v, nodes (path_loop addrs prev st) !! a = Some v /\
               (prev, v) ∈ edges (path_loop addrs prev st)) /\
  (forall i a b, addrs !! i = Some a -> addrs !! S i = Some b ->
     exists u v, nodes (path_loop addrs prev st) !! a = Some u /\
                 nodes (path_loop addrs prev st) !! b = Some v /\
                 (u, v) ∈ edges (path_loop addrs prev st)).
Proof.
  induction addrs as [|a addrs IH]; intros prev st seen Hn He Hs Hp Hb.
  - split; [intros a _ [=]|intros i a b [=]].
  - inversion Hs as [|? ? Hs' Hlt]; subst. cbn [foldl] in Hb.
    pose proof (length_foldl_note addrs (note seen a)) as Hmono.
    destruct (lookup_step st seen a Hn He ltac:(lia))
      as (st1 & curr_id & E1 & E2 & Hn1 & He1 & Ha1 & Hc1 & Hedges1 & Hext).
    cbn [path_loop]. rewrite E1, E2.
    set (st2 := if prev =? -1 then st1 else add_edge (prev, curr_id) st1).
    assert (numbers st2 (note seen a)) as Hn2
      by (subst st2; destruct (prev =? -1); exact Hn1).
    assert (nodes st2 !! a = Some curr_id) as Ha2
      by (subst st2; destruct (prev =? -1); exact Ha1).
    assert (edges_ascend st2) as He2.
    { subst st2. destruct (Z.eqb_spec prev (-1)) as [->|Hprev]; [exact He1|].
      destruct Hp as [Hp|(pa & Hpa & Hfa)]; [contradiction|].
      intros u v Huv. cbn [add_edge edges nodes] in *.
      apply elem_of_union in Huv as [Huv|Huv]; [|now apply He1].
      apply elem_of_singleton in Huv as [= -> ->].
      exists pa, a. inversion Hfa; subst. auto. }
    destruct (BuilderV02Run.path_loop_spec addrs curr_id st2 (note seen a)
                Hn2 He2 Hs') as (Hn' & _); [right; eauto|exact Hb|].
    destruct (IH curr_id st2 (note seen a) Hn2 He2 Hs') as (Hhead & Hnext);
      [right; eauto|exact Hb|].
    assert (nodes (path_loop addrs curr_id st2) !! a = Some curr_id) as Ha'.
    { eapply numbers_mono; [exact Hn2|exact Hn'|apply foldl_note_prefix|exact Ha2]. }
    split.
    + intros a0 Hprev [= <-]. exists curr_id. split; [exact Ha'|].
      apply path_loop_keeps_edges. subst st2.
      destruct (Z.eqb_spec prev (-1)); [contradiction|].
      cbn [add_edge edges]. apply elem_of_union. left. now apply elem_of_singleton.
    + intros [|i] x y Hx Hy.
      * injection Hx as <-. cbn in Hy.
        destruct (Hhead y Hc1) as (v & Hv & Hev); [now destruct addrs|].
        exists curr_id, v. auto.
      * cbn in Hx, Hy. eauto.
Qed.

(** The edges after a line are those of the path loop over its inputs. *)
Lemma v02_line_edges line st st' ins :
  process_line line st = Some st' -> inputs line = Some ins ->
  edges st' = edges (path_loop (set_int_iter (list_to_set ins)) (-1) st).
Proof.
  unfold process_line, inputs, field. intros H Hi.
  assert (match fields ":"%char (cstr line) !! 1%nat with
          | Some (c :: s) => process_inputs (c :: s) st
          | _ => Some st
          end = Some (path_loop (set_int_iter (list_to_set ins)) (-1) st)) as E.
  { destruct (fields ":"%char (cstr line) !! 1%nat) as [[|c s]|];
      cbn [default from_option id] in Hi.
    - now injection Hi as <-.
    - unfold process_inputs. rewrite BuilderV02Lines.input_addresses_spec, Hi.
      rewrite Steps.bind_some. now rewrite (right_id_L ∅ (∪)).
    - now injection Hi as <-. }
  rewrite E, Steps.bind_some in H.
  destruct (fields ":"%char (cstr line) !! 2%nat) as [[|c s]|].
  - now injection H as <-.
  - now apply outputs_loop_keeps_edges in H.
  - now injection H as <-.
Qed.

Lemma v02_lines_keep_edges lines : forall st st' e,
  process_lines lines st = Some st' -> e ∈ edges st -> e ∈ edges st'.
Proof.
  induction lines as [|l lines IH]; intros st st' e H He.
  - now injection H as <-.
  - cbn [process_lines] in H.
    destruct (process_line l st) as [st1|] eqn:E1; [|discriminate].
    rewrite Steps.bind_some in H. apply (IH _ _ _ H).
    assert (parses l = true) as Hp
      by (eapply BuilderV02Lines.process_line_parses; eauto).
    destruct (BuilderV02Lines.line_order_parsed _ Hp) as (ins & _ & Hi & _).
    rewrite (v02_line_edges _ _ _ _ E1 Hi). now apply path_loop_keeps_edges.
Qed.

(** In the final state, consecutive distinct input addresses of a line, in
    ascending order, are joined by an edge of the edge set. *)
Lemma v02_links host input o line ins i a b :
  main host input = Some o ->
  Z.of_nat (length (first_occurrences (processing_order input)))
    <= Int32.INT_MAX ->
  line ∈ getlines input -> inputs line = Some ins ->
  set_int_iter (list_to_set ins) !! i = Some a ->
  set_int_iter (list_to_set ins) !! S i = Some b ->
  exists u v, nodes (final o) !! a = Some u /\ nodes (final o) !! b = Some v /\
              (u, v) ∈ edges (final o).
Proof.
  intros Hmain Hb Hline Hi Ha Hbb.
  destruct (BuilderV02Facts.v02_main_spec _ _ _ Hmain) as (Hrun & _).
  destruct (BuilderV02Lines.run_spec _ _ Hrun Hb) as (Hnf & _).
  assert (Forall (fun l => parses l = true) (getlines input)) as Hall
    by (eapply BuilderV02Lines.process_lines_parses; eauto).
  unfold processing_order in *.
  apply list_elem_of_split in Hline as (l1 & l2 & Hsplit).
  rewrite Hsplit in *.
  destruct (process_lines_app _ _ _ _ Hrun) as (sta & Hra & Hrb).
  cbn [process_lines] in Hrb.
  destruct (process_line line sta) as [stb|] eqn:Eb; [|discriminate].
  rewrite Steps.bind_some in Hrb.
  apply Forall_app in Hall as [Hall1 Hall2].
  inversion Hall2 as [|? ? Hp _]; subst.
  destruct (BuilderV02Lines.line_order_parsed _ Hp) as (ins' & outs & Hi' & _ & Hlo).
  rewrite Hi in Hi'. injection Hi' as <-.
  rewrite flat_map_app in *. cbn [flat_map] in *. rewrite Hlo in *.
  rewrite !first_occurrences_app, !foldl_app in *.
  set (seena := first_occurrences (flat_map line_order l1)) in *.
  set (sorted := set_int_iter (list_to_set ins)) in *.
  pose proof (length_foldl_note (flat_map line_order l2)
                (foldl note (foldl note seena sorted) outs)) as M1.
  pose proof (length_foldl_note outs (foldl note seena sorted)) as M2.
  pose proof (length_foldl_note sorted seena) as M3.
  destruct (BuilderV02Lines.v02_process_lines_spec l1 initial [] Hall1
              BuilderV02Lines.numbers_initial
              BuilderV02Lines.edges_ascend_initial) as (sta' & E & Hna & Hea).
  { fold (first_occurrences (flat_map line_order l1)). fold seena. lia. }
  rewrite Hra in E. injection E as <-.
  fold (first_occurrences (flat_map line_order l1)) in Hna. fold seena in Hna.
  destruct (BuilderV02Run.path_loop_spec sorted (-1) sta seena Hna Hea
              (BuilderV02Lines.set_int_iter_sorted _)) as (Hnin & _);
    [now left|lia|].
  destruct (path_loop_links sorted (-1) sta seena Hna Hea
              (BuilderV02Lines.set_int_iter_sorted _)) as (_ & Hnext);
    [now left|lia|].
  destruct (Hnext i a b Ha Hbb) as (u & v & Hu & Hv & Huv).
  exists u, v. split_and!.
  - eapply numbers_mono; [exact Hnin|exact Hnf| |exact Hu].
    etransitivity; apply foldl_note_prefix.
  - eapply numbers_mono; [exact Hnin|exact Hnf| |exact Hv].
    etransitivity; apply foldl_note_prefix.
  - apply (v02_lines_keep_edges _ _ _ _ Hrb).
    now rewrite (v02_line_edges _ _ _ _ Eb Hi).
Qed.

Lemma sorted_consecutive (l : list Z) : forall i a b,
  StronglySorted Z.lt l -> l !! i = Some a -> l !! S i = Some b -> a < b.
Proof.
  intros i a b Hs. revert i. induction Hs as [|x l Hs IH Hlt]; intros i Ha Hb.
  - discriminate.
  - destruct i as [|i]; cbn in Ha, Hb.
    + injection Ha as <-. rewrite Forall_forall in Hlt.
      apply Hlt. eapply list_elem_of_lookup_2; eauto.
    + eauto.
Qed.

(** X22: version 0.2 of the builder makes a path through the distinct
    input addresses of a transaction in ascending order: for two addresses
    that follow each other in that order, the pair of their node
    identifiers is an edge record of the file (stream with at most
    2^31 - 1 distinct addresses). *)
Theorem path_edges_persisted host input o line ins i a b :
  main host input = Some o ->
  Z.of_nat (length (first_occurrences (processing_order input)))
    <= Int32.INT_MAX ->
  line ∈ getlines input -> inputs line = Some ins ->
  set_int_iter (list_to_set ins) !! i = Some a ->
  set_int_iter (list_to_set ins) !! S i = Some b ->
  a < b /\
  exists u v, nodes (final o) !! a = Some u /\ nodes (final o) !! b = Some v /\
              (u, v) ∈ tail (int_pairs host bswap32 (file o)).
Proof.
  intros Hmain Hb Hline Hi Ha Hbb. split.
  - eapply sorted_consecutive; eauto using BuilderV02Lines.set_int_iter_sorted.
  - destruct (v02_links _ _ _ _ _ _ _ _ Hmain Hb Hline Hi Ha Hbb)
      as (u & v & Hu & Hv & Huv).
    destruct (v02_main_decodes _ _ _ Hmain Hb) as (Hd & _).
    exists u, v. rewrite Hd. cbn [tail].
    now rewrite BuilderV02Facts.elem_of_edge_set_iter.
Qed.

Lemma path_edges_persisted_witness :
  exists o,
    main LittleEndian sample_stream = Some o /\ 5 < 7.
Proof.
  destruct (main LittleEndian sample_stream) as [o|] eqn:E;
    [|vm_compute in E; discriminate].
  exists o. split; [reflexivity|].
  refine (proj1 (path_edges_persisted LittleEndian sample_stream o sample_line
            [5; 7; 5] 0 5 7 E _ sample_line_in eq_refl _ _)).
  - vm_compute. discriminate.
  - vm_compute. reflexivity.
  - vm_compute. reflexivity.
Defined.

Lemma chain_connected (es : list (Z * Z)) (id_of : Z -> option Z) (l : list Z) :
  (forall a, a ∈ l -> is_Some (id_of a)) ->
  (forall i a b, l !! i = Some a -> l !! S i = Some b ->
     exists u v, id_of a = Some u /\ id_of b = Some v /\ (u, v) ∈ es) ->
  forall k i a b, l !! i = Some a -> l !! (i + k)%nat = Some b ->
    exists u v, id_of a = Some u /\ id_of b = Some v /\ Graph.connected es u v.
Proof.
  intros Hid Hstep. induction k as [|k IH]; intros i a b Ha Hb.
  - rewrite Nat.add_0_r, Ha in Hb. injection Hb as <-.
    destruct (Hid a) as [u Hu]; [eapply list_elem_of_lookup_2; eauto|].
    exists u, u. split_and!; auto. reflexivity.
  - destruct (lookup_lt_is_Some_2 l (i + k)) as [c Hc].
    { apply lookup_lt_Some in Hb. lia. }
    destruct (IH i a c Ha Hc) as (u & w & Hu & Hw & Huw).
    replace (i + S k)%nat with (S (i + k)) in Hb by lia.
    destruct (Hstep _ _ _ Hc Hb) as (w' & v & Hw' & Hv & Hwv).
    rewrite Hw in Hw'. injection Hw' as <-.
    exists u, v. split_and!; auto.
    eapply GraphFacts.connected_trans; [exact Huw|].
    apply GraphFacts.connected_edge. now left.
Qed.

(** X23: in the graph given by the edge records of the file of version
    0.2, the nodes of any two input addresses of one transaction are
    connected by a path (stream with at most 2^31 - 1 distinct
    addresses). *)
Theorem v02_inputs_connected host input o line ins x y :
  main host input = Some o ->
  Z.of_nat (length (first_occurrences (processing_order input)))
    <= Int32.INT_MAX ->
  line ∈ getlines input -> inputs line = Some ins ->
  x ∈ ins -> y ∈ ins ->
  exists u v, nodes (final o) !! x = Some u /\ nodes (final o) !! y = Some v /\
              Graph.connected (tail (int_pairs host bswap32 (file o))) u v.
Proof.
  intros Hmain Hb Hline Hi Hx Hy.
  destruct (BuilderV02Facts.v02_main_spec _ _ _ Hmain) as (Hrun & _).
  destruct (BuilderV02Lines.run_spec _ _ Hrun Hb) as (Hnf & _).
  assert (Forall (fun l => parses l = true) (getlines input)) as Hall
    by (eapply BuilderV02Lines.process_lines_parses; eauto).
  destruct (v02_main_decodes _ _ _ Hmain Hb) as (Hd & _).
  rewrite Hd. cbn [tail].
  set (sorted := set_int_iter (list_to_set ins)).
  assert (forall a, a ∈ sorted -> is_Some (nodes (final o) !! a)) as Hid.
  { intros a Ha. apply (numbers_elem _ _ a Hnf).
    apply elem_of_first_occurrences.
    apply observed_processing_order; [exact Hall|].
    apply BuilderV02Lines.elem_of_set_int_iter, elem_of_list_to_set in Ha.
    eapply inputs_observed; eauto. }
  assert (forall i a b, sorted !! i = Some a -> sorted !! S i = Some b ->
            exists u v, nodes (final o) !! a = Some u /\
                        nodes (final o) !! b = Some v /\
                        (u, v) ∈ edge_set_iter (edges (final o))) as Hstep.
  { intros i a b Ha Hbb.
    destruct (v02_links _ _ _ _ _ _ _ _ Hmain Hb Hline Hi Ha Hbb)
      as (u & v & Hu & Hv & Huv).
    exists u, v. now rewrite BuilderV02Facts.elem_of_edge_set_iter. }
  assert (x ∈ sorted) as Hxs
    by now apply BuilderV02Lines.elem_of_set_int_iter, elem_of_list_to_set.
  assert (y ∈ sorted) as Hys
    by now apply BuilderV02Lines.elem_of_set_int_iter, elem_of_list_to_set.
  apply list_elem_of_lookup in Hxs as [i Hxi], Hys as [j Hyj].
  destruct (Nat.le_ge_cases i j) as [Hij|Hij].
  - apply (chain_connected _ _ sorted Hid Hstep (j - i) i); [exact Hxi|].
    now replace (i + (j - i))%nat with j by lia.
  - destruct (chain_connected _ _ sorted Hid Hstep (i - j) j y x)
      as (v & u & Hv & Hu & Hvu); [exact Hyj| |].
    + now replace (j + (i - j))%nat with i by lia.
    + exists u, v. split_and!; auto. now apply GraphFacts.connected_sym.
Qed.

Lemma v02_inputs_connected_witness :
  exists o,
    main LittleEndian sample_stream = Some o /\
    exists u v, nodes (final o) !! 7 = Some u /\ nodes (final o) !! 5 = Some v /\
      Graph.connected (tail (int_pairs LittleEndian bswap32 (file o))) u v.
Proof.
  destruct (main LittleEndian sample_stream) as [o|] eqn:E;
    [|vm_compute in E; discriminate].
  exists o. split; [reflexivity|].
  refine (v02_inputs_connected LittleEndian sample_stream o sample_line
            [5; 7; 5] 7 5 E _ sample_line_in eq_refl _ _).
  - vm_compute. discriminate.
  - right. left.
  - left.
Defined.

End PathOfEdges.

Section NoValidation.
Import CString Tx.

Lemma strtok_first d c s :
  c <> d -> exists f, strtok d (c :: s) = Some (c :: f).
Proof.
  intros Hne. destruct (fields_cons_other d c s Hne) as (f & fs & Hf).
  exists f. unfold strtok, tokens. now rewrite Hf.
Qed.

(** X24: the builders do not check that an address is a number: an item
    whose first character is not a digit, a sign, white space or a comma is
    given the address 0, like an item that says 0. *)
Theorem non_numeric_address_is_zero c s :
  digit c = None -> isspace c = false ->
  c <> ","%char -> c <> "-"%char -> c <> "+"%char ->
  address_of (c :: s) = Some 0.
Proof.
  intros Hd Hs Hc Hm Hp. unfold address_of.
  destruct (strtok_first ","%char c s Hc) as (f & ->).
  cbn [fmap option_fmap option_map]. f_equal.
  unfold atoi, strtol10. cbn [skip_spaces]. rewrite Hs. unfold is_char.
  destruct (Ascii.eqb_spec c "-"%char); [contradiction|].
  destruct (Ascii.eqb_spec c "+"%char); [contradiction|].
  cbn [digits_value]. rewrite Hd. reflexivity.
Qed.

Lemma non_numeric_address_is_zero_witness :
  address_of (txt "abc,12") = Some 0.
Proof.
  apply (non_numeric_address_is_zero "a"%char (txt "bc,12"));
    (reflexivity || discriminate).
Defined.

End NoValidation.

(** * The claims on the components, on malformed input and on repeated runs *)

Section Components.
Import Bytes Codec Input Samples.

(** C2: for every graph that an analyzer has read, the clustering file has
    a row for every node identifier below the node count, and two rows
    carry the same component identifier exactly when a path of edges of
    the graph joins their nodes.  The component identifiers are those of
    the connected-components engine as the design describes it (union-find
    with path compression and union by rank); the rows are those of
    [clustering.cpp] and of [analyzer.cpp]. *)
Theorem components_are_connectivity host argv3 input_file :
  (forall graph,
     Clustering.read_graph_binary host input_file
       (Clustering.num_addresses argv3) = Some graph ->
     exists rows,
       Clustering.main host argv3 input_file
         = Some (Header "node_id,comp_id" :: rows) /\
       (forall i : nat, (i < Graph.vcount graph)%nat ->
          exists c, Row (Z.of_nat i) c ∈ rows) /\
       (forall (u v : nat) cu cv,
          Row (Z.of_nat u) cu ∈ rows -> Row (Z.of_nat v) cv ∈ rows ->
          (cu = cv <-> Graph.connected (Graph.edge_list graph) u v))) /\
  (forall graph,
     Analyzer.read_graph host input_file = Some graph ->
     exists rows,
       Analyzer.main Lemon.node_list host input_file = Some rows /\
       (forall i : nat, (i < Graph.vcount graph)%nat ->
          exists c, Row (Z.of_nat i) c ∈ rows) /\
       (forall (u v : nat) cu cv,
          Row (Z.of_nat u) cu ∈ rows -> Row (Z.of_nat v) cv ∈ rows ->
          (cu = cv <-> Graph.connected (Graph.edge_list graph) u v))).
Proof.
  split.
  - intros graph Hg. unfold Clustering.main. rewrite Hg, Steps.bind_some.
    eexists. split; [reflexivity|].
    destruct (ComponentFacts.component_rows graph
                (seq 0 (Z.to_nat (Clustering.igraph_vcount graph))))
      with (rows := Clustering.rows (Clustering.igraph_vcount graph)
                      (Clustering.igraph_connected_components graph))
      as [Hall Hsame].
    + eapply ComponentFacts.clustering_graph_well_formed, Hg.
    + unfold Clustering.igraph_vcount. rewrite Nat2Z.id.
      apply Forall_forall. intros i Hi. apply elem_of_seq in Hi. lia.
    + reflexivity.
    + split; [|exact Hsame]. intros i Hi. apply Hall.
      unfold Clustering.igraph_vcount. rewrite Nat2Z.id.
      apply elem_of_seq. lia.
  - intros graph Hg. unfold Analyzer.main, Lemon.main.
    unfold Analyzer.read_graph in Hg. rewrite Hg, Steps.bind_some.
    eexists. split; [reflexivity|].
    destruct (ComponentFacts.component_rows graph
                (Lemon.node_list (Graph.vcount graph)))
      with (rows := Lemon.rows Lemon.node_list graph
                      (Lemon.connectedComponents graph))
      as [Hall Hsame].
    + eapply ComponentFacts.lemon_graph_well_formed, Hg.
    + apply Forall_forall. intros i Hi. unfold Lemon.node_list in Hi.
      apply list_elem_of_In, in_rev, list_elem_of_In, elem_of_seq in Hi. lia.
    + reflexivity.
    + split; [|exact Hsame]. intros i Hi. apply Hall.
      unfold Lemon.node_list.
      apply list_elem_of_In, in_rev. rewrite rev_involutive.
      apply list_elem_of_In, elem_of_seq. lia.
Qed.

Lemma components_are_connectivity_witness :
  exists rows,
    Clustering.main LittleEndian None two_pairs_file
      = Some (Header "node_id,comp_id" :: rows) /\
    (forall cu cv, Row 0 cu ∈ rows -> Row 1 cv ∈ rows ->
       (cu = cv <-> Graph.connected [(0, 1); (2, 3)]%nat 0%nat 1%nat)) /\
    (forall cu cv, Row 1 cu ∈ rows -> Row 2 cv ∈ rows ->
       (cu = cv <-> Graph.connected [(0, 1); (2, 3)]%nat 1%nat 2%nat)).
Proof.
  destruct (proj1 (components_are_connectivity LittleEndian None two_pairs_file)
              (Graph.mk 4 [(0, 1); (2, 3)]%nat))
    as (rows & Hm & _ & Hsame); [vm_compute; reflexivity|].
  exists rows. split; [exact Hm|]. split.
  - intros cu cv. exact (Hsame 0%nat 1%nat cu cv).
  - intros cu cv. exact (Hsame 1%nat 2%nat cu cv).
Defined.

End Components.

Section SharedInputs.
Import Bytes Codec CString Tx Input Samples.





End SharedInputs.

Section MalformedRecords.
Import Bytes Codec CString Tx Input NumberingFacts Samples.

Lemma addresses_of_elem items : forall l item a,
  addresses_of items = Some l -> item ∈ items ->
  address_of item = Some a -> a ∈ l.
Proof.
  induction items as [|it items IH]; intros l item a H Hin Ha;
    [inversion Hin|].
  cbn [addresses_of] in H.
  destruct (address_of it) as [b|] eqn:Eb; [|discriminate].
  destruct (addresses_of items) as [l'|] eqn:El; [|discriminate].
  cbn in H. injection H as <-.
  apply elem_of_cons in Hin as [->|Hin].
  - rewrite Ha in Eb. injection Eb as ->. left.
  - right. eapply IH; eauto.
Qed.

(** C5 (amended): the builders do not check that an address is a number
    and have no error for a malformed record.  An item of an inputs or
    outputs field whose first character is not a digit, a sign, white
    space or a comma has the address 0 and is observed like any other.  On
    a stream that holds such an item, and in which every item has a first
    field, version 0.2 runs to the end and, with at most 2^31 - 1 distinct
    addresses, its node map gives address 0 a node; version 1.0 runs to
    the end as well when every inputs field is empty or holds an item.
    Both write their graph file. *)
Theorem malformed_record_accepted host input line c s :
  line ∈ getlines input ->
  c :: s ∈ tokens ";"%char (field 1 line) ++ tokens ";"%char (field 2 line) ->
  digit c = None -> isspace c = false ->
  c <> ","%char -> c <> "-"%char -> c <> "+"%char ->
  Forall (fun l => parses l = true) (getlines input) ->
  address_of (c :: s) = Some 0 /\
  0 ∈ observed input /\
  (Forall (fun l => has_first_input l = true) (getlines input) ->
   is_Some (Builder.main host input)) /\
  (exists o,
     BuilderV02.main host input = Some o /\
     (Z.of_nat (length (BuilderV02.first_occurrences
                          (BuilderV02.processing_order input)))
        <= Int32.INT_MAX ->
      is_Some (BuilderV02.nodes (BuilderV02.final o) !! 0))).
Proof.
  intros Hline Hitem Hd Hs Hc Hm Hp Hall.
  assert (address_of (c :: s) = Some 0) as Haddr.
  { unfold address_of. destruct (strtok_first ","%char c s Hc) as (f & ->).
    cbn [fmap option_fmap option_map]. f_equal.
    unfold atoi, strtol10. cbn [skip_spaces]. rewrite Hs. unfold is_char.
    destruct (Ascii.eqb_spec c "-"%char); [contradiction|].
    destruct (Ascii.eqb_spec c "+"%char); [contradiction|].
    cbn [digits_value]. rewrite Hd. reflexivity. }
  assert (0 ∈ observed input) as Hobs.
  { pose proof Hall as Hall'. rewrite Forall_forall in Hall'.
    specialize (Hall' _ Hline). unfold parses in Hall'.
    apply andb_prop in Hall' as [Hi Ho].
    apply bool_decide_eq_true in Hi as [ins Hi], Ho as [outs Ho].
    unfold observed. apply list_elem_of_In, in_flat_map. exists line.
    split; [now apply list_elem_of_In|]. apply list_elem_of_In.
    rewrite (TxFacts.observed_in_line_parsed _ _ _ Hi Ho).
    apply elem_of_app. apply elem_of_app in Hitem as [Hin|Hin]; [left|right].
    - exact (addresses_of_elem _ _ _ _ Hi Hin Haddr).
    - exact (addresses_of_elem _ _ _ _ Ho Hin Haddr). }
  split; [exact Haddr|]. split; [exact Hobs|]. split.
  - intros Hreg.
    destruct (BuilderStream.process_lines_total (getlines input)
                Builder.no_memory (Builder.mkState 0 [])) as [[m st] Hst].
    + rewrite Forall_forall in *. auto.
    + eapply BuilderFacts.main_total, Hst.
  - destruct (v02_lines_total _ BuilderV02.initial Hall) as [st Hst].
    assert (is_Some (BuilderV02.main host input)) as [o Ho]
      by (unfold BuilderV02.main; rewrite Hst; cbn; eauto).
    exists o. split; [exact Ho|]. intros Hb.
    destruct (BuilderV02Facts.v02_main_spec _ _ _ Ho) as (Hrun & _).
    destruct (BuilderV02Lines.run_spec _ _ Hrun Hb) as (Hn & _).
    apply (numbers_elem _ _ 0 Hn), elem_of_first_occurrences.
    apply observed_processing_order; assumption.
Qed.

Lemma malformed_line_in : malformed_line ∈ getlines malformed_stream.
Proof. left. Qed.

Lemma malformed_record_accepted_witness :
  0 ∈ observed malformed_stream /\
  is_Some (Builder.main LittleEndian malformed_stream) /\
  is_Some (BuilderV02.main LittleEndian malformed_stream).
Proof.
  destruct (malformed_record_accepted LittleEndian malformed_stream
              malformed_line "a"%char (txt "bc,10"))
    as (_ & Hobs & H1 & (o & H2 & _)).
  - exact malformed_line_in.
  - left.
  - reflexivity.
  - reflexivity.
  - discriminate.
  - discriminate.
  - discriminate.
  - apply Steps.Forall_by_test. vm_compute. reflexivity.
  - split; [exact Hobs|]. split.
    + apply H1. apply Steps.Forall_by_test. vm_compute. reflexivity.
    + rewrite H2. eauto.
Defined.

(** C5 as stated fails: on a transaction whose first input item is
    [abc,10] both builders run to the end and write a graph file; the item
    counts as address 0, which version 1.0 joins to address 7 by an edge
    record and to which version 0.2 gives the node 0. *)
Lemma malformed_record_not_rejected :
  (exists o,
     Builder.main LittleEndian malformed_stream = Some o /\
     int_pairs LittleEndian bswap32 (Builder.file o) = [(10, 1); (0, 7)]) /\
  (exists o,
     BuilderV02.main LittleEndian malformed_stream = Some o /\
     BuilderV02.nodes (BuilderV02.final o) !! 0 = Some 0 /\
     int_pairs LittleEndian bswap32 (BuilderV02.file o) = [(3, 1); (0, 1)]).
Proof.
  split.
  - destruct (Builder.main LittleEndian malformed_stream) as [o|] eqn:E;
      [|vm_compute in E; discriminate].
    exists o. split; [reflexivity|].
    vm_compute in E. injection E as <-. reflexivity.
  - destruct (BuilderV02.main LittleEndian malformed_stream) as [o|] eqn:E;
      [|vm_compute in E; discriminate].
    exists o. split; [reflexivity|].
    vm_compute in E. injection E as <-. split; reflexivity.
Qed.

End MalformedRecords.

Section EdgeCount.
Import Bytes Codec Input Samples.

Lemma pairs_flatten_app (es : list (Z * Z)) (v : list Z) :
  Graph.pairs (Clustering.flatten es ++ v)
  = ((fun e => (Z.to_nat e.1, Z.to_nat e.2)) <$> es) ++ Graph.pairs v.
Proof.
  induction es as [|[a b] es IH]; [reflexivity|].
  cbn [Clustering.flatten flat_map app Graph.pairs fmap list_fmap fst snd].
  f_equal. exact IH.
Qed.

Lemma pairs_zeros (k : nat) :
  Graph.pairs (replicate (2 * k) 0) = replicate k (0%nat, 0%nat).
Proof.
  induction k as [|k IH]; [reflexivity|].
  replace (2 * S k)%nat with (S (S (2 * k))) by lia.
  cbn [replicate Graph.pairs]. now rewrite IH.
Qed.

Lemma valid_zeros n (k : nat) :
  (0 < n)%nat -> forallb (Graph.valid_node n) (replicate k 0) = true.
Proof.
  intros Hn. induction k as [|k IH]; [reflexivity|].
  cbn [replicate forallb]. rewrite IH. unfold Graph.valid_node.
  destruct (Z.ltb_spec 0 (Z.of_nat n)); [reflexivity|lia].
Qed.

(** C6 (amended): the analyzers do not compare the edge count of the
    header with the file and report no corruption.  For a header that
    gives [N] nodes and [M] edges and any list of records between nodes
    below [N]: [analyzer.cpp] uses [M] to reserve memory only, builds the
    graph of all the records and writes a row for each of the [N] nodes,
    whatever [M] is; [clustering.cpp], when the file holds at most [M]
    records, builds the graph of the records and of one edge from node 0
    to node 0 for each missing record and writes a row for each of the [N]
    nodes.  (With more than [M] records [clustering.cpp] stores past the
    end of its vector; nothing is said of that case.) *)
Theorem edge_count_not_checked host (N M : Z) (es : list (Z * Z)) :
  0 < N <= Int32.INT_MAX -> 0 <= M < 2 ^ 30 ->
  Forall (fun e => 0 <= e.1 < N /\ 0 <= e.2 < N) es ->
  (Analyzer.read_graph host
     (Builder.put_pair host N M ++ Builder.encode_edges host es)
   = Some (Graph.mk (Z.to_nat N)
             ((fun e => (Z.to_nat e.1, Z.to_nat e.2)) <$> es)) /\
   exists rows,
     Analyzer.main Lemon.node_list host
       (Builder.put_pair host N M ++ Builder.encode_edges host es) = Some rows /\
     length rows = Z.to_nat N) /\
  (Z.of_nat (length es) <= M ->
   Clustering.read_graph_binary host
     (Builder.put_pair host N M ++ Builder.encode_edges host es) 0
   = Some (Graph.mk (Z.to_nat N)
             (((fun e => (Z.to_nat e.1, Z.to_nat e.2)) <$> es)
                ++ replicate (Z.to_nat M - length es) (0%nat, 0%nat))) /\
   exists rows,
     Clustering.main host None
       (Builder.put_pair host N M ++ Builder.encode_edges host es)
     = Some (Header "node_id,comp_id" :: rows) /\
     length rows = Z.to_nat N).
Proof.
  intros HN HM Hes.
  assert (Int32.in_range N) as HNr
    by (unfold Int32.in_range, Int32.INT_MIN, Int32.INT_MAX in *; lia).
  assert (Int32.in_range M) as HMr
    by (unfold Int32.in_range, Int32.INT_MIN, Int32.INT_MAX in *; lia).
  assert (Forall (fun e : Edge.t => Int32.in_range e.1 /\ Int32.in_range e.2) es)
    as Hr.
  { eapply Forall_impl; [exact Hes|]. cbn. intros e.
    unfold Int32.in_range, Int32.INT_MIN, Int32.INT_MAX in *. lia. }
  assert (Int32.mul 2 M = 2 * M) as H2M.
  { apply Int32Facts.wrap_id.
    unfold Int32.in_range, Int32.INT_MIN, Int32.INT_MAX. lia. }
  destruct (InputFacts.buf_put_pair host _ _ HNr HMr) as [Hb0 Hb1].
  rewrite ReaderFacts.encode_edges_concat. split.
  - assert (Analyzer.read_graph host
              (Builder.put_pair host N M
                 ++ concat ((fun e => Builder.put_pair host e.1 e.2) <$> es))
            = Some (Graph.mk (Z.to_nat N)
                      ((fun e => (Z.to_nat e.1, Z.to_nat e.2)) <$> es))) as Hg.
    { unfold Analyzer.read_graph.
      rewrite ReaderFacts.lemon_read_graph
        by auto using BuilderFacts.length_put_pair,
                      ReaderFacts.swapped_blocks_length.
      rewrite Hb0, Hb1, ReaderFacts.decode_swapped_blocks by exact Hr.
      unfold Lemon.build, Lemon.reserve. rewrite H2M.
      destruct (Z.ltb_spec N 0); [lia|]. destruct (Z.ltb_spec (2 * M) 0); [lia|].
      rewrite !Steps.bind_some. rewrite ClusteringFacts.lemon_add_edges;
        [reflexivity|].
      eapply Forall_impl; [exact Hes|]. cbn. intros e.
      rewrite Z2Nat.id by lia. tauto. }
    split; [exact Hg|].
    unfold Analyzer.main, Lemon.main. unfold Analyzer.read_graph in Hg.
    rewrite Hg, Steps.bind_some. eexists. split; [reflexivity|].
    unfold Lemon.rows, Lemon.node_list. cbn [Graph.vcount].
    now rewrite length_fmap, length_rev, length_seq.
  - intros Hle.
    assert (Clustering.read_graph_binary host
              (Builder.put_pair host N M
                 ++ concat ((fun e => Builder.put_pair host e.1 e.2) <$> es)) 0
            = Some (Graph.mk (Z.to_nat N)
                      (((fun e => (Z.to_nat e.1, Z.to_nat e.2)) <$> es)
                         ++ replicate (Z.to_nat M - length es) (0%nat, 0%nat))))
      as Hg.
    { rewrite ReaderFacts.clustering_read_graph
        by auto using BuilderFacts.length_put_pair,
                      ReaderFacts.swapped_blocks_length.
      rewrite Hb0, Hb1, ReaderFacts.decode_swapped_blocks by exact Hr.
      rewrite Z.eqb_refl. unfold Clustering.build. rewrite H2M.
      unfold Clustering.igraph_empty, Clustering.igraph_vector_int_init.
      destruct (Z.ltb_spec N 0); [lia|]. destruct (Z.ltb_spec (2 * M) 0); [lia|].
      rewrite !Steps.bind_some.
      replace (replicate (Z.to_nat (2 * M)) 0)
        with ([] ++ replicate (2 * length es) 0
                 ++ replicate (2 * (Z.to_nat M - length es)) 0)
        by (cbn [app]; rewrite <- replicate_add; f_equal; lia).
      rewrite (ClusteringFacts.store_edges_fill es [])
        by apply length_replicate.
      rewrite Steps.bind_some. cbn [app].
      unfold Clustering.igraph_add_edges. cbn [Graph.vcount Graph.edge_list app].
      rewrite forallb_app, ClusteringFacts.valid_flatten, valid_zeros; [|lia|].
      - cbn [andb]. now rewrite pairs_flatten_app, pairs_zeros.
      - eapply Forall_impl; [exact Hes|]. cbn. intros e.
        rewrite Z2Nat.id by lia. tauto. }
    split; [exact Hg|].
    unfold Clustering.main. cbn [Clustering.num_addresses].
    rewrite Hg, Steps.bind_some. eexists. split; [reflexivity|].
    unfold Clustering.rows, Clustering.igraph_vcount. cbn [Graph.vcount].
    now rewrite length_fmap, length_seq, Nat2Z.id.
Qed.

Lemma edge_count_not_checked_witness :
  Analyzer.read_graph LittleEndian
    (Builder.put_pair LittleEndian 3 7
       ++ Builder.encode_edges LittleEndian [(0, 1); (1, 2)])
  = Some (Graph.mk 3 [(0, 1); (1, 2)]%nat) /\
  Clustering.read_graph_binary LittleEndian
    (Builder.put_pair LittleEndian 3 7
       ++ Builder.encode_edges LittleEndian [(0, 1); (1, 2)]) 0
  = Some (Graph.mk 3 ([(0, 1); (1, 2)] ++ replicate 5 (0, 0))%nat).
Proof.
  destruct (edge_count_not_checked LittleEndian 3 7 [(0, 1); (1, 2)])
    as [[Ha _] Hc].
  - vm_compute. split; [reflexivity|discriminate].
  - vm_compute. split; [discriminate|reflexivity].
  - repeat constructor; cbn; lia.
  - split; [exact Ha|]. apply Hc. cbn. lia.
Defined.

(** C6 as stated fails: a file of 24 bytes whose header announces seven
    edge records, followed by two, is taken by both analyzers without an
    error, and each writes a component for every node. *)
Lemma edge_count_mismatch_accepted :
  length (seven_edges_header ++ concat small_graph_records) = 24%nat /\
  bswap32 (buf1 LittleEndian seven_edges_header) = 7 /\
  Analyzer.main Lemon.node_list LittleEndian
    (seven_edges_header ++ concat small_graph_records)
  = Some [Row 2 0; Row 1 0; Row 0 0] /\
  Clustering.main LittleEndian None
    (seven_edges_header ++ concat small_graph_records)
  = Some [Header "node_id,comp_id"; Row 0 0; Row 1 0; Row 2 0].
Proof. repeat split; vm_compute; reflexivity. Qed.

End EdgeCount.

Section RepeatedRuns.
Import Bytes Codec CString Tx Input Samples EdgeFacts.

(** C9: the output of a builder is a function of its input stream.  Two
    runs of version 1.0 on the same stream, with any two sorting
    algorithms that meet the contract of [std::sort], return the same
    counts and the same file, byte for byte.  The edge records of the file
    are the edges of the lines of the stream, sorted, each once; and on a
    stream in which every item has a first field and every inputs field is
    empty or holds an item the run does end with a file.  On machines of
    different byte order two runs still end alike and give the same node
    count, the same edge count and the same edge records in the same
    order.  Two runs of version 0.2 end alike with the same map from
    addresses to identifiers, the same edge set, the same counts and the
    same file; they end with a file on every stream in which every item
    has a first field. *)
Theorem builder_deterministic srt srt' host host' input :
  Edge.is_std_sort srt -> Edge.is_std_sort srt' ->
  Builder.main_with srt host input = Builder.main_with srt' host input /\
  (forall o,
     Builder.main_with srt host input = Some o ->
     tail (int_pairs host bswap32 (Builder.file o))
       = Builder.unique_from None
           (Edge.sort (flat_map Builder.line_edges (getlines input)))) /\
  (Forall (fun l => parses l = true) (getlines input) ->
   is_Some (BuilderV02.main host input) /\
   (Forall (fun l => has_first_input l = true) (getlines input) ->
    is_Some (Builder.main_with srt host input))) /\
  (is_Some (Builder.main_with srt host input)
     <-> is_Some (Builder.main_with srt' host' input)) /\
  (forall o o',
     Builder.main_with srt host input = Some o ->
     Builder.main_with srt' host' input = Some o' ->
     Builder.num_nodes o = Builder.num_nodes o' /\
     Builder.num_edges o = Builder.num_edges o' /\
     int_pairs host bswap32 (Builder.file o)
       = int_pairs host' bswap32 (Builder.file o') /\
     (same_order host host' = true -> Builder.file o = Builder.file o')) /\
  (is_Some (BuilderV02.main host input)
     <-> is_Some (BuilderV02.main host' input)) /\
  (forall o o',
     BuilderV02.main host input = Some o ->
     BuilderV02.main host' input = Some o' ->
     BuilderV02.final o = BuilderV02.final o' /\
     BuilderV02.num_nodes o = BuilderV02.num_nodes o' /\
     BuilderV02.num_edges o = BuilderV02.num_edges o' /\
     (same_order host host' = true ->
      BuilderV02.file o = BuilderV02.file o')).
Proof.
  intros Hsrt Hsrt'.
  assert (forall f h, Edge.is_std_sort f ->
            Builder.main_with f h input = Builder.main h input) as Hstd.
  { intros f h Hf. unfold Builder.main, Builder.main_with.
    destruct (Builder.process_lines _ _ _) as [[m st]|]; [|reflexivity].
    rewrite !Steps.bind_some.
    destruct (Hf (Builder.edges st)) as [Hs Hp].
    now rewrite (sort_unique _ _ Hs Hp). }
  rewrite !Hstd by assumption.
  assert (forall h, is_Some (Builder.main h input) <->
            is_Some (Builder.process_lines (getlines input) Builder.no_memory
                       (Builder.mkState 0 []))) as Hsome.
  { intros h. split.
    - intros [o Ho].
      destruct (BuilderFacts.main_spec _ _ _ Ho) as (m & st & -> & _). eauto.
    - intros [[m st] Hst]. eapply BuilderFacts.main_total, Hst. }
  split; [reflexivity|]. split; [|split; [|split; [|split; [|split]]]].
  - intros o Ho.
    destruct (BuilderEdges.main_decodes _ _ _ Ho)
      as (m & st & Hrun & _ & _ & ->).
    cbn [tail]. unfold Builder.written_edges.
    apply BuilderStream.process_lines_edges in Hrun as ->. reflexivity.
  - intros Hall. split.
    + destruct (v02_lines_total _ BuilderV02.initial Hall) as [st Hst].
      unfold BuilderV02.main. rewrite Hst. cbn. eauto.
    + intros Hreg. apply Hsome.
      apply BuilderStream.process_lines_total.
      rewrite Forall_forall in *. auto.
  - now rewrite !Hsome.
  - intros o o' Ho Ho'.
    destruct (BuilderEdges.main_decodes _ _ _ Ho)
      as (m & st & Hrun & HN & HM & Hd).
    destruct (BuilderEdges.main_decodes _ _ _ Ho')
      as (m' & st' & Hrun' & HN' & HM' & Hd').
    rewrite Hrun in Hrun'. injection Hrun' as <- <-.
    assert (Builder.num_nodes o = Builder.num_nodes o') as EN by congruence.
    assert (Builder.num_edges o = Builder.num_edges o') as EM by congruence.
    split; [exact EN|]. split; [exact EM|]. split; [congruence|].
    intros Hsame. apply ReaderFacts.same_order_eq in Hsame as <-. congruence.
  - unfold BuilderV02.main.
    destruct (BuilderV02.process_lines _ _); cbn; split; intros [? ?];
      eauto; discriminate.
  - intros o o' Ho Ho'.
    destruct (BuilderV02Facts.v02_main_spec _ _ _ Ho) as (Hrun & HN & HM & Hf).
    destruct (BuilderV02Facts.v02_main_spec _ _ _ Ho') as (Hrun' & HN' & HM' & Hf').
    assert (BuilderV02.final o = BuilderV02.final o') as E by congruence.
    split; [exact E|]. split; [congruence|]. split; [congruence|].
    intros Hsame. apply ReaderFacts.same_order_eq in Hsame as <-. congruence.
Qed.

Lemma builder_deterministic_witness :
  Builder.main_with (fun l => Edge.sort (rev l)) LittleEndian sample_stream
  = Builder.main_with Edge.sort LittleEndian sample_stream /\
  is_Some (Builder.main_with (fun l => Edge.sort (rev l)) LittleEndian
             sample_stream).
Proof.
  destruct (builder_deterministic (fun l => Edge.sort (rev l)) Edge.sort
              LittleEndian BigEndian sample_stream)
    as (H1 & _ & H3 & _).
  3:{ split; [exact H1|].
      apply H3; apply Steps.Forall_by_test; vm_compute; reflexivity. }
  - intros l. split.
    + apply Sorted_merge_sort. apply _.
    + unfold Edge.sort. rewrite merge_sort_Permutation.
      symmetry. apply Permutation_rev.
  - intros l. split.
    + apply Sorted_merge_sort. apply _.
    + unfold Edge.sort. apply merge_sort_Permutation.
Defined.

End RepeatedRuns.
